(** * realsense2_camera: stream synchronisation and frame processing

    A shallow embedding of [src/realsense2_camera/src/base_realsense_node.cpp]
    and the properties of its synchronisation pipeline.

    Conventions.
    - Mutable members and function-local statics become explicit state that is
      passed in and returned.
    - A C++ exception is an outcome of the computation ([Throw]); the state at
      the moment of the throw is kept next to it.
    - [double] and [float] values are kept behind the [Scalar] interface.  Three
      instances are given: [double] (IEEE-754 binary64, the kernel's primitive
      floats), [single] (IEEE-754 binary32, through the standard library's
      executable specification) and [exact] (canonical rationals, only to say
      what idealised arithmetic would give).
    - An [rclcpp::Time] or [rclcpp::Duration] is its count of nanoseconds, a
      64-bit integer. *)

From Stdlib Require Import ZArith List Bool Lia Arith String DecimalString.
From Stdlib Require Import QArith Qcanon Qabs.
From Stdlib Require Import Floats.PrimFloat Floats.SpecFloat Floats.FloatOps.
From Stdlib Require Import Floats.FloatAxioms.
From Stdlib Require Reals Lra.
Import ListNotations.

Set Implicit Arguments.

Abbreviation length := List.length (only parsing).
Open Scope string_scope.
Open Scope list_scope.
Open Scope nat_scope.

(** ** Scalars *)

Class Scalar (F : Type) : Type := {
  sc_zero : F;
  sc_one : F;
  sc_add : F -> F -> F;
  sc_sub : F -> F -> F;
  sc_mul : F -> F -> F;
  sc_div : F -> F -> F;
  sc_leb : F -> F -> bool;
  sc_ltb : F -> F -> bool;
  sc_of_Z : Z -> F;
  (* conversion to an integer: the fractional part is discarded; [None] when
     the value is not a number or not finite *)
  sc_trunc : F -> option Z
}.

Declare Scope scalar_scope.
Delimit Scope scalar_scope with sc.
Notation "x + y" := (sc_add x y) : scalar_scope.
Notation "x - y" := (sc_sub x y) : scalar_scope.
Notation "x * y" := (sc_mul x y) : scalar_scope.
Notation "x / y" := (sc_div x y) : scalar_scope.
Notation "x <=? y" := (sc_leb x y) : scalar_scope.
Notation "x <? y" := (sc_ltb x y) : scalar_scope.

(** Truncation toward zero of the value [(-1)^s * m * 2^e]. *)
Definition SFtrunc (f : spec_float) : option Z :=
  match f with
  | S754_zero _ => Some 0%Z
  | S754_finite s m e =>
      Some (cond_Zopp s
              (match e with
               | Zneg p => Z.shiftr (Zpos m) (Zpos p)
               | _ => Z.shiftl (Zpos m) e
               end))
  | S754_infinity _ => None
  | S754_nan => None
  end.

(** IEEE-754 binary64: what the compiler gives a C++ [double]. *)
#[export] Instance double : Scalar float := {|
  sc_zero := PrimFloat.zero;
  sc_one := PrimFloat.one;
  sc_add := PrimFloat.add;
  sc_sub := PrimFloat.sub;
  sc_mul := PrimFloat.mul;
  sc_div := PrimFloat.div;
  sc_leb := PrimFloat.leb;
  sc_ltb := PrimFloat.ltb;
  sc_of_Z := fun z => SF2Prim (binary_normalize 53 1024 z 0 false);
  sc_trunc := fun x => SFtrunc (Prim2SF x)
|}.

(** IEEE-754 binary32: what the compiler gives a C++ [float]. *)
#[export] Instance single : Scalar spec_float := {|
  sc_zero := S754_zero false;
  sc_one := binary_normalize 24 128 1 0 false;
  sc_add := SFadd 24 128;
  sc_sub := SFsub 24 128;
  sc_mul := SFmul 24 128;
  sc_div := SFdiv 24 128;
  sc_leb := SFleb;
  sc_ltb := SFltb;
  sc_of_Z := fun z => binary_normalize 24 128 z 0 false;
  sc_trunc := SFtrunc
|}.

(** Idealised arithmetic: canonical rationals, no rounding. *)
Definition Qctrunc (x : Qc) : Z := Z.quot (Qnum x) (Zpos (Qden x)).

#[export] Instance exact : Scalar Qc := {|
  sc_zero := 0%Qc;
  sc_one := 1%Qc;
  sc_add := Qcplus;
  sc_sub := Qcminus;
  sc_mul := Qcmult;
  sc_div := Qcdiv;
  sc_leb := fun x y => Qle_bool x y;
  sc_ltb := fun x y => negb (Qle_bool y x);
  sc_of_Z := fun z => Q2Qc (inject_Z z);
  sc_trunc := fun x => Some (Qctrunc x)
|}.

(** ** Counts of nanoseconds

    [rclcpp::Time] and [rclcpp::Duration] hold a 64-bit count of nanoseconds.
    Where the source hands them a [double] (lines 290, 448, 488 and 692) the
    value is converted: its fraction is discarded, and the conversion is not
    defined for a value that is not finite or does not fit 64 bits.  The
    constructors belong to rclcpp and are not among the sources; the count
    is taken as signed (the comment of line 290 says [uint64_t]; the two
    agree on the values that are not negative). *)

Definition int64_min : Z := (- 2 ^ 63)%Z.
Definition int64_max : Z := (2 ^ 63 - 1)%Z.
Definition in_int64 (z : Z) : bool := (int64_min <=? z)%Z && (z <=? int64_max)%Z.

Definition to_int64 {F : Type} {scalar : Scalar F} (x : F) : option Z :=
  match sc_trunc x with
  | Some ns => if in_int64 ns then Some ns else None
  | None => None
  end.

(** ** Exceptions and state

    A computation over a state [S] ends normally with a value or throws a
    [std::exception] carrying its [what()] text; either way it leaves a
    state behind. *)

Inductive outcome (A : Type) : Type :=
| Ok (a : A)
| Throw (what : string).
Arguments Ok {A} a.
Arguments Throw {A} what.

Definition M (S A : Type) : Type := S -> outcome A * S.

Definition ret {S A} (a : A) : M S A := fun s => (Ok a, s).

Definition bind {S A B} (m : M S A) (k : A -> M S B) : M S B :=
  fun s =>
    match m s with
    | (Ok a, s') => k a s'
    | (Throw w, s') => (Throw w, s')
    end.

Definition throw {S A} (what : string) : M S A := fun s => (Throw what, s).

(** [try { body } catch (const std::exception& ex) { handler(ex.what()) }] *)
Definition try_catch {S A} (body : M S A) (handler : string -> M S A) : M S A :=
  fun s =>
    match body s with
    | (Ok a, s') => (Ok a, s')
    | (Throw w, s') => handler w s'
    end.

Definition modify {S} (f : S -> S) : M S unit := fun s => (Ok tt, f s).

Declare Scope monad_scope.
Delimit Scope monad_scope with monad.
Notation "x <- m ;; k" := (bind m (fun x => k))
  (at level 61, m at next level, right associativity) : monad_scope.
Notation "m ;; k" := (bind m (fun _ => k))
  (at level 61, right associativity) : monad_scope.

(** Running a list of computations one after the other; the first throw ends
    the run. *)
Fixpoint sequence_ {S A} (ms : list (M S A)) : M S unit :=
  match ms with
  | [] => ret tt
  | m :: ms' => (m ;; sequence_ ms')%monad
  end.

(** [std::to_string] of a [size_t]. *)
Definition to_string (n : nat) : string :=
  DecimalString.NilEmpty.string_of_uint (Nat.to_uint n).

(** ** SyncedImuPublisher (lines 11-67)

    The publisher that holds inertial messages back while a frame is being
    processed.  The wrapped ROS publisher is the list of the messages it was
    handed, oldest first; [std::queue] is a list whose head is the front. *)

Module SyncedImuPublisher.
Section Gate.
Variable Imu : Type.

Record t : Type := mk {
  _publisher : list Imu;
  _pause_mode : bool;
  _pending_messages : list Imu;
  _waiting_list_size : nat;
  _is_enabled : bool
}.

(** The constructor of lines 11-15; [_is_enabled] is the value the owner sets
    right after construction. *)
Definition create (waiting_list_size : nat) (is_enabled : bool) : t :=
  mk [] false [] waiting_list_size is_enabled.

Definition publish (imu_msg : Imu) (s : t) : t :=
  mk (_publisher s ++ [imu_msg]) (_pause_mode s) (_pending_messages s)
     (_waiting_list_size s) (_is_enabled s).

Definition push (imu_msg : Imu) (s : t) : t :=
  mk (_publisher s) (_pause_mode s) (_pending_messages s ++ [imu_msg])
     (_waiting_list_size s) (_is_enabled s).

Definition set_pause_mode (b : bool) (s : t) : t :=
  mk (_publisher s) b (_pending_messages s) (_waiting_list_size s) (_is_enabled s).

Definition Publish (imu_msg : Imu) : M t unit :=
  fun s =>
    if _pause_mode s then
      if (_waiting_list_size s <=? length (_pending_messages s))%nat then
        throw ("SyncedImuPublisher inner list reached maximum size of "
                 ++ to_string (length (_pending_messages s))) s
      else (Ok tt, push imu_msg s)
    else (Ok tt, publish imu_msg s).

Definition Pause (s : t) : t :=
  if negb (_is_enabled s) then s else set_pause_mode true s.

(** The loop of lines 56-61: publish the front, pop it, until the queue is
    empty. *)
Fixpoint drain (pending published : list Imu) : list Imu :=
  match pending with
  | [] => published
  | imu_msg :: rest => drain rest (published ++ [imu_msg])
  end.

Definition PublishPendingMessages (s : t) : t :=
  mk (drain (_pending_messages s) (_publisher s)) (_pause_mode s) []
     (_waiting_list_size s) (_is_enabled s).

Definition Resume (s : t) : t :=
  set_pause_mode false (PublishPendingMessages s).

Definition PublishAll (msgs : list Imu) : M t unit :=
  sequence_ (map Publish msgs).

(** *** Properties *)

Lemma drain_app (pending published : list Imu) :
  drain pending published = published ++ pending.
Proof.
  revert published.
  induction pending as [|m rest IH]; intro published; simpl.
  - now rewrite app_nil_r.
  - rewrite IH, <- app_assoc. reflexivity.
Qed.

Lemma Resume_eq (s : t) :
  Resume s =
  mk (_publisher s ++ _pending_messages s) false [] (_waiting_list_size s)
     (_is_enabled s).
Proof. unfold Resume, PublishPendingMessages, set_pause_mode; simpl. now rewrite drain_app. Qed.

(** While paused and below capacity a message is appended to the queue and
    nothing reaches the publisher. *)
Lemma Publish_paused_room (s : t) (imu_msg : Imu) :
  _pause_mode s = true ->
  (length (_pending_messages s) < _waiting_list_size s)%nat ->
  Publish imu_msg s = (Ok tt, push imu_msg s).
Proof.
  intros Hp Hroom. unfold Publish. rewrite Hp.
  destruct (Nat.leb_spec (_waiting_list_size s) (length (_pending_messages s))) as [Hle|Hlt].
  - lia.
  - reflexivity.
Qed.

Lemma Publish_paused_full (s : t) (imu_msg : Imu) :
  _pause_mode s = true ->
  (_waiting_list_size s <= length (_pending_messages s))%nat ->
  Publish imu_msg s =
  (Throw ("SyncedImuPublisher inner list reached maximum size of "
            ++ to_string (length (_pending_messages s))), s).
Proof.
  intros Hp Hfull. unfold Publish, throw. rewrite Hp.
  destruct (Nat.leb_spec (_waiting_list_size s) (length (_pending_messages s))) as [Hle|Hlt].
  - reflexivity.
  - lia.
Qed.

Lemma Publish_flowing (s : t) (imu_msg : Imu) :
  _pause_mode s = false -> Publish imu_msg s = (Ok tt, publish imu_msg s).
Proof. intro Hp. unfold Publish. now rewrite Hp. Qed.

(** A run of [Publish] calls that fits in the queue enqueues every message in
    order. *)
Lemma PublishAll_paused (msgs : list Imu) :
  forall s,
    _pause_mode s = true ->
    (length (_pending_messages s) + length msgs <= _waiting_list_size s)%nat ->
    PublishAll msgs s =
    (Ok tt, mk (_publisher s) true (_pending_messages s ++ msgs)
               (_waiting_list_size s) (_is_enabled s)).
Proof.
  induction msgs as [|m msgs IH]; intros s Hp Hlen.
  - unfold PublishAll; simpl. unfold ret. rewrite app_nil_r.
    destruct s; simpl in *; subst; reflexivity.
  - unfold PublishAll in *. simpl in *. unfold bind at 1.
    rewrite Publish_paused_room by (trivial; lia).
    rewrite IH.
    + unfold push; simpl. now rewrite <- app_assoc.
    + exact Hp.
    + unfold push; simpl. rewrite length_app; simpl. lia.
Qed.

(** C2.  BackpressureGate ordering and capacity.  Take a paused gate with an
    empty queue and [N] messages, [N] being the capacity.  The [N] [Publish]
    calls all return normally and only fill the queue, nothing reaches the
    publisher; a further [Publish] while still paused throws and neither
    enqueues nor drops; [Resume] hands exactly those [N] messages to the
    publisher in submission order, empties the queue and leaves the gate
    flowing, so that a message submitted afterwards is published directly,
    behind them. *)
Theorem paused_publishes_flush_in_order
  (s : t) (msgs : list Imu) (extra late : Imu) :
  _pause_mode s = true ->
  _pending_messages s = [] ->
  length msgs = _waiting_list_size s ->
  exists s1,
    PublishAll msgs s = (Ok tt, s1) /\
    _publisher s1 = _publisher s /\
    _pending_messages s1 = msgs /\
    _pause_mode s1 = true /\
    (exists what, Publish extra s1 = (Throw what, s1)) /\
    _publisher (Resume s1) = _publisher s ++ msgs /\
    _pending_messages (Resume s1) = [] /\
    _pause_mode (Resume s1) = false /\
    exists s3,
      Publish late (Resume s1) = (Ok tt, s3) /\
      _publisher s3 = _publisher s ++ msgs ++ [late] /\
      _pending_messages s3 = [].
Proof.
  intros Hp Hq Hn.
  eexists. split.
  { apply PublishAll_paused; [exact Hp | rewrite Hq; simpl; lia]. }
  rewrite Hq, !Resume_eq; simpl.
  repeat split.
  - eexists. apply Publish_paused_full; simpl; [reflexivity | lia].
  - eexists. split; [apply Publish_flowing; reflexivity|].
    simpl. now rewrite <- app_assoc.
Qed.

(** C9.  Overflow atomicity.  A [Publish] on a paused gate whose queue already
    holds the maximum number of messages throws, and the state it leaves is
    the state it found: same queue, same order, still paused, nothing
    published. *)
Theorem Publish_overflow_keeps_state (s : t) (imu_msg : Imu) :
  _pause_mode s = true ->
  _waiting_list_size s <= length (_pending_messages s) ->
  exists what,
    Publish imu_msg s = (Throw what, s) /\
    _pending_messages (snd (Publish imu_msg s)) = _pending_messages s /\
    _pause_mode (snd (Publish imu_msg s)) = true /\
    _publisher (snd (Publish imu_msg s)) = _publisher s.
Proof.
  intros Hp Hfull.
  rewrite (Publish_paused_full s imu_msg Hp Hfull); simpl.
  eexists; repeat split. exact Hp.
Qed.

End Gate.

Lemma paused_publishes_flush_in_order_witness :
  let s := mk [7] true [] 2 true in
  _publisher (Resume (snd (PublishAll [1; 2] s))) = [7; 1; 2] /\
  fst (Publish 3 (snd (PublishAll [1; 2] s))) <> Ok tt.
Proof.
  intro s.
  destruct (@paused_publishes_flush_in_order nat s [1; 2] 3 4
              eq_refl eq_refl eq_refl)
    as (s1 & Hrun & _ & _ & _ & (what & Hthrow) & Hres & _).
  rewrite Hrun; simpl. split.
  - exact Hres.
  - rewrite Hthrow; simpl. discriminate.
Defined.

Lemma Publish_overflow_keeps_state_witness :
  let s := mk [7] true [1; 2] 2 true in
  snd (Publish 3 s) = s.
Proof.
  intro s.
  destruct (@Publish_overflow_keeps_state nat s 3 eq_refl (le_n 2))
    as (what & Hthrow & _).
  rewrite Hthrow. reflexivity.
Defined.

End SyncedImuPublisher.

(** ** Stream identities

    [rs2_stream] and [rs2_format] are the enumerations of the device
    interface (the values this file needs). *)

Inductive rs2_stream : Type :=
| RS2_STREAM_ANY
| RS2_STREAM_DEPTH
| RS2_STREAM_COLOR
| RS2_STREAM_INFRARED
| RS2_STREAM_FISHEYE
| RS2_STREAM_GYRO
| RS2_STREAM_ACCEL
| RS2_STREAM_GPIO
| RS2_STREAM_POSE
| RS2_STREAM_CONFIDENCE.

Inductive rs2_format : Type :=
| RS2_FORMAT_ANY
| RS2_FORMAT_Z16
| RS2_FORMAT_DISPARITY16
| RS2_FORMAT_XYZ32F
| RS2_FORMAT_RGB8
| RS2_FORMAT_Y8
| RS2_FORMAT_MOTION_XYZ32F
| RS2_FORMAT_6DOF.

Definition rs2_stream_eqb (a b : rs2_stream) : bool :=
  match a, b with
  | RS2_STREAM_ANY, RS2_STREAM_ANY
  | RS2_STREAM_DEPTH, RS2_STREAM_DEPTH
  | RS2_STREAM_COLOR, RS2_STREAM_COLOR
  | RS2_STREAM_INFRARED, RS2_STREAM_INFRARED
  | RS2_STREAM_FISHEYE, RS2_STREAM_FISHEYE
  | RS2_STREAM_GYRO, RS2_STREAM_GYRO
  | RS2_STREAM_ACCEL, RS2_STREAM_ACCEL
  | RS2_STREAM_GPIO, RS2_STREAM_GPIO
  | RS2_STREAM_POSE, RS2_STREAM_POSE
  | RS2_STREAM_CONFIDENCE, RS2_STREAM_CONFIDENCE => true
  | _, _ => false
  end.

Definition rs2_format_eqb (a b : rs2_format) : bool :=
  match a, b with
  | RS2_FORMAT_ANY, RS2_FORMAT_ANY
  | RS2_FORMAT_Z16, RS2_FORMAT_Z16
  | RS2_FORMAT_DISPARITY16, RS2_FORMAT_DISPARITY16
  | RS2_FORMAT_XYZ32F, RS2_FORMAT_XYZ32F
  | RS2_FORMAT_RGB8, RS2_FORMAT_RGB8
  | RS2_FORMAT_Y8, RS2_FORMAT_Y8
  | RS2_FORMAT_MOTION_XYZ32F, RS2_FORMAT_MOTION_XYZ32F
  | RS2_FORMAT_6DOF, RS2_FORMAT_6DOF => true
  | _, _ => false
  end.

(** Modelled from the spec: [stream_index_pair] and the named identities
    [DEPTH], [COLOR], [GYRO], [ACCEL], [POSE] are declared in the header, which
    is not among the sources.  A stream identity is a (kind, index) pair; the
    named ones are the kind with index 0. *)
Definition stream_index_pair : Type := (rs2_stream * Z)%type.

Definition sip_eqb (a b : stream_index_pair) : bool :=
  rs2_stream_eqb (fst a) (fst b) && Z.eqb (snd a) (snd b).

Definition DEPTH : stream_index_pair := (RS2_STREAM_DEPTH, 0%Z).
Definition COLOR : stream_index_pair := (RS2_STREAM_COLOR, 0%Z).
Definition GYRO : stream_index_pair := (RS2_STREAM_GYRO, 0%Z).
Definition ACCEL : stream_index_pair := (RS2_STREAM_ACCEL, 0%Z).
Definition POSE : stream_index_pair := (RS2_STREAM_POSE, 0%Z).

Lemma rs2_stream_eqb_spec (a b : rs2_stream) :
  reflect (a = b) (rs2_stream_eqb a b).
Proof. destruct a, b; simpl; constructor; congruence. Qed.

Lemma sip_eqb_spec (a b : stream_index_pair) : reflect (a = b) (sip_eqb a b).
Proof.
  destruct a as [ka ia], b as [kb ib]; unfold sip_eqb; simpl.
  destruct (rs2_stream_eqb_spec ka kb) as [Hk|Hk]; simpl.
  - destruct (Z.eqb_spec ia ib) as [Hi|Hi]; constructor; congruence.
  - constructor; congruence.
Qed.

Lemma sip_eqb_refl (a : stream_index_pair) : sip_eqb a a = true.
Proof. now destruct (sip_eqb_spec a a). Qed.

Lemma sip_eqb_eq (a b : stream_index_pair) : sip_eqb a b = true <-> a = b.
Proof. destruct (sip_eqb_spec a b); split; congruence. Qed.

Lemma sip_eqb_neq (a b : stream_index_pair) : sip_eqb a b = false <-> a <> b.
Proof. destruct (sip_eqb_spec a b); split; congruence. Qed.

(** ** ImuSynchronizer (lines 287-366) *)

Module ImuSync.
Section Sync.
Context {F : Type} {scalar : Scalar F}.

(** [Eigen::Vector3d] *)
Record Vector3 : Type := vec3 { vx : F; vy : F; vz : F }.

(** [a * t] and [a + b] of Eigen, component by component. *)
Definition vscale (a : Vector3) (t : F) : Vector3 :=
  vec3 (vx a * t)%sc (vy a * t)%sc (vz a * t)%sc.

Definition vadd (a b : Vector3) : Vector3 :=
  vec3 (vx a + vx b)%sc (vy a + vy b)%sc (vz a + vz b)%sc.

Record CimuData : Type := mkCimuData {
  m_type : stream_index_pair;
  m_data : Vector3;
  m_time_ns : F
}.

(** Modelled from the spec: the default constructor of [CimuData] is in the
    header; it builds the unset sentinel, a sample stamped -1. *)
Definition CimuData_default : CimuData :=
  mkCimuData (RS2_STREAM_ANY, 0%Z) (vec3 sc_zero sc_zero sc_zero)
             (sc_of_Z (-1)).

(** [CimuData::is_set] is declared in the header as well; the synchroniser is
    kept generic in it. *)
Variable is_set : CimuData -> bool.

(** [sensor_msgs::msg::Imu], the fields the synchroniser fills.  [stamp] is
    the count of nanoseconds of the [rclcpp::Time] of line 290, [None] where
    the conversion of the [double] is not defined. *)
Record Imu : Type := mkImu {
  stamp : option Z;
  angular_velocity : Vector3;
  linear_acceleration : Vector3
}.

(** Lines 287-301: [rclcpp::Time t(gyro_data.m_time_ns)] converts the
    [double] to the constructor's [int64_t]. *)
Definition CreateUnitedMessage (accel_data gyro_data : CimuData) : Imu :=
  mkImu (to_int64 (m_time_ns gyro_data)) (m_data gyro_data) (m_data accel_data).

Definition lerp (a b : Vector3) (t : F) : Vector3 :=
  vadd (vscale a (sc_one - t)%sc) (vscale b t).

(** The reading emitted for the gyro sample [crnt_gyro] between [accel0] and
    [accel1] (lines 337-339). *)
Definition interpolated (accel0 accel1 crnt_gyro : CimuData) : Imu :=
  let dt := (m_time_ns accel1 - m_time_ns accel0)%sc in
  let alpha := ((m_time_ns crnt_gyro - m_time_ns accel0) / dt)%sc in
  let crnt_accel :=
    mkCimuData ACCEL (lerp (m_data accel0) (m_data accel1) alpha)
               (m_time_ns crnt_gyro) in
  CreateUnitedMessage crnt_accel crnt_gyro.

(** The inner loop of lines 333-340. *)
Fixpoint flush_gyros (accel0 accel1 : CimuData) (gyros_data : list CimuData)
  (imu_msgs : list Imu) : list Imu :=
  match gyros_data with
  | [] => imu_msgs
  | crnt_gyro :: rest =>
      flush_gyros accel0 accel1 rest
        (imu_msgs ++ [interpolated accel0 accel1 crnt_gyro])
  end.

(** The locals of lines 317-318 together with the output list. *)
Record locals : Type := mkLocals {
  gyros_data : list CimuData;
  accel0 : CimuData;
  accel1 : CimuData;
  crnt_imu : CimuData;
  imu_msgs : list Imu
}.

Definition locals_init : locals :=
  mkLocals [] CimuData_default CimuData_default CimuData_default [].

(** One turn of the loop of lines 320-347, [front] being the sample popped
    from the history. *)
Definition step (l : locals) (front : CimuData) : locals :=
  if negb (is_set (accel0 l)) && sip_eqb (m_type front) ACCEL then
    mkLocals (gyros_data l) front (accel1 l) front (imu_msgs l)
  else if is_set (accel0 l) && sip_eqb (m_type front) ACCEL then
    mkLocals [] front front front
             (flush_gyros (accel0 l) front (gyros_data l) (imu_msgs l))
  else if is_set (accel0 l)
          && (m_time_ns (accel0 l) <=? m_time_ns front)%sc
          && sip_eqb (m_type front) GYRO then
    mkLocals (gyros_data l ++ [front]) (accel0 l) (accel1 l) front (imu_msgs l)
  else
    mkLocals (gyros_data l) (accel0 l) (accel1 l) front (imu_msgs l).

Definition drain_history (history : list CimuData) : locals :=
  fold_left step history locals_init.

(** [FillImuData_LinearInterpolation]: the function-local static
    [_imu_history] is the second argument and the second result; the first
    result is the content of [imu_msgs] on return. *)
Definition FillImuData_LinearInterpolation
  (imu_data : CimuData) (_imu_history : list CimuData)
  : list Imu * list CimuData :=
  let history := _imu_history ++ [imu_data] in
  if negb (sip_eqb (m_type imu_data) ACCEL) || (length history <? 3) then
    ([], history)
  else
    let l := drain_history history in
    (imu_msgs l, [crnt_imu l]).

(** [FillImuData_Copy]: the static [_accel_data] is threaded the same way; it
    starts as [mkCimuData ACCEL (vec3 0 0 0) (-1)]. *)
Definition FillImuData_Copy (imu_data _accel_data : CimuData)
  : list Imu * CimuData :=
  if sip_eqb ACCEL (m_type imu_data) then ([], imu_data)
  else if negb (is_set _accel_data) then ([], _accel_data)
  else ([CreateUnitedMessage _accel_data imu_data], _accel_data).

(** *** The drain loop *)

Lemma flush_gyros_eq (a0 a1 : CimuData) (gyros : list CimuData) :
  forall msgs,
    flush_gyros a0 a1 gyros msgs = msgs ++ map (interpolated a0 a1) gyros.
Proof.
  induction gyros as [|g rest IH]; intro msgs; simpl.
  - now rewrite app_nil_r.
  - rewrite IH, <- app_assoc. reflexivity.
Qed.

(** Gyro samples are only ever queued behind an accelerometer sample that
    counts as set. *)
Definition queue_guarded (l : locals) : Prop :=
  is_set (accel0 l) = false -> gyros_data l = [].

Lemma step_guarded (l : locals) (front : CimuData) :
  queue_guarded l -> queue_guarded (step l front).
Proof.
  unfold queue_guarded, step; intro Hl.
  destruct (is_set (accel0 l)) eqn:Hset; simpl.
  - destruct (sip_eqb (m_type front) ACCEL); simpl; [reflexivity|].
    destruct ((m_time_ns (accel0 l) <=? m_time_ns front)%sc
              && sip_eqb (m_type front) GYRO); simpl; congruence.
  - destruct (sip_eqb (m_type front) ACCEL); simpl; intros _; now apply Hl.
Qed.

Lemma fold_guarded (xs : list CimuData) :
  forall l, queue_guarded l -> queue_guarded (fold_left step xs l).
Proof.
  induction xs as [|x xs IH]; intros l Hl; simpl; [exact Hl|].
  apply IH, step_guarded, Hl.
Qed.

Lemma locals_init_guarded : queue_guarded locals_init.
Proof. intros _. reflexivity. Qed.

(** The output list only grows. *)
Lemma step_msgs_grow (l : locals) (front : CimuData) :
  exists more, imu_msgs (step l front) = imu_msgs l ++ more.
Proof.
  unfold step.
  destruct (negb (is_set (accel0 l)) && sip_eqb (m_type front) ACCEL);
    [exists []; simpl; now rewrite app_nil_r|].
  destruct (is_set (accel0 l) && sip_eqb (m_type front) ACCEL).
  - simpl. rewrite flush_gyros_eq. eexists; reflexivity.
  - destruct (is_set (accel0 l)
              && (m_time_ns (accel0 l) <=? m_time_ns front)%sc
              && sip_eqb (m_type front) GYRO);
      exists []; simpl; now rewrite app_nil_r.
Qed.

Lemma fold_msgs_grow (xs : list CimuData) :
  forall l, exists more, imu_msgs (fold_left step xs l) = imu_msgs l ++ more.
Proof.
  induction xs as [|x xs IH]; intro l; simpl.
  - exists []. now rewrite app_nil_r.
  - destruct (IH (step l x)) as [m2 H2].
    destruct (step_msgs_grow l x) as [m1 H1].
    exists (m1 ++ m2). now rewrite H2, H1, app_assoc.
Qed.

(** After an accelerometer sample has been popped it is [accel0] and no gyro
    sample is queued. *)
Lemma step_accel (l : locals) (a : CimuData) :
  queue_guarded l -> m_type a = ACCEL ->
  accel0 (step l a) = a /\ gyros_data (step l a) = [].
Proof.
  intros Hl Ha. unfold step. rewrite Ha, sip_eqb_refl, !andb_true_r.
  destruct (is_set (accel0 l)) eqn:Hset; simpl.
  - split; reflexivity.
  - split; [reflexivity | now apply Hl].
Qed.

(** A run of gyro samples behind a set [accel0]: those stamped at or after
    it are queued in arrival order, nothing else changes. *)
Lemma fold_gyros (gs : list CimuData) :
  forall l,
    is_set (accel0 l) = true ->
    Forall (fun g => m_type g = GYRO) gs ->
    let l' := fold_left step gs l in
    accel0 l' = accel0 l /\
    imu_msgs l' = imu_msgs l /\
    gyros_data l' =
    gyros_data l
      ++ filter (fun g => (m_time_ns (accel0 l) <=? m_time_ns g)%sc) gs.
Proof.
  induction gs as [|g gs IH]; intros l Hset Hgs; simpl.
  - now rewrite app_nil_r.
  - inversion Hgs as [|? ? Hg Hgs']; subst.
    assert (Hstep : step l g =
              if (m_time_ns (accel0 l) <=? m_time_ns g)%sc
              then mkLocals (gyros_data l ++ [g]) (accel0 l) (accel1 l) g (imu_msgs l)
              else mkLocals (gyros_data l) (accel0 l) (accel1 l) g (imu_msgs l)).
    { unfold step. rewrite Hset, Hg. simpl.
      now destruct (m_time_ns (accel0 l) <=? m_time_ns g)%sc. }
    rewrite Hstep.
    destruct (m_time_ns (accel0 l) <=? m_time_ns g)%sc eqn:Hle.
    + destruct (IH (mkLocals (gyros_data l ++ [g]) (accel0 l) (accel1 l) g
                      (imu_msgs l)) Hset Hgs') as (H0 & Hm & Hq).
      simpl in *. rewrite H0, Hm, Hq, <- app_assoc. repeat split.
    + destruct (IH (mkLocals (gyros_data l) (accel0 l) (accel1 l) g
                      (imu_msgs l)) Hset Hgs') as (H0 & Hm & Hq).
      simpl in *. rewrite H0, Hm, Hq. repeat split.
Qed.

(** The second accelerometer sample flushes the queue, one interpolated
    reading per queued gyro sample. *)
Lemma step_accel_flush (l : locals) (a1 : CimuData) :
  is_set (accel0 l) = true -> m_type a1 = ACCEL ->
  imu_msgs (step l a1) =
  imu_msgs l ++ map (interpolated (accel0 l) a1) (gyros_data l).
Proof.
  intros Hset Ha. unfold step. rewrite Hset, Ha, sip_eqb_refl. simpl.
  apply flush_gyros_eq.
Qed.

Lemma step_crnt_imu (l : locals) (front : CimuData) :
  crnt_imu (step l front) = front.
Proof.
  unfold step.
  repeat match goal with |- context [if ?b then _ else _] => destruct b end;
    reflexivity.
Qed.

Lemma fold_crnt_imu (xs : list CimuData) (x : CimuData) (l : locals) :
  crnt_imu (fold_left step (xs ++ [x]) l) = x.
Proof. rewrite fold_left_app. simpl. apply step_crnt_imu. Qed.

(** Two consecutive accelerometer samples anywhere in the drained history,
    with only gyro samples between them. *)
Lemma drain_segment (front_part gs back_part : list CimuData) (a0 a1 : CimuData) :
  m_type a0 = ACCEL -> m_type a1 = ACCEL ->
  Forall (fun g => m_type g = GYRO) gs ->
  is_set a0 = true ->
  exists before after,
    imu_msgs (drain_history (front_part ++ a0 :: gs ++ a1 :: back_part)) =
    before
      ++ map (interpolated a0 a1)
           (filter (fun g => (m_time_ns a0 <=? m_time_ns g)%sc) gs)
      ++ after.
Proof.
  intros Ha0 Ha1 Hgs Hset. unfold drain_history.
  rewrite fold_left_app. simpl. rewrite fold_left_app. simpl.
  set (l0 := fold_left step front_part locals_init).
  assert (Hg0 : queue_guarded l0) by apply fold_guarded, locals_init_guarded.
  destruct (@step_accel l0 a0 Hg0 Ha0) as [Hacc Hq].
  set (l1 := step l0 a0) in *.
  assert (Hset1 : is_set (accel0 l1) = true) by now rewrite Hacc.
  destruct (@fold_gyros gs l1 Hset1 Hgs) as (H0 & Hm & Hqs).
  set (l2 := fold_left step gs l1) in *.
  assert (Hset2 : is_set (accel0 l2) = true) by now rewrite H0.
  pose proof (@step_accel_flush l2 a1 Hset2 Ha1) as Hflush.
  destruct (fold_msgs_grow back_part (step l2 a1)) as [after Hafter].
  exists (imu_msgs l1), after.
  rewrite Hafter, Hflush, Hm, Hqs, Hq, H0, Hacc. simpl.
  now rewrite <- app_assoc.
Qed.

End Sync.

Arguments CimuData F : clear implicits.
Arguments Vector3 F : clear implicits.
Arguments Imu F : clear implicits.

(** C10.  History invariant of the linear-interpolation policy.  A sample
    that is not an accelerometer sample, a gyro sample in particular,
    returns no message and only appends the sample to the history.  A
    draining call, an accelerometer arrival that brings the history to three
    samples or more, leaves a history of exactly one element, the sample that
    triggered the call. *)
Theorem linear_interpolation_history
  (F : Type) (scalar : Scalar F) (is_set : CimuData F -> bool)
  (imu_data : CimuData F) (history : list (CimuData F)) :
  (m_type imu_data = GYRO ->
   FillImuData_LinearInterpolation is_set imu_data history =
   ([], history ++ [imu_data]))
  /\
  (m_type imu_data = ACCEL ->
   3 <= length (history ++ [imu_data]) ->
   snd (FillImuData_LinearInterpolation is_set imu_data history) = [imu_data]).
Proof.
  unfold FillImuData_LinearInterpolation. split.
  - intro Hg. rewrite Hg. reflexivity.
  - intros Ha Hlen. rewrite Ha, sip_eqb_refl. simpl negb. rewrite orb_false_l.
    destruct (Nat.ltb_spec (length (history ++ [imu_data])) 3) as [Hlt|_];
      [lia|].
    simpl snd. unfold drain_history. now rewrite fold_crnt_imu.
Qed.

(** [CimuData::is_set] is in the header.  Two readings of it for the
    examples: a sample counts as set when its time is not negative, or when
    its time is positive.  Both reject the sentinel stamped -1. *)
Definition is_set_nonneg (d : CimuData float) : bool :=
  (0 <=? m_time_ns d)%float.

Definition is_set_positive (d : CimuData float) : bool :=
  (0 <? m_time_ns d)%float.

Lemma linear_interpolation_history_witness :
  snd (FillImuData_LinearInterpolation is_set_nonneg
         (mkCimuData ACCEL (vec3 10 10 10)%float 10%float)
         [mkCimuData ACCEL (vec3 0 0 0)%float 0%float;
          mkCimuData GYRO (vec3 1 2 3)%float 5%float]) =
  [mkCimuData ACCEL (vec3 10 10 10)%float 10%float].
Proof.
  apply (proj2 (@linear_interpolation_history float double is_set_nonneg
                  (mkCimuData ACCEL (vec3 10 10 10)%float 10%float)
                  [mkCimuData ACCEL (vec3 0 0 0)%float 0%float;
                   mkCimuData GYRO (vec3 1 2 3)%float 5%float])).
  - reflexivity.
  - simpl. lia.
Defined.

(** An accelerometer sample stamped exactly 0 is where the two readings of
    [is_set] part: with accelerometer samples (0,0,0) at 0 and (10,10,10) at
    10 and a gyro sample at 5 between them, the first gives one reading with
    the acceleration (5,5,5), the second gives no reading at all. *)
Lemma sample_at_zero_depends_on_is_set :
  let accel_t0 := mkCimuData ACCEL (vec3 0 0 0)%float 0%float in
  let gyro_t5 := mkCimuData GYRO (vec3 1 2 3)%float 5%float in
  let accel_t10 := mkCimuData ACCEL (vec3 10 10 10)%float 10%float in
  FillImuData_LinearInterpolation is_set_nonneg accel_t10 [accel_t0; gyro_t5] =
  ([mkImu (Some 5%Z) (vec3 1 2 3)%float (vec3 5 5 5)%float], [accel_t10]) /\
  FillImuData_LinearInterpolation is_set_positive accel_t10 [accel_t0; gyro_t5] =
  ([], [accel_t10]).
Proof. split; reflexivity. Qed.

End ImuSync.

(** ** Rounding to nearest, ties to even

    What the operations of the executable specification of IEEE-754
    arithmetic compute, as facts about the real values of their arguments and
    results. *)

Module Rounding.
Import Stdlib.Reals.Reals Stdlib.micromega.Lra.
Local Open Scope Z_scope.

(** *** Powers of two *)

Definition bpow (e : Z) : R := powerRZ 2 e.

Lemma bpow_gt_0 (e : Z) : (0 < bpow e)%R.
Proof. apply powerRZ_lt. lra. Qed.

Lemma bpow_add (a b : Z) : bpow (a + b) = (bpow a * bpow b)%R.
Proof. apply powerRZ_add. lra. Qed.

Lemma bpow_IZR (k : Z) : 0 <= k -> bpow k = IZR (2 ^ k).
Proof.
  intro Hk. unfold bpow. destruct k as [|p|p]; [reflexivity | | lia].
  symmetry. exact (Zpower_pos_powerRZ 2 p).
Qed.

Lemma bpow_ge_1 (k : Z) : 0 <= k -> (1 <= bpow k)%R.
Proof.
  intro Hk. rewrite (bpow_IZR Hk). apply IZR_le.
  assert (0 < 2 ^ k) by (apply Z.pow_pos_nonneg; lia). lia.
Qed.

Lemma bpow_le (a b : Z) : a <= b -> (bpow a <= bpow b)%R.
Proof.
  intro H. replace b with (a + (b - a)) by lia. rewrite bpow_add.
  pose proof (bpow_gt_0 a). pose proof (@bpow_ge_1 (b - a) ltac:(lia)). nra.
Qed.

Lemma bpow_lt (a b : Z) : a < b -> (bpow a < bpow b)%R.
Proof.
  intro H. replace b with (a + 1 + (b - a - 1)) by lia. rewrite !bpow_add.
  pose proof (bpow_gt_0 a). pose proof (@bpow_ge_1 (b - a - 1) ltac:(lia)).
  assert (Hb1 : bpow 1 = 2%R) by (unfold bpow; simpl; lra).
  rewrite Hb1. nra.
Qed.

Lemma bpow_lt_inv (a b : Z) : (bpow a < bpow b)%R -> a < b.
Proof.
  intro H. destruct (Z.lt_ge_cases a b) as [Hlt|Hge]; [exact Hlt|].
  pose proof (bpow_le Hge). lra.
Qed.

Lemma bpow_opp (a : Z) : (bpow a * bpow (- a) = 1)%R.
Proof. rewrite <- bpow_add. replace (a + - a) with 0 by lia. reflexivity. Qed.

(** *** The number of binary digits *)

Lemma digits2_pos_bounds (p : positive) :
  2 ^ (Zpos (digits2_pos p) - 1) <= Zpos p < 2 ^ (Zpos (digits2_pos p)).
Proof.
  induction p as [p IH|p IH|]; cbn [digits2_pos].
  - rewrite Pos2Z.inj_succ, (Pos2Z.inj_xI p).
    replace (Z.succ (Zpos (digits2_pos p)) - 1)
      with (Z.succ (Zpos (digits2_pos p) - 1)) by lia.
    rewrite !Z.pow_succ_r by lia. lia.
  - rewrite Pos2Z.inj_succ, (Pos2Z.inj_xO p).
    replace (Z.succ (Zpos (digits2_pos p)) - 1)
      with (Z.succ (Zpos (digits2_pos p) - 1)) by lia.
    rewrite !Z.pow_succ_r by lia. lia.
  - simpl. lia.
Qed.

Lemma digits_unique (z d : Z) :
  0 < d -> 2 ^ (d - 1) <= z < 2 ^ d -> Zdigits2 z = d.
Proof.
  intros Hd [Hlo Hhi].
  assert (Hz : 0 < z).
  { assert (0 < 2 ^ (d - 1)) by (apply Z.pow_pos_nonneg; lia). lia. }
  destruct z as [|p|p]; try lia. cbn [Zdigits2].
  pose proof (digits2_pos_bounds p) as [Blo Bhi].
  set (d' := Zpos (digits2_pos p)) in *.
  assert (d' - 1 < d).
  { apply (Z.pow_lt_mono_r_iff 2); lia. }
  assert (d - 1 < d').
  { apply (Z.pow_lt_mono_r_iff 2); lia. }
  lia.
Qed.

Lemma Zdigits2_bounds (z : Z) :
  0 < z -> 0 < Zdigits2 z /\ 2 ^ (Zdigits2 z - 1) <= z < 2 ^ Zdigits2 z.
Proof.
  intro Hz. destruct z as [|p|p]; try lia. cbn [Zdigits2].
  split; [lia | apply digits2_pos_bounds].
Qed.

(** *** Round to nearest, ties to even, of a real number to an integer *)

Definition RNE (x : R) (q' : Z) : Prop :=
  exists q : Z,
    (IZR q <= x < IZR q + 1)%R /\
    (((x - IZR q < 1 / 2)%R /\ q' = q) \/
     ((x - IZR q > 1 / 2)%R /\ q' = q + 1) \/
     ((x - IZR q = 1 / 2)%R /\ q' = if Z.even q then q else q + 1)).

Lemma floor_unique (x : R) (a b : Z) :
  (IZR a <= x < IZR a + 1)%R -> (IZR b <= x < IZR b + 1)%R -> a = b.
Proof.
  intros [Ha1 Ha2] [Hb1 Hb2].
  assert (a < b + 1) by (apply lt_IZR; rewrite plus_IZR; lra).
  assert (b < a + 1) by (apply lt_IZR; rewrite plus_IZR; lra).
  lia.
Qed.

Lemma RNE_mono (x y : R) (a b : Z) :
  (x <= y)%R -> RNE x a -> RNE y b -> a <= b.
Proof.
  intros Hxy [p [Hp Ha]] [q [Hq Hb]].
  assert (Hpq : p <= q).
  { assert (p < q + 1) by (apply lt_IZR; rewrite plus_IZR; lra). lia. }
  destruct (Z.eq_dec p q) as [E|NE].
  - subst q.
    destruct Ha as [[Ha1 Ha2]|[[Ha1 Ha2]|[Ha1 Ha2]]];
      destruct Hb as [[Hb1 Hb2]|[[Hb1 Hb2]|[Hb1 Hb2]]];
      subst; try lia; try lra; destruct (Z.even p); lia.
  - assert (a <= p + 1).
    { destruct Ha as [[_ Ha]|[[_ Ha]|[_ Ha]]]; subst; try lia.
      destruct (Z.even p); lia. }
    assert (q <= b).
    { destruct Hb as [[_ Hb]|[[_ Hb]|[_ Hb]]]; subst; try lia.
      destruct (Z.even q); lia. }
    lia.
Qed.

Lemma RNE_ge (x : R) (q' g : Z) : RNE x q' -> (IZR g <= x)%R -> g <= q'.
Proof.
  intros [q [Hq Hq']] Hg.
  assert (g < q + 1) by (apply lt_IZR; rewrite plus_IZR; lra).
  destruct Hq' as [[_ H']|[[_ H']|[_ H']]]; subst; try lia.
  destruct (Z.even q); lia.
Qed.

Lemma RNE_le (x : R) (q' g : Z) : RNE x q' -> (x <= IZR g)%R -> q' <= g.
Proof.
  intros [q [Hq Hq']] Hg.
  assert (Hqg : q <= g) by (apply le_IZR; lra).
  destruct (Z.eq_dec q g) as [E|NE].
  - subst g. assert (x = IZR q) by lra.
    destruct Hq' as [[_ H']|[[H1 H']|[H1 H']]]; subst; try lia; lra.
  - destruct Hq' as [[_ H']|[[_ H']|[_ H']]]; subst; try lia.
    destruct (Z.even q); lia.
Qed.

Lemma RNE_exact (q q' : Z) : RNE (IZR q) q' -> q' = q.
Proof.
  intro H. pose proof (@RNE_ge _ _ q H ltac:(lra)).
  pose proof (@RNE_le _ _ q H ltac:(lra)). lia.
Qed.

(** *** Shifting a mantissa to the right *)

Lemma iter_pos_inv {A : Type} (f : A -> A) (P : Z -> A -> Prop) :
  (forall k y, 0 <= k -> P k y -> P (k + 1) (f y)) ->
  forall (p : positive) (k : Z) (x : A),
    0 <= k -> P k x -> P (k + Zpos p) (SpecFloat.iter_pos f p x).
Proof.
  intro Hstep. induction p as [p IH|p IH|]; intros k x Hk Hx; cbn [SpecFloat.iter_pos].
  - replace (k + Zpos p~1) with (k + 1 + Zpos p + Zpos p) by lia.
    apply IH; [lia|]. apply IH; [lia|]. now apply Hstep.
  - replace (k + Zpos p~0) with (k + Zpos p + Zpos p) by lia.
    apply IH; [lia|]. now apply IH.
  - now apply Hstep.
Qed.

Lemma shr_1_nonneg (m : Z) (r s : bool) :
  0 <= m ->
  shr_1 (Build_shr_record m r s) =
  Build_shr_record (Z.div2 m) (Z.odd m) (r || s).
Proof. destruct m as [|[p|p|]|p]; try lia; reflexivity. Qed.

(** What the record holds after [k] shifts of the exact mantissa [m]: the
    quotient by [2^k], and where the remainder lies. *)
Definition shifted (m k : Z) (mrs : shr_record) : Prop :=
  exists rem : Z,
    0 <= shr_m mrs /\
    m = shr_m mrs * 2 ^ k + rem /\
    0 <= rem < 2 ^ k /\
    loc_of_shr_record mrs =
    if rem =? 0 then loc_Exact else loc_Inexact (2 * rem ?= 2 ^ k).

Lemma shifted_step (m k : Z) (mrs : shr_record) :
  0 <= k -> shifted m k mrs -> shifted m (k + 1) (shr_1 mrs).
Proof.
  intros Hk [rem (Hq & Hm & Hrem & Hloc)].
  destruct mrs as [q r s]. cbn [shr_m] in *.
  rewrite (shr_1_nonneg r s Hq).
  pose proof (Z.div2_odd q) as Hdiv.
  assert (Hpow : 2 ^ (k + 1) = 2 * 2 ^ k) by (rewrite Z.pow_add_r by lia; lia).
  assert (Hq2 : 0 <= Z.div2 q) by (rewrite Z.div2_div; apply Z.div_pos; lia).
  assert (Hs : r || s = negb (rem =? 0)).
  { destruct (Z.eqb_spec rem 0) as [E|NE]; destruct r, s; simpl in *;
      congruence. }
  set (P := 2 ^ k) in *.
  exists (rem + Z.b2z (Z.odd q) * P). cbn [shr_m]. rewrite Hpow, Hs.
  destruct (Z.odd q); cbn [Z.b2z] in *.
  - repeat split; try lia.
    destruct (Z.eqb_spec rem 0) as [E|NE]; cbn [negb loc_of_shr_record].
    + subst rem. destruct (Z.eqb_spec (0 + 1 * P) 0); [lia|].
      f_equal. symmetry. apply Z.compare_eq_iff. lia.
    + destruct (Z.eqb_spec (rem + 1 * P) 0); [lia|].
      f_equal. symmetry. apply Z.compare_gt_iff. lia.
  - repeat split; try lia.
    destruct (Z.eqb_spec rem 0) as [E|NE]; cbn [negb loc_of_shr_record].
    + subst rem. destruct (Z.eqb_spec (0 + 0 * P) 0); [reflexivity | lia].
    + destruct (Z.eqb_spec (rem + 0 * P) 0); [lia|].
      f_equal. symmetry. apply Z.compare_lt_iff. lia.
Qed.

Lemma shr_shifted (m e n : Z) :
  0 <= m -> 0 <= n ->
  exists mrs,
    shr (Build_shr_record m false false) e n = (mrs, e + n) /\
    shifted m n mrs.
Proof.
  intros Hm Hn.
  assert (H0 : shifted m 0 (Build_shr_record m false false)).
  { exists 0. cbn. repeat split; lia. }
  destruct n as [|p|p]; [| |lia]; cbn [shr].
  - exists (Build_shr_record m false false). split; [f_equal; lia | exact H0].
  - eexists. split; [reflexivity|].
    exact (@iter_pos_inv _ shr_1 (shifted m)
             (fun k y Hk => @shifted_step m k y Hk) p 0 _ (Z.le_refl 0) H0).
Qed.

Lemma shifted_RNE (m n : Z) (mrs : shr_record) :
  0 <= n -> shifted m n mrs ->
  RNE (IZR m / IZR (2 ^ n))
      (round_nearest_even (shr_m mrs) (loc_of_shr_record mrs)).
Proof.
  intros Hn [rem (Hq & Hm & Hrem & Hloc)]. rewrite Hloc.
  set (q := shr_m mrs) in *. set (P := 2 ^ n) in *.
  assert (HP : (0 < IZR P)%R) by (apply IZR_lt; lia).
  assert (Hx : (IZR m / IZR P = IZR q + IZR rem / IZR P)%R).
  { rewrite Hm, plus_IZR, mult_IZR. field. lra. }
  assert (Hr0 : (0 <= IZR rem)%R) by (apply IZR_le; lia).
  assert (Hr1 : (IZR rem < IZR P)%R) by (apply IZR_lt; lia).
  set (f := (IZR rem / IZR P)%R) in *.
  assert (Hf : (f * IZR P = IZR rem)%R) by (unfold f; field; lra).
  assert (Hf0 : (0 <= f)%R).
  { unfold f. apply Rmult_le_pos; [exact Hr0|].
    apply Rlt_le, Rinv_0_lt_compat, HP. }
  assert (Hf1 : (f < 1)%R) by nra.
  exists q. rewrite Hx. split; [lra|].
  replace (IZR q + f - IZR q)%R with f by lra.
  destruct (Z.eqb_spec rem 0) as [E|NE]; cbn [round_nearest_even].
  - left. split; [|reflexivity]. subst rem. nra.
  - destruct (Z.compare_spec (2 * rem) P) as [Hc|Hc|Hc].
    + right. right. split; [|reflexivity].
      assert (2 * IZR rem = IZR P)%R by (rewrite <- Hc, mult_IZR; reflexivity).
      nra.
    + left. split; [|reflexivity].
      assert (2 * IZR rem < IZR P)%R
        by (rewrite <- (mult_IZR 2); apply IZR_lt; exact Hc).
      nra.
    + right. left. split; [|reflexivity].
      assert (IZR P < 2 * IZR rem)%R
        by (rewrite <- (mult_IZR 2); apply IZR_lt; exact Hc).
      nra.
Qed.

(** *** The rounding of the specification *)

(** The real value of a finite float; 0 for the others. *)
Definition SFval (f : spec_float) : R :=
  match f with
  | S754_finite s m e =>
      if s then (- (IZR (Zpos m) * bpow e))%R else (IZR (Zpos m) * bpow e)%R
  | _ => 0%R
  end.

Definition is_fin (f : spec_float) : bool :=
  match f with
  | S754_zero _ | S754_finite _ _ _ => true
  | _ => false
  end.

Lemma mantissa_pos (m : positive) (e : Z) : (0 < IZR (Zpos m) * bpow e)%R.
Proof.
  apply Rmult_lt_0_compat; [apply IZR_lt; lia | apply bpow_gt_0].
Qed.

Section Format.
Variables prec emax : Z.
Hypothesis prec_gt_0 : 0 < prec.

Let emin := SpecFloat.emin prec emax.
Let fexp := SpecFloat.fexp prec emax.

Lemma fexp_ge_emin (k : Z) : emin <= fexp k.
Proof. unfold fexp, SpecFloat.fexp, emin. lia. Qed.

Lemma fexp_ge (k : Z) : k - prec <= fexp k.
Proof. unfold fexp, SpecFloat.fexp. lia. Qed.

Lemma fexp_above_emin (k : Z) : emin < fexp k -> fexp k = k - prec.
Proof. unfold fexp, SpecFloat.fexp, emin. lia. Qed.

Lemma fexp_small (j E : Z) : emin <= E -> j <= prec + E -> fexp j <= E.
Proof. unfold fexp, SpecFloat.fexp, emin. lia. Qed.

Lemma fexp_mono (j k : Z) : j <= k -> fexp j <= fexp k.
Proof. unfold fexp, SpecFloat.fexp. lia. Qed.

(** The result for the rounded mantissa [q'] at exponent [E]. *)
Definition pack (s : bool) (q' E : Z) : spec_float :=
  if q' =? 0 then S754_zero s
  else if q' <? 2 ^ prec then
    if E <=? emax - prec then S754_finite s (Z.to_pos q') E
    else S754_infinity s
  else
    if E + 1 <=? emax - prec then
      S754_finite s (Z.to_pos (2 ^ (prec - 1))) (E + 1)
    else S754_infinity s.

Lemma second_shift (s : bool) (q' E : Z) :
  emin <= E -> 0 <= q' <= 2 ^ prec ->
  (let '(mrs'', e'') := shr_fexp prec emax q' E loc_Exact in
   match shr_m mrs'' with
   | Z0 => S754_zero s
   | Zpos m =>
       if e'' <=? emax - prec then S754_finite s m e'' else S754_infinity s
   | Zneg _ => S754_nan
   end) = pack s q' E.
Proof.
  intros HE Hq. unfold pack, shr_fexp.
  cbn [shr_record_of_loc].
  destruct (Z.eqb_spec q' 0) as [E0|N0].
  - subst q'. cbn [Zdigits2]. 
    change (SpecFloat.fexp prec emax (0 + E)) with (fexp (0 + E)).
    assert (Hn : fexp (0 + E) - E <= 0)
      by (pose proof (@fexp_small (0 + E) E HE ltac:(lia)); lia).
    destruct (fexp (0 + E) - E) as [|p|p]; try lia; reflexivity.
  - assert (Hpos : 0 < q') by lia.
    destruct (Zdigits2_bounds Hpos) as [Hd0 [Hdlo Hdhi]].
    change (SpecFloat.fexp prec emax (Zdigits2 q' + E))
      with (fexp (Zdigits2 q' + E)).
    destruct (Z.ltb_spec q' (2 ^ prec)) as [Hlt|Hge].
    + assert (Hd : Zdigits2 q' <= prec).
      { assert (Zdigits2 q' - 1 < prec)
          by (apply (Z.pow_lt_mono_r_iff 2); lia).
        lia. }
      assert (Hn : fexp (Zdigits2 q' + E) - E <= 0)
        by (pose proof (@fexp_small (Zdigits2 q' + E) E HE ltac:(lia)); lia).
      destruct (fexp (Zdigits2 q' + E) - E) as [|p|p]; try lia;
        cbn [shr shr_m]; destruct q' as [|m|m]; try lia; reflexivity.
    + assert (Eq' : q' = 2 ^ prec) by lia.
      assert (Hd : Zdigits2 q' = prec + 1).
      { apply digits_unique; [lia|]. rewrite Eq'.
        replace (prec + 1 - 1) with prec by lia.
        split; [lia|]. apply Z.pow_lt_mono_r; lia. }
      assert (Hn : fexp (Zdigits2 q' + E) - E = 1).
      { rewrite Hd.
        pose proof (fexp_ge (prec + 1 + E)).
        pose proof (@fexp_small (prec + 1 + E) (E + 1) ltac:(lia) ltac:(lia)).
        lia. }
      rewrite Hn. cbn [shr SpecFloat.iter_pos].
      rewrite shr_1_nonneg by lia. cbn [shr_m].
      assert (Hhalf : Z.div2 q' = 2 ^ (prec - 1)).
      { rewrite Z.div2_div, Eq'.
        replace prec with (1 + (prec - 1)) at 1 by lia.
        rewrite Z.pow_add_r by lia. change (2 ^ 1) with 2.
        rewrite Z.mul_comm, Z.div_mul by lia. reflexivity. }
      rewrite Hhalf.
      assert (0 < 2 ^ (prec - 1)) by (apply Z.pow_pos_nonneg; lia).
      destruct (2 ^ (prec - 1)) as [|m|m]; try lia. reflexivity.
Qed.

(** [binary_round_aux] on an exact mantissa whose exponent is not above the
    exponent of its format: the mantissa is shifted to that exponent and
    rounded to nearest, ties to even. *)
Lemma binary_round_aux_spec (s : bool) (m : positive) (e : Z) :
  let E := fexp (Zpos (digits2_pos m) + e) in
  e <= E ->
  exists q' : Z,
    RNE (IZR (Zpos m) * bpow e / bpow E) q' /\
    0 <= q' <= 2 ^ prec /\
    binary_round_aux prec emax s (Zpos m) e loc_Exact = pack s q' E.
Proof.
  intros E HE. unfold binary_round_aux, shr_fexp.
  cbn [Zdigits2 shr_record_of_loc].
  change (SpecFloat.fexp prec emax (Zpos (digits2_pos m) + e)) with E.
  destruct (@shr_shifted (Zpos m) e (E - e) ltac:(lia) ltac:(lia))
    as [mrs [Hshr Hsh]].
  rewrite Hshr. replace (e + (E - e)) with E by lia.
  set (q' := round_nearest_even (shr_m mrs) (loc_of_shr_record mrs)).
  pose proof (@shifted_RNE (Zpos m) (E - e) mrs ltac:(lia) Hsh) as Hrne. fold q' in Hrne.
  assert (Hx : (IZR (Zpos m) * bpow e / bpow E
                = IZR (Zpos m) / IZR (2 ^ (E - e)))%R).
  { rewrite <- bpow_IZR by lia.
    replace E with (e + (E - e)) at 1 by lia. rewrite bpow_add.
    pose proof (bpow_gt_0 e). pose proof (bpow_gt_0 (E - e)).
    field. lra. }
  assert (Hq : 0 <= q' <= 2 ^ prec).
  { split.
    - apply (@RNE_ge _ _ 0 Hrne).
      apply Rmult_le_pos; [apply IZR_le; lia|].
      apply Rlt_le, Rinv_0_lt_compat, IZR_lt. apply Z.pow_pos_nonneg; lia.
    - apply (@RNE_le _ _ (2 ^ prec) Hrne).
      pose proof (digits2_pos_bounds m) as [_ Hhi].
      assert (Hle : 2 ^ Zpos (digits2_pos m) <= 2 ^ prec * 2 ^ (E - e)).
      { rewrite <- Z.pow_add_r by lia. apply Z.pow_le_mono_r; [lia|].
        pose proof (fexp_ge (Zpos (digits2_pos m) + e)). fold E in H. lia. }
      assert (HP : (0 < IZR (2 ^ (E - e)))%R)
        by (apply IZR_lt, Z.pow_pos_nonneg; lia).
      assert (Hm : (IZR (Zpos m) <= IZR (2 ^ prec) * IZR (2 ^ (E - e)))%R)
        by (rewrite <- mult_IZR; apply IZR_le; lia).
      apply Rmult_le_reg_r with (r := IZR (2 ^ (E - e))); [exact HP|].
      unfold Rdiv. rewrite Rmult_assoc, Rinv_l by lra. lra. }
  exists q'. rewrite Hx. split; [exact Hrne|]. split; [exact Hq|].
  apply second_shift; [apply fexp_ge_emin | exact Hq].
Qed.

Lemma iter_xO (m d : positive) : Zpos (Pos.iter xO m d) = Zpos m * 2 ^ Zpos d.
Proof.
  apply (@Pos.iter_ind positive xO m (fun p a => Zpos a = Zpos m * 2 ^ Zpos p)).
  - rewrite (Pos2Z.inj_xO m). change (2 ^ 1) with 2. lia.
  - intros p a Ha. rewrite (Pos2Z.inj_xO a), Ha, Pos2Z.inj_succ.
    rewrite Z.pow_succ_r by lia. ring.
Qed.

(** [binary_round] brings the mantissa to the exponent of its format first,
    so it rounds whatever the exponent it is given. *)
Lemma binary_round_spec (s : bool) (m : positive) (e : Z) :
  let E := fexp (Zpos (digits2_pos m) + e) in
  exists q' : Z,
    RNE (IZR (Zpos m) * bpow e / bpow E) q' /\
    0 <= q' <= 2 ^ prec /\
    binary_round prec emax s m e = pack s q' E.
Proof.
  intro E. unfold binary_round, shl_align.
  change (SpecFloat.fexp prec emax (Zpos (digits2_pos m) + e)) with E.
  destruct (E - e) as [|p|d] eqn:Hn.
  - apply binary_round_aux_spec. fold E. lia.
  - apply binary_round_aux_spec. fold E. lia.
  - pose proof (iter_xO m d) as Hmz.
    set (mz := Pos.iter xO m d) in *.
    assert (Hdz : Zpos (digits2_pos mz) = Zpos (digits2_pos m) + Zpos d).
    { change (Zpos (digits2_pos mz)) with (Zdigits2 (Zpos mz)).
      apply digits_unique; [lia|]. rewrite Hmz.
      pose proof (digits2_pos_bounds m) as [Hlo Hhi].
      assert (0 < 2 ^ Zpos d) by (apply Z.pow_pos_nonneg; lia).
      replace (Zpos (digits2_pos m) + Zpos d - 1)
        with (Zpos (digits2_pos m) - 1 + Zpos d) by lia.
      rewrite !Z.pow_add_r by lia. nia. }
    assert (HE : fexp (Zpos (digits2_pos mz) + E) = E).
    { rewrite Hdz. unfold E at 2. f_equal. lia. }
    assert (Hal : E <= fexp (Zpos (digits2_pos mz) + E)) by (rewrite HE; lia).
    destruct (@binary_round_aux_spec s mz E Hal) as [q' (Hrne & Hq & Hres)].
    rewrite HE in Hrne, Hres.
    exists q'. split; [|split; assumption].
    replace (IZR (Zpos m) * bpow e)%R with (IZR (Zpos mz) * bpow E)%R;
      [exact Hrne|].
    rewrite Hmz, mult_IZR, <- bpow_IZR by lia.
    replace e with (Zpos d + E) by lia. rewrite bpow_add. ring.
Qed.

Lemma pack_val (s : bool) (q' E : Z) :
  0 <= q' <= 2 ^ prec ->
  is_fin (pack s q' E) = true ->
  SFval (pack s q' E) =
  if s then (- (IZR q' * bpow E))%R else (IZR q' * bpow E)%R.
Proof.
  intros Hq. unfold pack.
  destruct (Z.eqb_spec q' 0) as [E0|N0].
  - subst q'. intros _. cbn. destruct s; lra.
  - destruct (Z.ltb_spec q' (2 ^ prec)) as [Hlt|Hge].
    + destruct (E <=? emax - prec); [|discriminate]. intros _.
      cbn [SFval]. rewrite Z2Pos.id by lia. reflexivity.
    + destruct (E + 1 <=? emax - prec); [|discriminate]. intros _.
      cbn [SFval].
      assert (0 < 2 ^ (prec - 1)) by (apply Z.pow_pos_nonneg; lia).
      rewrite Z2Pos.id by lia.
      assert (Eq' : q' = 2 ^ prec) by lia.
      assert (Hv : (IZR (2 ^ (prec - 1)) * bpow (E + 1)
                    = IZR q' * bpow E)%R).
      { rewrite Eq', <- !bpow_IZR by lia. rewrite <- !bpow_add.
        f_equal. lia. }
      rewrite Hv. reflexivity.
Qed.

(** [a] is the value a positive real [v] is rounded to: [v] lies in the
    binade of exponent [mu], and it is rounded to nearest, ties to even, on
    the grid of the format there. *)
Definition Rnd_pos (v a : R) : Prop :=
  exists (mu q' : Z),
    (bpow (mu - 1) <= v < bpow mu)%R /\
    RNE (v / bpow (fexp mu)) q' /\
    a = (IZR q' * bpow (fexp mu))%R.

Lemma Rnd_pos_nonneg (v a : R) : Rnd_pos v a -> (0 <= a)%R.
Proof.
  intros (mu & q' & Hv & Hrne & Ha). subst a.
  pose proof (bpow_gt_0 (fexp mu)). pose proof (bpow_gt_0 (mu - 1)).
  assert (0 <= q').
  { apply (@RNE_ge _ _ 0 Hrne). apply Rmult_le_pos; [lra|].
    apply Rlt_le, Rinv_0_lt_compat. assumption. }
  apply Rmult_le_pos; [apply IZR_le; assumption | lra].
Qed.

Lemma Rnd_pos_mono (v1 v2 a1 a2 : R) :
  (v1 <= v2)%R -> Rnd_pos v1 a1 -> Rnd_pos v2 a2 -> (a1 <= a2)%R.
Proof.
  intros Hv (mu1 & q1 & Hv1 & Hr1 & Ha1) (mu2 & q2 & Hv2 & Hr2 & Ha2).
  subst a1 a2.
  assert (Hmu : mu1 <= mu2).
  { assert (mu1 - 1 < mu2) by (apply bpow_lt_inv; lra). lia. }
  pose proof (fexp_mono Hmu) as HE.
  set (E1 := fexp mu1) in *. set (E2 := fexp mu2) in *.
  pose proof (bpow_gt_0 E1) as HP1. pose proof (bpow_gt_0 E2) as HP2.
  destruct (Z.eq_dec E1 E2) as [EE|NE].
  - rewrite <- EE in *.
    assert (q1 <= q2).
    { apply (RNE_mono (x:=(v1 / bpow E1)%R) (y:=(v2 / bpow E1)%R));
        [|assumption|assumption].
      apply Rmult_le_compat_r; [|exact Hv].
      apply Rlt_le, Rinv_0_lt_compat, HP1. }
    apply Rmult_le_compat_r; [lra | apply IZR_le; assumption].
  - assert (HE2 : E2 = mu2 - prec).
    { pose proof (fexp_ge_emin mu1) as Hm1. fold E1 in Hm1.
      unfold E2. apply fexp_above_emin. fold E2. lia. }
    assert (Hq2 : 2 ^ (prec - 1) <= q2).
    { apply (@RNE_ge _ _ (2 ^ (prec - 1)) Hr2).
      rewrite <- bpow_IZR by lia.
      apply Rmult_le_reg_r with (r := bpow E2); [exact HP2|].
      unfold Rdiv. rewrite Rmult_assoc, Rinv_l, Rmult_1_r by lra.
      rewrite <- bpow_add. replace (prec - 1 + E2) with (mu2 - 1) by lia.
      lra. }
    assert (Hq1 : q1 <= 2 ^ prec).
    { apply (@RNE_le _ _ (2 ^ prec) Hr1).
      rewrite <- bpow_IZR by lia.
      apply Rmult_le_reg_r with (r := bpow E1); [exact HP1|].
      unfold Rdiv. rewrite Rmult_assoc, Rinv_l, Rmult_1_r by lra.
      rewrite <- bpow_add.
      assert (H : mu1 <= prec + E1)
        by (pose proof (fexp_ge mu1) as Hg; fold E1 in Hg; lia).
      pose proof (bpow_le H). lra. }
    apply Rle_trans with (r2 := (IZR (2 ^ prec) * bpow E1)%R).
    { apply Rmult_le_compat_r; [lra | apply IZR_le; assumption]. }
    apply Rle_trans with (r2 := (IZR (2 ^ (prec - 1)) * bpow E2)%R).
    { rewrite <- !bpow_IZR by lia. rewrite <- !bpow_add.
      apply bpow_le. lia. }
    apply Rmult_le_compat_r; [lra | apply IZR_le; assumption].
Qed.

(** [r], when it is finite, is the rounding of the real [v]. *)
Definition Rounded (v : R) (r : spec_float) : Prop :=
  is_fin r = true ->
  (v = 0%R -> SFval r = 0%R) /\
  ((0 < v)%R -> exists a, Rnd_pos v a /\ SFval r = a) /\
  ((v < 0)%R -> exists a, Rnd_pos (- v) a /\ SFval r = (- a)%R).

(** Rounding is monotone. *)
Lemma Rounded_mono (v1 v2 : R) (r1 r2 : spec_float) :
  (v1 <= v2)%R -> Rounded v1 r1 -> Rounded v2 r2 ->
  is_fin r1 = true -> is_fin r2 = true ->
  (SFval r1 <= SFval r2)%R.
Proof.
  intros Hv H1 H2 F1 F2.
  destruct (H1 F1) as (Z1 & P1 & N1). destruct (H2 F2) as (Z2 & P2 & N2).
  destruct (Rtotal_order v1 0) as [Hn1|[Hz1|Hp1]].
  - destruct (N1 Hn1) as (a1 & Ha1 & E1). rewrite E1.
    pose proof (Rnd_pos_nonneg Ha1) as Hnn1.
    destruct (Rtotal_order v2 0) as [Hn2|[Hz2|Hp2]].
    + destruct (N2 Hn2) as (a2 & Ha2 & E2). rewrite E2.
      assert (a2 <= a1)%R
        by (apply (Rnd_pos_mono (v1:=(-v2)%R) (v2:=(-v1)%R));
            [lra | assumption | assumption]).
      lra.
    + rewrite (Z2 Hz2). lra.
    + destruct (P2 Hp2) as (a2 & Ha2 & E2). rewrite E2.
      pose proof (Rnd_pos_nonneg Ha2). lra.
  - rewrite (Z1 Hz1).
    destruct (Rtotal_order v2 0) as [Hn2|[Hz2|Hp2]].
    + lra.
    + rewrite (Z2 Hz2). lra.
    + destruct (P2 Hp2) as (a2 & Ha2 & E2). rewrite E2.
      pose proof (Rnd_pos_nonneg Ha2). lra.
  - destruct (P1 Hp1) as (a1 & Ha1 & E1). rewrite E1.
    destruct (Rtotal_order v2 0) as [Hn2|[Hz2|Hp2]].
    + lra.
    + lra.
    + destruct (P2 Hp2) as (a2 & Ha2 & E2). rewrite E2.
      apply (Rnd_pos_mono (v1:=v1) (v2:=v2)); assumption.
Qed.

Lemma Rounded_zero (s : bool) : Rounded 0 (S754_zero s).
Proof. intros _. repeat split; intros; try lra; reflexivity. Qed.

Lemma binade (m : positive) (e : Z) :
  (bpow (Zpos (digits2_pos m) + e - 1) <= IZR (Zpos m) * bpow e
   < bpow (Zpos (digits2_pos m) + e))%R.
Proof.
  pose proof (digits2_pos_bounds m) as [Hlo Hhi].
  pose proof (bpow_gt_0 e) as He.
  replace (Zpos (digits2_pos m) + e - 1) with (Zpos (digits2_pos m) - 1 + e)
    by lia.
  rewrite !bpow_add.
  rewrite (@bpow_IZR (Zpos (digits2_pos m) - 1)) by lia.
  rewrite (@bpow_IZR (Zpos (digits2_pos m))) by lia.
  split.
  - apply Rmult_le_compat_r; [lra | apply IZR_le; assumption].
  - apply Rmult_lt_compat_r; [lra | apply IZR_lt; assumption].
Qed.

(** A result [pack s q' E] whose [q'] is the rounding of [m * 2^e] on the
    grid of the format is the rounding of the signed value. *)
Lemma pack_Rounded (s : bool) (m : positive) (e q' : Z) :
  let E := fexp (Zpos (digits2_pos m) + e) in
  RNE (IZR (Zpos m) * bpow e / bpow E) q' ->
  0 <= q' <= 2 ^ prec ->
  Rounded (if s then (- (IZR (Zpos m) * bpow e))%R
           else (IZR (Zpos m) * bpow e)%R)
          (pack s q' E).
Proof.
  intros E Hrne Hq Hfin.
  pose proof (mantissa_pos m e) as Hpos.
  rewrite (pack_val s E Hq Hfin).
  assert (Hr : Rnd_pos (IZR (Zpos m) * bpow e) (IZR q' * bpow E)).
  { exists (Zpos (digits2_pos m) + e), q'.
    split; [apply binade|]. split; [exact Hrne | reflexivity]. }
  destruct s.
  - split; [intro; lra|]. split; [intro; lra|]. intros _.
    exists (IZR q' * bpow E)%R. split; [|reflexivity].
    replace (- - (IZR (Zpos m) * bpow e))%R with (IZR (Zpos m) * bpow e)%R
      by lra.
    exact Hr.
  - split; [intro; lra|]. split; [|intro; lra]. intros _.
    exists (IZR q' * bpow E)%R. split; [exact Hr | reflexivity].
Qed.

Lemma binary_round_Rounded (s : bool) (m : positive) (e : Z) :
  Rounded (if s then (- (IZR (Zpos m) * bpow e))%R
           else (IZR (Zpos m) * bpow e)%R)
          (binary_round prec emax s m e).
Proof.
  destruct (binary_round_spec s m e) as [q' (Hrne & Hq & Hres)].
  rewrite Hres. now apply pack_Rounded.
Qed.

Lemma binary_round_aux_Rounded (s : bool) (m : positive) (e : Z) :
  e <= fexp (Zpos (digits2_pos m) + e) ->
  Rounded (if s then (- (IZR (Zpos m) * bpow e))%R
           else (IZR (Zpos m) * bpow e)%R)
          (binary_round_aux prec emax s (Zpos m) e loc_Exact).
Proof.
  intro Hal.
  destruct (@binary_round_aux_spec s m e Hal) as [q' (Hrne & Hq & Hres)].
  rewrite Hres. now apply pack_Rounded.
Qed.

Lemma binary_normalize_Rounded (M e : Z) (szero : bool) :
  Rounded (IZR M * bpow e) (binary_normalize prec emax M e szero).
Proof.
  destruct M as [|m|m]; cbn [binary_normalize].
  - rewrite Rmult_0_l. apply Rounded_zero.
  - exact (binary_round_Rounded false m e).
  - replace (IZR (Zneg m) * bpow e)%R with (- (IZR (Zpos m) * bpow e))%R.
    + exact (binary_round_Rounded true m e).
    + change (Zneg m) with (- Zpos m). rewrite opp_IZR. ring.
Qed.

(** A float of the format is its own rounding. *)
Lemma Rounded_exact (r : spec_float) :
  SpecFloat.valid_binary prec emax r = true -> Rounded (SFval r) r.
Proof.
  destruct r as [s|s| |s m e]; intro Hv.
  - apply Rounded_zero.
  - intro; discriminate.
  - intro; discriminate.
  - cbn [SpecFloat.valid_binary] in Hv. unfold bounded, canonical_mantissa in Hv.
    apply andb_true_iff in Hv. destruct Hv as [Hc _].
    apply Z.eqb_eq in Hc.
    change (SpecFloat.fexp prec emax (Zpos (digits2_pos m) + e))
      with (fexp (Zpos (digits2_pos m) + e)) in Hc.
    intros _. pose proof (mantissa_pos m e) as Hpos. cbn [SFval].
    assert (Hr : Rnd_pos (IZR (Zpos m) * bpow e) (IZR (Zpos m) * bpow e)).
    { exists (Zpos (digits2_pos m) + e), (Zpos m).
      split; [apply binade|]. rewrite Hc. split; [|reflexivity].
      exists (Zpos m).
      pose proof (bpow_gt_0 e).
      replace (IZR (Zpos m) * bpow e / bpow e)%R with (IZR (Zpos m))
        by (field; lra).
      split; [lra|]. left. split; [lra | reflexivity]. }
    destruct s.
    + split; [intro; lra|]. split; [intro; lra|]. intros _.
      exists (IZR (Zpos m) * bpow e)%R. split; [|reflexivity].
      replace (- - (IZR (Zpos m) * bpow e))%R with (IZR (Zpos m) * bpow e)%R
        by lra.
      exact Hr.
    + split; [intro; lra|]. split; [|intro; lra]. intros _.
      exists (IZR (Zpos m) * bpow e)%R. split; [exact Hr | reflexivity].
Qed.

(** *** The operations *)

Lemma shl_align_val (m : positive) (e e' : Z) :
  e' <= e ->
  (IZR (Zpos (fst (shl_align m e e'))) * bpow e' = IZR (Zpos m) * bpow e)%R.
Proof.
  intro He. unfold shl_align.
  destruct (e' - e) as [|p|d] eqn:Hd; cbn [fst].
  - replace e' with e by lia. reflexivity.
  - lia.
  - rewrite iter_xO, mult_IZR, <- bpow_IZR by lia.
    rewrite Rmult_assoc, <- bpow_add. do 2 f_equal. lia.
Qed.

Lemma valid_finite (s : bool) (m : positive) (e : Z) :
  SpecFloat.valid_binary prec emax (S754_finite s m e) = true ->
  fexp (Zpos (digits2_pos m) + e) = e /\ e <= emax - prec /\
  Zpos (digits2_pos m) <= prec.
Proof.
  cbn [SpecFloat.valid_binary]. unfold bounded, canonical_mantissa.
  intro H. apply andb_true_iff in H. destruct H as [Hc Hb].
  apply Z.eqb_eq in Hc. apply Z.leb_le in Hb.
  change (SpecFloat.fexp prec emax (Zpos (digits2_pos m) + e))
    with (fexp (Zpos (digits2_pos m) + e)) in Hc.
  pose proof (fexp_ge (Zpos (digits2_pos m) + e)). repeat split; lia.
Qed.

(** Subtraction rounds the exact difference. *)
Lemma SFsub_Rounded (x c : spec_float) :
  is_fin x = true -> is_fin c = true ->
  SpecFloat.valid_binary prec emax x = true ->
  SpecFloat.valid_binary prec emax c = true ->
  Rounded (SFval x - SFval c) (SFsub prec emax x c).
Proof.
  intros Fx Fc Vx Vc.
  destruct x as [sx|sx| |sx mx ex]; try discriminate;
    destruct c as [sc|sc| |sc mc ec]; try discriminate.
  - replace (SFval (S754_zero sx) - SFval (S754_zero sc))%R with 0%R
      by (cbn; lra).
    destruct sx, sc; apply Rounded_zero.
  - cbn [SFsub].
    replace (SFval (S754_zero sx) - SFval (S754_finite sc mc ec))%R
      with (SFval (S754_finite (negb sc) mc ec))
      by (cbn; destruct sc; cbn; lra).
    apply Rounded_exact. exact Vc.
  - cbn [SFsub].
    replace (SFval (S754_finite sx mx ex) - SFval (S754_zero sc))%R
      with (SFval (S754_finite sx mx ex)) by (cbn [SFval]; lra).
    apply Rounded_exact. exact Vx.
  - cbn [SFsub].
    set (ez := Z.min ex ec).
    pose proof (@shl_align_val mx ex ez ltac:(lia)) as Hx.
    pose proof (@shl_align_val mc ec ez ltac:(lia)) as Hc.
    set (X := Zpos (fst (shl_align mx ex ez))) in *.
    set (C := Zpos (fst (shl_align mc ec ez))) in *.
    replace (SFval (S754_finite sx mx ex) - SFval (S754_finite sc mc ec))%R
      with (IZR (cond_Zopp sx X - cond_Zopp sc C) * bpow ez)%R.
    + apply binary_normalize_Rounded.
    + rewrite minus_IZR. cbn [SFval].
      destruct sx, sc; cbn [cond_Zopp]; rewrite ?opp_IZR; lra.
Qed.

(** Multiplication by a float whose mantissa has all its digits rounds the
    exact product. *)
Lemma SFmul_Rounded (x : spec_float) (sk : bool) (mk : positive) (ek : Z) :
  is_fin x = true ->
  prec <= Zpos (digits2_pos mk) ->
  Rounded (SFval x * SFval (S754_finite sk mk ek))
          (SFmul prec emax x (S754_finite sk mk ek)).
Proof.
  intros Fx Hk.
  destruct x as [sx|sx| |sx mx ex]; try discriminate; cbn [SFmul].
  - replace (SFval (S754_zero sx) * SFval (S754_finite sk mk ek))%R with 0%R
      by (cbn [SFval]; lra).
    apply Rounded_zero.
  - assert (Hd : prec <= Zpos (digits2_pos (mx * mk))).
    { pose proof (digits2_pos_bounds mk) as [Hlo _].
      pose proof (digits2_pos_bounds (mx * mk)) as [_ Hhi].
      rewrite Pos2Z.inj_mul in Hhi.
      assert (Zpos (digits2_pos mk) - 1 < Zpos (digits2_pos (mx * mk))).
      { apply (Z.pow_lt_mono_r_iff 2); [lia | lia | nia]. }
      lia. }
    assert (Hal : ex + ek <= fexp (Zpos (digits2_pos (mx * mk)) + (ex + ek))).
    { pose proof (fexp_ge (Zpos (digits2_pos (mx * mk)) + (ex + ek))). lia. }
    pose proof (@binary_round_aux_Rounded (xorb sx sk) (mx * mk) (ex + ek) Hal)
      as H.
    replace (SFval (S754_finite sx mx ex) * SFval (S754_finite sk mk ek))%R
      with (if xorb sx sk
            then (- (IZR (Zpos (mx * mk)) * bpow (ex + ek)))%R
            else (IZR (Zpos (mx * mk)) * bpow (ex + ek))%R);
      [exact H|].
    rewrite Pos2Z.inj_mul, mult_IZR, bpow_add. cbn [SFval].
    destruct sx, sk; cbn [xorb]; ring.
Qed.

Lemma SFsub_mono (x1 x2 c : spec_float) :
  SpecFloat.valid_binary prec emax x1 = true ->
  SpecFloat.valid_binary prec emax x2 = true ->
  SpecFloat.valid_binary prec emax c = true ->
  is_fin x1 = true -> is_fin x2 = true -> is_fin c = true ->
  is_fin (SFsub prec emax x1 c) = true ->
  is_fin (SFsub prec emax x2 c) = true ->
  (SFval x1 <= SFval x2)%R ->
  (SFval (SFsub prec emax x1 c) <= SFval (SFsub prec emax x2 c))%R.
Proof.
  intros V1 V2 Vc F1 F2 Fc R1 R2 Hle.
  apply (Rounded_mono (v1:=(SFval x1 - SFval c)%R) (v2:=(SFval x2 - SFval c)%R));
    try assumption; try lra; now apply SFsub_Rounded.
Qed.

Lemma SFmul_mono (x1 x2 : spec_float) (mk : positive) (ek : Z) :
  prec <= Zpos (digits2_pos mk) ->
  is_fin x1 = true -> is_fin x2 = true ->
  is_fin (SFmul prec emax x1 (S754_finite false mk ek)) = true ->
  is_fin (SFmul prec emax x2 (S754_finite false mk ek)) = true ->
  (SFval x1 <= SFval x2)%R ->
  (SFval (SFmul prec emax x1 (S754_finite false mk ek))
   <= SFval (SFmul prec emax x2 (S754_finite false mk ek)))%R.
Proof.
  intros Hk F1 F2 R1 R2 Hle.
  pose proof (mantissa_pos mk ek) as Hpos.
  apply (Rounded_mono
           (v1:=(SFval x1 * SFval (S754_finite false mk ek))%R)
           (v2:=(SFval x2 * SFval (S754_finite false mk ek))%R));
    try assumption; try (now apply SFmul_Rounded).
  cbn [SFval]. apply Rmult_le_compat_r; lra.
Qed.

(** *** Comparison *)

Lemma canonical_lt (s1 s2 : bool) (m1 m2 : positive) (e1 e2 : Z) :
  SpecFloat.valid_binary prec emax (S754_finite s1 m1 e1) = true ->
  SpecFloat.valid_binary prec emax (S754_finite s2 m2 e2) = true ->
  e1 < e2 ->
  (IZR (Zpos m1) * bpow e1 < IZR (Zpos m2) * bpow e2)%R.
Proof.
  intros V1 V2 He.
  destruct (@valid_finite s1 m1 e1 V1) as (C1 & _ & D1).
  destruct (@valid_finite s2 m2 e2 V2) as (C2 & _ & D2).
  pose proof (fexp_ge_emin (Zpos (digits2_pos m1) + e1)) as Hm1.
  assert (HD2 : Zpos (digits2_pos m2) = prec).
  { assert (H := @fexp_above_emin (Zpos (digits2_pos m2) + e2) ltac:(lia)).
    lia. }
  pose proof (binade m1 e1) as [_ B1]. pose proof (binade m2 e2) as [B2 _].
  assert (Hle : Zpos (digits2_pos m1) + e1 <= Zpos (digits2_pos m2) + e2 - 1)
    by lia.
  pose proof (bpow_le Hle). lra.
Qed.

Lemma SFleb_val (x y : spec_float) :
  SpecFloat.valid_binary prec emax x = true ->
  SpecFloat.valid_binary prec emax y = true ->
  is_fin x = true -> is_fin y = true ->
  SFleb x y = true -> (SFval x <= SFval y)%R.
Proof.
  intros Vx Vy Fx Fy.
  destruct x as [sx|sx| |sx mx ex]; try discriminate;
    destruct y as [sy|sy| |sy my ey]; try discriminate;
    unfold SFleb; cbn [SFcompare SFval].
  - intros _. lra.
  - pose proof (mantissa_pos my ey). destruct sy; [discriminate | intros _; lra].
  - pose proof (mantissa_pos mx ex). destruct sx; [intros _; lra | discriminate].
  - pose proof (mantissa_pos mx ex) as Px. pose proof (mantissa_pos my ey) as Py.
    assert (Hm : forall a b : positive,
               (a ?= b)%positive <> Gt -> (IZR (Zpos a) <= IZR (Zpos b))%R).
    { intros a b Hab. apply IZR_le.
      destruct (Pos.compare_spec a b); [subst; lia | lia | congruence]. }
    change (Pos.compare_cont Eq mx my) with (mx ?= my)%positive.
    destruct sx, sy; try (intros _; lra); try discriminate.
    + destruct (Z.compare_spec ex ey) as [E|L|G].
      * subst ey. rewrite Pos.compare_antisym in *.
        pose proof (bpow_gt_0 ex) as Hb.
        destruct (my ?= mx)%positive eqn:Hc; cbn [CompOpp]; try discriminate;
          intros _;
          assert (IZR (Zpos my) <= IZR (Zpos mx))%R
            by (apply Hm; rewrite Hc; discriminate); nra.
      * discriminate.
      * intros _. pose proof (@canonical_lt _ _ _ _ _ _ Vy Vx G). lra.
    + destruct (Z.compare_spec ex ey) as [E|L|G].
      * subst ey. pose proof (bpow_gt_0 ex) as Hb.
        destruct (mx ?= my)%positive eqn:Hc; try discriminate; intros _;
          assert (IZR (Zpos mx) <= IZR (Zpos my))%R
            by (apply Hm; rewrite Hc; discriminate); nra.
      * intros _. pose proof (@canonical_lt _ _ _ _ _ _ Vx Vy L). lra.
      * discriminate.
Qed.

(** *** Overflow *)

Hypothesis emax_ge_2 : 2 <= emax.

(** The result for the rounded mantissa [q'] of a real in the binade of
    exponent [mu] is finite exactly when the rounded value is below
    [2^emax]. *)
Lemma pack_fin (s : bool) (mu q' : Z) (v : R) :
  (bpow (mu - 1) <= v)%R ->
  RNE (v / bpow (fexp mu)) q' ->
  0 <= q' <= 2 ^ prec ->
  (is_fin (pack s q' (fexp mu)) = true <->
   (IZR q' * bpow (fexp mu) < bpow emax)%R).
Proof.
  intros Hv Hrne Hq. set (E := fexp mu) in *. unfold pack.
  pose proof (bpow_gt_0 E) as HPE.
  destruct (Z.eqb_spec q' 0) as [E0|N0].
  - subst q'. cbn [is_fin]. split; [intros _|reflexivity].
    rewrite Rmult_0_l. apply bpow_gt_0.
  - destruct (Z.ltb_spec q' (2 ^ prec)) as [Hlt|Hge].
    + assert (Hq1 : (IZR q' < bpow prec)%R)
        by (rewrite bpow_IZR by lia; apply IZR_lt; lia).
      assert (Hq0 : (0 < IZR q')%R) by (apply IZR_lt; lia).
      destruct (Z.leb_spec E (emax - prec)) as [Hle|Hgt]; cbn [is_fin].
      * split; [intros _|reflexivity].
        assert (HE : (bpow E <= bpow (emax - prec))%R) by (apply bpow_le; lia).
        assert (Hsplit : bpow emax = (bpow prec * bpow (emax - prec))%R)
          by (rewrite <- bpow_add; f_equal; lia).
        rewrite Hsplit.
        apply Rlt_le_trans with (r2 := (bpow prec * bpow E)%R).
        -- apply Rmult_lt_compat_r; lra.
        -- apply Rmult_le_compat_l; [pose proof (bpow_gt_0 prec); lra | exact HE].
      * split; [discriminate|]. intro Hcontra. exfalso.
        assert (HEmu : E = mu - prec).
        { apply fexp_above_emin. fold E.
          unfold emin, SpecFloat.emin. lia. }
        assert (Hq2 : 2 ^ (prec - 1) <= q').
        { apply (@RNE_ge _ _ (2 ^ (prec - 1)) Hrne).
          rewrite <- bpow_IZR by lia.
          apply Rmult_le_reg_r with (r := bpow E); [exact HPE|].
          unfold Rdiv. rewrite Rmult_assoc, Rinv_l, Rmult_1_r by lra.
          rewrite <- bpow_add. replace (prec - 1 + E) with (mu - 1) by lia.
          exact Hv. }
        assert (H1 : (bpow emax <= bpow (prec - 1 + E))%R)
          by (apply bpow_le; lia).
        rewrite bpow_add in H1.
        assert (H2 : (bpow (prec - 1) <= IZR q')%R)
          by (rewrite bpow_IZR by lia; apply IZR_le; exact Hq2).
        assert (H3 : (bpow (prec - 1) * bpow E <= IZR q' * bpow E)%R)
          by (apply Rmult_le_compat_r; lra).
        lra.
    + assert (Eq' : q' = 2 ^ prec) by lia. subst q'.
      rewrite <- bpow_IZR by lia. rewrite <- bpow_add.
      destruct (Z.leb_spec (E + 1) (emax - prec)) as [Hle|Hgt]; cbn [is_fin].
      * split; [intros _|reflexivity]. apply bpow_lt. lia.
      * split; [discriminate|]. intro Hcontra. apply bpow_lt_inv in Hcontra.
        lia.
Qed.

(** [r] is finite exactly when the rounding of the magnitude of [v] is below
    [2^emax]. *)
Definition Bounded (v : R) (r : spec_float) : Prop :=
  (v = 0%R -> is_fin r = true) /\
  (v <> 0%R ->
   exists a, Rnd_pos (Rabs v) a /\ (is_fin r = true <-> (a < bpow emax)%R)).

(** Of two results, the one of the smaller magnitude is finite if the other
    is. *)
Lemma Bounded_mono (v1 v2 : R) (r1 r2 : spec_float) :
  (Rabs v1 <= Rabs v2)%R -> Bounded v1 r1 -> Bounded v2 r2 ->
  is_fin r2 = true -> is_fin r1 = true.
Proof.
  intros Hv [Z1 N1] [Z2 N2] F2.
  destruct (Req_dec v1 0) as [E1|NE1]; [now apply Z1|].
  assert (NE2 : v2 <> 0%R).
  { intro E2. subst v2. rewrite Rabs_R0 in Hv.
    pose proof (Rabs_pos_lt v1 NE1). lra. }
  destruct (N1 NE1) as (a1 & Ha1 & I1). destruct (N2 NE2) as (a2 & Ha2 & I2).
  apply I1. apply I2 in F2.
  pose proof (Rnd_pos_mono Hv Ha1 Ha2). lra.
Qed.

Lemma Bounded_zero (s : bool) : Bounded 0 (S754_zero s).
Proof. split; [reflexivity | intro H; now contradiction H]. Qed.

Lemma pack_Bounded (s : bool) (m : positive) (e q' : Z) :
  let E := fexp (Zpos (digits2_pos m) + e) in
  RNE (IZR (Zpos m) * bpow e / bpow E) q' ->
  0 <= q' <= 2 ^ prec ->
  Bounded (if s then (- (IZR (Zpos m) * bpow e))%R
           else (IZR (Zpos m) * bpow e)%R)
          (pack s q' E).
Proof.
  intros E Hrne Hq.
  pose proof (mantissa_pos m e) as Hpos.
  pose proof (binade m e) as Hb.
  split; [destruct s; intro; lra|]. intros _.
  exists (IZR q' * bpow E)%R. split.
  - replace (Rabs (if s then (- (IZR (Zpos m) * bpow e))%R
                   else (IZR (Zpos m) * bpow e)%R))
      with (IZR (Zpos m) * bpow e)%R.
    + exists (Zpos (digits2_pos m) + e), q'.
      split; [exact Hb|]. split; [exact Hrne | reflexivity].
    + destruct s.
      * rewrite Rabs_Ropp, Rabs_pos_eq; lra.
      * rewrite Rabs_pos_eq; lra.
  - apply (@pack_fin s (Zpos (digits2_pos m) + e) q' (IZR (Zpos m) * bpow e)%R);
      [apply Hb | exact Hrne | exact Hq].
Qed.

Lemma binary_round_Bounded (s : bool) (m : positive) (e : Z) :
  Bounded (if s then (- (IZR (Zpos m) * bpow e))%R
           else (IZR (Zpos m) * bpow e)%R)
          (binary_round prec emax s m e).
Proof.
  destruct (binary_round_spec s m e) as [q' (Hrne & Hq & Hres)].
  rewrite Hres. now apply pack_Bounded.
Qed.

Lemma binary_round_aux_Bounded (s : bool) (m : positive) (e : Z) :
  e <= fexp (Zpos (digits2_pos m) + e) ->
  Bounded (if s then (- (IZR (Zpos m) * bpow e))%R
           else (IZR (Zpos m) * bpow e)%R)
          (binary_round_aux prec emax s (Zpos m) e loc_Exact).
Proof.
  intro Hal.
  destruct (@binary_round_aux_spec s m e Hal) as [q' (Hrne & Hq & Hres)].
  rewrite Hres. now apply pack_Bounded.
Qed.

Lemma binary_normalize_Bounded (M e : Z) (szero : bool) :
  Bounded (IZR M * bpow e) (binary_normalize prec emax M e szero).
Proof.
  destruct M as [|m|m]; cbn [binary_normalize].
  - rewrite Rmult_0_l. apply Bounded_zero.
  - exact (binary_round_Bounded false m e).
  - replace (IZR (Zneg m) * bpow e)%R with (- (IZR (Zpos m) * bpow e))%R.
    + exact (binary_round_Bounded true m e).
    + change (Zneg m) with (- Zpos m). rewrite opp_IZR. ring.
Qed.

(** A float of the format is below [2^emax]. *)
Lemma Bounded_exact (r : spec_float) :
  SpecFloat.valid_binary prec emax r = true -> is_fin r = true ->
  Bounded (SFval r) r.
Proof.
  destruct r as [s|s| |s m e]; intros Hv Hf; try discriminate.
  - apply Bounded_zero.
  - destruct (@valid_finite s m e Hv) as (Hc & He & Hd).
    pose proof (mantissa_pos m e) as Hpos. pose proof (binade m e) as Hb.
    split; [cbn [SFval]; destruct s; intro; lra|]. intros _.
    exists (IZR (Zpos m) * bpow e)%R. split.
    + replace (Rabs (SFval (S754_finite s m e))) with (IZR (Zpos m) * bpow e)%R.
      * exists (Zpos (digits2_pos m) + e), (Zpos m).
        split; [exact Hb|]. rewrite Hc. split; [|reflexivity].
        exists (Zpos m). pose proof (bpow_gt_0 e).
        replace (IZR (Zpos m) * bpow e / bpow e)%R with (IZR (Zpos m))
          by (field; lra).
        split; [lra|]. left. split; [lra | reflexivity].
      * cbn [SFval]. destruct s.
        -- rewrite Rabs_Ropp, Rabs_pos_eq; lra.
        -- rewrite Rabs_pos_eq; lra.
    + split; [intros _|reflexivity].
      destruct Hb as [_ Hhi].
      assert (H : (bpow (Zpos (digits2_pos m) + e) <= bpow emax)%R)
        by (apply bpow_le; lia).
      lra.
Qed.

(** Subtraction overflows exactly when the rounded difference does. *)
Lemma SFsub_Bounded (x c : spec_float) :
  is_fin x = true -> is_fin c = true ->
  SpecFloat.valid_binary prec emax x = true ->
  SpecFloat.valid_binary prec emax c = true ->
  Bounded (SFval x - SFval c) (SFsub prec emax x c).
Proof.
  intros Fx Fc Vx Vc.
  destruct x as [sx|sx| |sx mx ex]; try discriminate;
    destruct c as [sc|sc| |sc mc ec]; try discriminate.
  - replace (SFval (S754_zero sx) - SFval (S754_zero sc))%R with 0%R
      by (cbn; lra).
    destruct sx, sc; apply Bounded_zero.
  - cbn [SFsub].
    replace (SFval (S754_zero sx) - SFval (S754_finite sc mc ec))%R
      with (SFval (S754_finite (negb sc) mc ec))
      by (cbn; destruct sc; cbn; lra).
    apply Bounded_exact; [exact Vc | reflexivity].
  - cbn [SFsub].
    replace (SFval (S754_finite sx mx ex) - SFval (S754_zero sc))%R
      with (SFval (S754_finite sx mx ex)) by (cbn [SFval]; lra).
    apply Bounded_exact; [exact Vx | reflexivity].
  - cbn [SFsub].
    set (ez := Z.min ex ec).
    pose proof (@shl_align_val mx ex ez ltac:(lia)) as Hx.
    pose proof (@shl_align_val mc ec ez ltac:(lia)) as Hc.
    set (X := Zpos (fst (shl_align mx ex ez))) in *.
    set (C := Zpos (fst (shl_align mc ec ez))) in *.
    replace (SFval (S754_finite sx mx ex) - SFval (S754_finite sc mc ec))%R
      with (IZR (cond_Zopp sx X - cond_Zopp sc C) * bpow ez)%R.
    + apply binary_normalize_Bounded.
    + rewrite minus_IZR. cbn [SFval].
      destruct sx, sc; cbn [cond_Zopp]; rewrite ?opp_IZR; lra.
Qed.

(** And so does multiplication by a float whose mantissa has all its
    digits. *)
Lemma SFmul_Bounded (x : spec_float) (sk : bool) (mk : positive) (ek : Z) :
  is_fin x = true ->
  prec <= Zpos (digits2_pos mk) ->
  Bounded (SFval x * SFval (S754_finite sk mk ek))
          (SFmul prec emax x (S754_finite sk mk ek)).
Proof.
  intros Fx Hk.
  destruct x as [sx|sx| |sx mx ex]; try discriminate; cbn [SFmul].
  - replace (SFval (S754_zero sx) * SFval (S754_finite sk mk ek))%R with 0%R
      by (cbn [SFval]; lra).
    apply Bounded_zero.
  - assert (Hd : prec <= Zpos (digits2_pos (mx * mk))).
    { pose proof (digits2_pos_bounds mk) as [Hlo _].
      pose proof (digits2_pos_bounds (mx * mk)) as [_ Hhi].
      rewrite Pos2Z.inj_mul in Hhi.
      assert (Zpos (digits2_pos mk) - 1 < Zpos (digits2_pos (mx * mk))).
      { apply (Z.pow_lt_mono_r_iff 2); [lia | lia | nia]. }
      lia. }
    assert (Hal : ex + ek <= fexp (Zpos (digits2_pos (mx * mk)) + (ex + ek))).
    { pose proof (fexp_ge (Zpos (digits2_pos (mx * mk)) + (ex + ek))). lia. }
    pose proof (@binary_round_aux_Bounded (xorb sx sk) (mx * mk) (ex + ek) Hal)
      as H.
    replace (SFval (S754_finite sx mx ex) * SFval (S754_finite sk mk ek))%R
      with (if xorb sx sk
            then (- (IZR (Zpos (mx * mk)) * bpow (ex + ek)))%R
            else (IZR (Zpos (mx * mk)) * bpow (ex + ek))%R);
      [exact H|].
    rewrite Pos2Z.inj_mul, mult_IZR, bpow_add. cbn [SFval].
    destruct sx, sk; cbn [xorb]; ring.
Qed.

(** A difference [x - c] with [x] between [x1] and [x2] is finite when the
    differences at the two ends are. *)
Lemma SFsub_between (x1 x x2 c : spec_float) :
  SpecFloat.valid_binary prec emax x1 = true ->
  SpecFloat.valid_binary prec emax x = true ->
  SpecFloat.valid_binary prec emax x2 = true ->
  SpecFloat.valid_binary prec emax c = true ->
  is_fin x1 = true -> is_fin x = true -> is_fin x2 = true ->
  is_fin c = true ->
  (SFval x1 <= SFval x <= SFval x2)%R ->
  is_fin (SFsub prec emax x1 c) = true ->
  is_fin (SFsub prec emax x2 c) = true ->
  is_fin (SFsub prec emax x c) = true.
Proof.
  intros V1 V V2 Vc F1 F F2 Fc [Hlo Hhi] R1 R2.
  pose proof (@SFsub_Bounded x1 c F1 Fc V1 Vc) as B1.
  pose proof (@SFsub_Bounded x c F Fc V Vc) as B.
  pose proof (@SFsub_Bounded x2 c F2 Fc V2 Vc) as B2.
  destruct (Rle_lt_dec 0 (SFval x - SFval c)) as [Hpos|Hneg].
  - apply (Bounded_mono (v1:=(SFval x - SFval c)%R)
             (v2:=(SFval x2 - SFval c)%R) (r2:=SFsub prec emax x2 c));
      try assumption.
    rewrite !Rabs_pos_eq; lra.
  - apply (Bounded_mono (v1:=(SFval x - SFval c)%R)
             (v2:=(SFval x1 - SFval c)%R) (r2:=SFsub prec emax x1 c));
      try assumption.
    rewrite !Rabs_left; lra.
Qed.

(** The same for a product by a positive float whose mantissa has all its
    digits. *)
Lemma SFmul_between (x1 x x2 : spec_float) (mk : positive) (ek : Z) :
  prec <= Zpos (digits2_pos mk) ->
  is_fin x1 = true -> is_fin x = true -> is_fin x2 = true ->
  (SFval x1 <= SFval x <= SFval x2)%R ->
  is_fin (SFmul prec emax x1 (S754_finite false mk ek)) = true ->
  is_fin (SFmul prec emax x2 (S754_finite false mk ek)) = true ->
  is_fin (SFmul prec emax x (S754_finite false mk ek)) = true.
Proof.
  intros Hk F1 F F2 [Hlo Hhi] R1 R2.
  pose proof (@SFmul_Bounded x1 false mk ek F1 Hk) as B1.
  pose proof (@SFmul_Bounded x false mk ek F Hk) as B.
  pose proof (@SFmul_Bounded x2 false mk ek F2 Hk) as B2.
  pose proof (mantissa_pos mk ek) as Hpos. cbn [SFval] in *.
  set (K := (IZR (Zpos mk) * bpow ek)%R) in *.
  destruct (Rle_lt_dec 0 (SFval x)) as [Hx|Hx].
  - apply (Bounded_mono (v1:=(SFval x * K)%R) (v2:=(SFval x2 * K)%R)
             (r2:=SFmul prec emax x2 (S754_finite false mk ek)));
      try assumption.
    rewrite !Rabs_pos_eq; try nra.
  - apply (Bounded_mono (v1:=(SFval x * K)%R) (v2:=(SFval x1 * K)%R)
             (r2:=SFmul prec emax x1 (S754_finite false mk ek)));
      try assumption.
    rewrite !Rabs_left; try nra.
Qed.

(** *** Multiplication by one *)

Definition SFone : spec_float :=
  S754_finite false (Z.to_pos (2 ^ (prec - 1))) (1 - prec).

Lemma SFmul_one_r (s : bool) (m : positive) (e : Z) :
  SpecFloat.valid_binary prec emax (S754_finite s m e) = true ->
  SFmul prec emax (S754_finite s m e) SFone = S754_finite s m e.
Proof.
  intro V. destruct (@valid_finite s m e V) as (Hc & Hb & Hd).
  unfold SFone. cbn [SFmul]. rewrite xorb_false_r.
  set (one := Z.to_pos (2 ^ (prec - 1))).
  assert (Hone : Zpos one = 2 ^ (prec - 1)).
  { unfold one. apply Z2Pos.id. apply Z.pow_pos_nonneg; lia. }
  assert (Hdig : Zpos (digits2_pos (m * one)) = Zpos (digits2_pos m) + (prec - 1)).
  { change (Zpos (digits2_pos (m * one))) with (Zdigits2 (Zpos (m * one))).
    apply digits_unique; [lia|]. rewrite Pos2Z.inj_mul, Hone.
    pose proof (digits2_pos_bounds m) as [Hlo Hhi].
    assert (0 < 2 ^ (prec - 1)) by (apply Z.pow_pos_nonneg; lia).
    replace (Zpos (digits2_pos m) + (prec - 1) - 1)
      with (Zpos (digits2_pos m) - 1 + (prec - 1)) by lia.
    rewrite !Z.pow_add_r by lia. nia. }
  assert (HE : fexp (Zpos (digits2_pos (m * one)) + (e + (1 - prec))) = e).
  { rewrite Hdig. rewrite <- Hc at 2. f_equal. lia. }
  assert (Hal : e + (1 - prec)
                <= fexp (Zpos (digits2_pos (m * one)) + (e + (1 - prec))))
    by (rewrite HE; lia).
  destruct (@binary_round_aux_spec s (m * one) (e + (1 - prec)) Hal)
    as [q' (Hrne & Hq & Hres)].
  rewrite Hres, HE. rewrite HE in Hrne.
  assert (Hx : (IZR (Zpos (m * one)) * bpow (e + (1 - prec)) / bpow e
                = IZR (Zpos m))%R).
  { rewrite Pos2Z.inj_mul, Hone, mult_IZR, <- bpow_IZR by lia.
    rewrite bpow_add. pose proof (bpow_gt_0 e).
    pose proof (bpow_opp (prec - 1)) as Hinv.
    replace (- (prec - 1)) with (1 - prec) in Hinv by lia.
    transitivity (IZR (Zpos m) * (bpow (prec - 1) * bpow (1 - prec))
                  * (bpow e / bpow e))%R; [field; lra|].
    rewrite Hinv. field. lra. }
  rewrite Hx in Hrne. apply RNE_exact in Hrne. subst q'.
  unfold pack.
  destruct (Z.eqb_spec (Zpos m) 0) as [E0|_]; [lia|].
  pose proof (digits2_pos_bounds m) as [_ Hhi].
  assert (Hlt : Zpos m < 2 ^ prec).
  { apply Z.lt_le_trans with (m := 2 ^ Zpos (digits2_pos m)); [exact Hhi|].
    apply Z.pow_le_mono_r; lia. }
  destruct (Z.ltb_spec (Zpos m) (2 ^ prec)) as [_|Hge]; [|lia].
  destruct (Z.leb_spec e (emax - prec)) as [_|Hgt]; [|lia].
  reflexivity.
Qed.

End Format.

(** *** Conversion to an integer *)

Lemma SFtrunc_spec (f : spec_float) :
  is_fin f = true ->
  exists z : Z,
    SFtrunc f = Some z /\
    ((0 <= SFval f)%R -> (IZR z <= SFval f < IZR z + 1)%R) /\
    ((SFval f <= 0)%R -> (IZR z - 1 < SFval f <= IZR z)%R).
Proof.
  destruct f as [s|s| |s m e]; try discriminate; intros _.
  - exists 0. cbn. repeat split; intros; lra.
  - set (t := match e with
              | Zneg p => Z.shiftr (Zpos m) (Zpos p)
              | _ => Z.shiftl (Zpos m) e
              end).
    assert (Ht : (IZR t <= IZR (Zpos m) * bpow e < IZR t + 1)%R).
    { unfold t. destruct e as [|p|p].
      - cbn [Z.shiftl]. unfold bpow. cbn [powerRZ]. lra.
      - rewrite Z.shiftl_mul_pow2 by lia.
        rewrite mult_IZR, <- bpow_IZR by lia. lra.
      - rewrite Z.shiftr_div_pow2 by lia.
        assert (HP : 0 < 2 ^ Zpos p) by (apply Z.pow_pos_nonneg; lia).
        pose proof (Z.div_mod (Zpos m) (2 ^ Zpos p) ltac:(lia)) as Hdm.
        pose proof (Z.mod_pos_bound (Zpos m) (2 ^ Zpos p) HP) as Hr.
        set (q := Zpos m / 2 ^ Zpos p) in *.
        set (r := Zpos m mod 2 ^ Zpos p) in *.
        pose proof (bpow_opp (Zpos p)) as Hinv.
        rewrite (@bpow_IZR (Zpos p)) in Hinv by lia.
        change (- Zpos p) with (Zneg p) in Hinv.
        assert (HPr : (0 < IZR (2 ^ Zpos p))%R) by (apply IZR_lt; lia).
        assert (Hm : (IZR (Zpos m) = IZR (2 ^ Zpos p) * IZR q + IZR r)%R)
          by (rewrite <- mult_IZR, <- plus_IZR; f_equal; exact Hdm).
        assert (Hr0 : (0 <= IZR r)%R) by (apply IZR_le; lia).
        assert (Hr1 : (IZR r < IZR (2 ^ Zpos p))%R) by (apply IZR_lt; lia).
        set (b := bpow (Zneg p)) in *. set (P := IZR (2 ^ Zpos p)) in *.
        assert (Hb : (0 < b)%R) by apply bpow_gt_0.
        rewrite Hm.
        assert (Heq : ((P * IZR q + IZR r) * b = IZR q + IZR r * b)%R).
        { transitivity (IZR q * (P * b) + IZR r * b)%R; [ring|].
          rewrite Hinv. ring. }
        assert (Hrb0 : (0 <= IZR r * b)%R) by nra.
        assert (Hrb1 : (IZR r * b < 1)%R) by nra.
        rewrite Heq. lra. }
    exists (cond_Zopp s t). split; [reflexivity|].
    pose proof (mantissa_pos m e) as Hpos. cbn [SFval].
    destruct s; cbn [cond_Zopp]; rewrite ?opp_IZR; split; intro; lra.
Qed.

Lemma SFtrunc_mono (x y : spec_float) (a b : Z) :
  is_fin x = true -> is_fin y = true ->
  (SFval x <= SFval y)%R ->
  SFtrunc x = Some a -> SFtrunc y = Some b -> a <= b.
Proof.
  intros Fx Fy Hle Ha Hb.
  destruct (SFtrunc_spec x Fx) as (a' & Ea & Pa & Na).
  destruct (SFtrunc_spec y Fy) as (b' & Eb & Pb & Nb).
  rewrite Ea in Ha. rewrite Eb in Hb. inversion Ha; inversion Hb; subst a' b'.
  destruct (Rle_or_lt 0 (SFval x)) as [Hx|Hx].
  - assert (Hy : (0 <= SFval y)%R) by lra.
    specialize (Pa Hx). specialize (Pb Hy).
    assert (a < b + 1) by (apply lt_IZR; rewrite plus_IZR; lra). lia.
  - assert (Hx' : (SFval x <= 0)%R) by lra. specialize (Na Hx').
    destruct (Rle_or_lt (SFval y) 0) as [Hy|Hy].
    + specialize (Nb Hy).
      assert (a - 1 < b) by (apply lt_IZR; rewrite minus_IZR; lra). lia.
    + assert (Hy' : (0 <= SFval y)%R) by lra. specialize (Pb Hy').
      assert (a - 1 < 0) by (apply lt_IZR; rewrite minus_IZR; lra).
      assert (-1 < b) by (apply lt_IZR; lra). lia.
Qed.

(** *** Results that are numbers *)

Definition is_nan (f : spec_float) : bool :=
  match f with S754_nan => true | _ => false end.

Lemma shr_1_keeps_nonneg (mrs : shr_record) :
  0 <= shr_m mrs -> 0 <= shr_m (shr_1 mrs).
Proof.
  destruct mrs as [m r s]. cbn [shr_m]. intro Hm.
  rewrite (shr_1_nonneg r s Hm). cbn [shr_m].
  rewrite Z.div2_div. apply Z.div_pos; lia.
Qed.

Lemma shr_keeps_nonneg (mrs : shr_record) (e n : Z) :
  0 <= shr_m mrs -> 0 <= shr_m (fst (shr mrs e n)).
Proof.
  intro Hm. destruct n as [|p|p]; cbn [shr fst]; try exact Hm.
  exact (@iter_pos_inv _ shr_1 (fun _ y => 0 <= shr_m y)
           (fun k y _ Hy => shr_1_keeps_nonneg y Hy) p 0 mrs (Z.le_refl 0) Hm).
Qed.

Lemma shr_fexp_keeps_nonneg (prec emax m e : Z) (l : location) :
  0 <= m -> 0 <= shr_m (fst (shr_fexp prec emax m e l)).
Proof.
  intro Hm. unfold shr_fexp. apply shr_keeps_nonneg.
  destruct l as [|[ | | ]]; exact Hm.
Qed.

Lemma round_nearest_even_nonneg (m : Z) (l : location) :
  0 <= m -> 0 <= round_nearest_even m l.
Proof.
  intro Hm. destruct l as [|[ | | ]]; cbn [round_nearest_even]; try lia.
  destruct (Z.even m); lia.
Qed.

(** Rounding a mantissa never gives a NaN. *)
Lemma binary_round_aux_number (prec emax : Z) (s : bool) (m : positive)
  (e : Z) (l : location) :
  is_nan (binary_round_aux prec emax s (Zpos m) e l) = false.
Proof.
  unfold binary_round_aux.
  pose proof (@shr_fexp_keeps_nonneg prec emax (Zpos m) e l ltac:(lia)) as H1.
  destruct (shr_fexp prec emax (Zpos m) e l) as [mrs' e']. cbn [fst] in H1.
  pose proof (round_nearest_even_nonneg (loc_of_shr_record mrs') H1) as H2.
  pose proof (@shr_fexp_keeps_nonneg prec emax _ e' loc_Exact H2) as H3.
  destruct (shr_fexp prec emax
              (round_nearest_even (shr_m mrs') (loc_of_shr_record mrs'))
              e' loc_Exact) as [mrs'' e''].
  cbn [fst] in H3.
  destruct (shr_m mrs'') as [|q|q]; [reflexivity| |lia].
  destruct (e'' <=? emax - prec); reflexivity.
Qed.

(** The product of two floats that are zero or finite is a number. *)
Lemma SFmul_number (prec emax : Z) (x y : spec_float) :
  is_fin x = true -> is_fin y = true ->
  is_nan (SFmul prec emax x y) = false.
Proof.
  destruct x as [sx|sx| |sx mx ex], y as [sy|sy| |sy my ey];
    try discriminate; intros _ _; try reflexivity.
  apply binary_round_aux_number.
Qed.

End Rounding.

(** ** TimeBase (lines 389-398, 447-448, 487-488, 691-692, 739-745) *)

Module TimeBase.

Section Base.
Context {F : Type} {scalar : Scalar F}.

(** [_ros_time_base] is an [rclcpp::Time], a count of nanoseconds;
    [_camera_time_base] is the device time of the first frame, in
    milliseconds. *)
Record t : Type := mk {
  _is_initialized_time_base : bool;
  _ros_time_base : Z;
  _camera_time_base : F
}.

(** [now] is the value of [_node.now()]. *)
Definition setBaseTime (now : Z) (frame_time : F) (s : t) : t :=
  mk (_is_initialized_time_base s) now frame_time.

(** The head of every callback: [compare_exchange_strong(false, true)] on
    [_is_initialized_time_base], and [setBaseTime] for the caller that
    flipped it. *)
Definition anchor (now : Z) (frame_time : F) (s : t) : t :=
  if _is_initialized_time_base s then s
  else setBaseTime now frame_time
         (mk true (_ros_time_base s) (_camera_time_base s)).

Definition elapsed_camera_ns (s : t) (frame_time : F) : F :=
  ((frame_time - _camera_time_base s) * sc_of_Z 1000000)%sc.

(** [rclcpp::Time(_ros_time_base + rclcpp::Duration(elapsed_camera_ns))]: a
    duration is a 64-bit count of nanoseconds, so the [double] is converted to
    an integer, which discards its fraction; [None] stands for a conversion
    that is not defined or a sum that does not fit. *)
Definition to_host_time (s : t) (frame_time : F) : option Z :=
  match sc_trunc (elapsed_camera_ns s frame_time) with
  | Some ns =>
      if in_int64 ns && in_int64 (_ros_time_base s + ns) then
        Some (_ros_time_base s + ns)%Z
      else None
  | None => None
  end.

(** When a stamp exists, and what it is. *)
Lemma to_host_time_spec (s : t) (frame_time : F) (stamp : Z) :
  to_host_time s frame_time = Some stamp <->
  exists ns : Z,
    sc_trunc (elapsed_camera_ns s frame_time) = Some ns /\
    in_int64 ns = true /\
    in_int64 (_ros_time_base s + ns) = true /\
    stamp = (_ros_time_base s + ns)%Z.
Proof.
  unfold to_host_time. split.
  - destruct (sc_trunc (elapsed_camera_ns s frame_time)) as [ns|];
      [|discriminate].
    destruct (in_int64 ns) eqn:H1; [|discriminate].
    destruct (in_int64 (_ros_time_base s + ns)) eqn:H2; [|discriminate].
    cbn [andb]. intro H. inversion H. exists ns. repeat split; assumption.
  - intros (ns & Hns & H1 & H2 & Hst). rewrite Hns, H1, H2, Hst. reflexivity.
Qed.

End Base.

Open Scope Z_scope.

(** *** Stamps in double precision *)

(** The scale factor of lines 397, 447, 487 and 691. *)
Lemma million_finite :
  Prim2SF (@sc_of_Z float double 1000000) =
  S754_finite false 8589934592000000 (-33).
Proof. vm_compute. reflexivity. Qed.

Lemma million_double : @sc_of_Z float double 1000000 = 1000000%float.
Proof. vm_compute. reflexivity. Qed.

Lemma SFmul_fin (x : spec_float) (s : bool) (m : positive) (e : Z) :
  Rounding.is_fin (SFmul prec emax x (S754_finite s m e)) = true ->
  Rounding.is_fin x = true.
Proof. destruct x; cbn; congruence. Qed.

Lemma SFsub_fin (x c : spec_float) :
  Rounding.is_fin (SFsub prec emax x c) = true ->
  Rounding.is_fin x = true /\ Rounding.is_fin c = true.
Proof.
  destruct x as [sx|sx| |sx mx ex], c as [sc|sc| |sc mc ec]; cbn;
    try (split; congruence); try (destruct sx, sc; cbn; split; congruence).
Qed.

Lemma SFtrunc_fin (x : spec_float) (n : Z) :
  SFtrunc x = Some n -> Rounding.is_fin x = true.
Proof. destruct x; cbn; congruence. Qed.

(** The count of nanoseconds of the elapsed device time is monotone in the
    device time: the subtraction, the multiplication and the conversion to
    an integer are each monotone. *)
Lemma elapsed_ns_monotone (s : @t float) (d1 d2 : float) (n1 n2 : Z) :
  (d1 <=? d2)%float = true ->
  sc_trunc (elapsed_camera_ns s d1) = Some n1 ->
  sc_trunc (elapsed_camera_ns s d2) = Some n2 ->
  n1 <= n2.
Proof.
  unfold elapsed_camera_ns. cbn [sc_trunc sc_mul sc_sub double].
  rewrite leb_spec, !mul_spec, !sub_spec, million_finite.
  unfold SF64mul, SF64sub.
  set (x1 := Prim2SF d1). set (x2 := Prim2SF d2).
  set (c := Prim2SF (_camera_time_base s)).
  intros Hle H1 H2.
  assert (Hp : 0 < prec) by (unfold prec; lia).
  pose proof (Prim2SF_valid d1) as V1. pose proof (Prim2SF_valid d2) as V2.
  pose proof (Prim2SF_valid (_camera_time_base s)) as Vc.
  fold x1 in V1. fold x2 in V2. fold c in Vc.
  pose proof (SFtrunc_fin _ H1) as F1. pose proof (SFtrunc_fin _ H2) as F2.
  pose proof (SFmul_fin _ _ _ _ F1) as G1. pose proof (SFmul_fin _ _ _ _ F2) as G2.
  destruct (SFsub_fin _ _ G1) as [Fx1 Fc]. destruct (SFsub_fin _ _ G2) as [Fx2 _].
  apply (Rounding.SFtrunc_mono _ _ F1 F2); [|exact H1|exact H2].
  apply Rounding.SFmul_mono; try assumption.
  - vm_compute. discriminate.
  - apply Rounding.SFsub_mono; try assumption.
    now apply (Rounding.SFleb_val prec emax).
Qed.

(** A device time between two finite device times is finite. *)
Lemma SFleb_between_fin (x1 x x2 : spec_float) :
  Rounding.is_fin x1 = true -> Rounding.is_fin x2 = true ->
  SFleb x1 x = true -> SFleb x x2 = true -> Rounding.is_fin x = true.
Proof.
  destruct x as [s|s| |s m e]; try reflexivity.
  - destruct x1 as [s1|s1| |s1 m1 e1], x2 as [s2|s2| |s2 m2 e2];
      try discriminate; destruct s; cbn; try discriminate;
      try (destruct s1; discriminate); try (destruct s2; discriminate).
  - destruct x1; discriminate.
Qed.

(** Every finite [double] converts to an integer. *)
Lemma SFtrunc_total (x : spec_float) :
  Rounding.is_fin x = true -> exists n, SFtrunc x = Some n.
Proof. destruct x; try discriminate; intros _; eexists; reflexivity. Qed.

Lemma in_int64_between (lo z hi : Z) :
  in_int64 lo = true -> in_int64 hi = true -> lo <= z <= hi ->
  in_int64 z = true.
Proof.
  unfold in_int64. intros Hlo Hhi Hz.
  apply andb_true_iff in Hlo. apply andb_true_iff in Hhi.
  destruct Hlo as [L1 _]. destruct Hhi as [_ H2].
  apply Z.leb_le in L1. apply Z.leb_le in H2.
  apply andb_true_iff. split; apply Z.leb_le; lia.
Qed.

(** Between two device times whose elapsed time converts to a count of
    nanoseconds, every device time does: neither the subtraction nor the
    multiplication overflows there. *)
Lemma elapsed_ns_between (s : @t float) (d1 d d2 : float) (n1 n2 : Z) :
  (d1 <=? d)%float = true -> (d <=? d2)%float = true ->
  sc_trunc (elapsed_camera_ns s d1) = Some n1 ->
  sc_trunc (elapsed_camera_ns s d2) = Some n2 ->
  exists n, sc_trunc (elapsed_camera_ns s d) = Some n /\ n1 <= n <= n2.
Proof.
  unfold elapsed_camera_ns. cbn [sc_trunc sc_mul sc_sub double].
  rewrite !leb_spec, !mul_spec, !sub_spec, million_finite.
  unfold SF64mul, SF64sub.
  set (x1 := Prim2SF d1). set (x := Prim2SF d). set (x2 := Prim2SF d2).
  set (c := Prim2SF (_camera_time_base s)).
  intros Hle1 Hle2 H1 H2.
  assert (Hp : 0 < prec) by (unfold prec; lia).
  assert (He : 2 <= emax) by (unfold emax; lia).
  assert (Hk : prec <= Zpos (digits2_pos 8589934592000000))
    by (vm_compute; discriminate).
  pose proof (Prim2SF_valid d1) as V1. pose proof (Prim2SF_valid d) as V.
  pose proof (Prim2SF_valid d2) as V2.
  pose proof (Prim2SF_valid (_camera_time_base s)) as Vc.
  fold x1 in V1. fold x in V. fold x2 in V2. fold c in Vc.
  pose proof (SFtrunc_fin _ H1) as F1. pose proof (SFtrunc_fin _ H2) as F2.
  pose proof (SFmul_fin _ _ _ _ F1) as G1. pose proof (SFmul_fin _ _ _ _ F2) as G2.
  destruct (SFsub_fin _ _ G1) as [Fx1 Fc]. destruct (SFsub_fin _ _ G2) as [Fx2 _].
  pose proof (SFleb_between_fin x1 x x2 Fx1 Fx2 Hle1 Hle2) as Fx.
  pose proof (Rounding.SFleb_val prec emax x1 x V1 V Fx1 Fx Hle1) as Hv1.
  pose proof (Rounding.SFleb_val prec emax x x2 V V2 Fx Fx2 Hle2) as Hv2.
  assert (G : Rounding.is_fin (SFsub prec emax x c) = true).
  { apply (@Rounding.SFsub_between prec emax Hp He x1 x x2 c);
      try assumption. split; assumption. }
  pose proof (@Rounding.SFsub_mono prec emax Hp x1 x c V1 V Vc Fx1 Fx Fc G1 G Hv1)
    as Hs1.
  pose proof (@Rounding.SFsub_mono prec emax Hp x x2 c V V2 Vc Fx Fx2 Fc G G2 Hv2)
    as Hs2.
  assert (Fm : Rounding.is_fin
                 (SFmul prec emax (SFsub prec emax x c)
                    (S754_finite false 8589934592000000 (-33))) = true).
  { apply (@Rounding.SFmul_between prec emax Hp He
             (SFsub prec emax x1 c) (SFsub prec emax x c)
             (SFsub prec emax x2 c));
      try assumption. split; assumption. }
  destruct (SFtrunc_total _ Fm) as [n Hn]. exists n. split; [exact Hn|].
  split.
  - apply (Rounding.SFtrunc_mono _ _ F1 Fm); [|exact H1|exact Hn].
    apply Rounding.SFmul_mono; assumption.
  - apply (Rounding.SFtrunc_mono _ _ Fm F2); [|exact Hn|exact H2].
    apply Rounding.SFmul_mono; assumption.
Qed.

(** C4, as amended.  After the time base is set, a device time [d] is
    stamped [host_anchor + n]; [n] is the [double] product
    [(d - device_anchor) * 1000000], the subtraction and the multiplication
    each rounded to [double], converted to a 64-bit integer, which discards
    its fraction.  The stamp exists exactly when the product is finite and
    [n] and [host_anchor + n] fit 64 bits.  The mapping is monotone: device
    times [d1 <= d2] that both get a stamp get stamps [t1 <= t2].  And every
    device time between two device times that get a stamp gets one, between
    theirs. *)
Theorem to_host_time_monotone (s : @t float) :
  (forall (d : float) (stamp : Z),
      to_host_time s d = Some stamp <->
      exists n : Z,
        SFtrunc (Prim2SF ((d - _camera_time_base s) * 1000000)%float) = Some n /\
        in_int64 n = true /\
        in_int64 (_ros_time_base s + n) = true /\
        stamp = _ros_time_base s + n)
  /\
  (forall (d1 d2 : float) (t1 t2 : Z),
      (d1 <=? d2)%float = true ->
      to_host_time s d1 = Some t1 ->
      to_host_time s d2 = Some t2 ->
      t1 <= t2)
  /\
  (forall (d1 d d2 : float) (t1 t2 : Z),
      (d1 <=? d)%float = true ->
      (d <=? d2)%float = true ->
      to_host_time s d1 = Some t1 ->
      to_host_time s d2 = Some t2 ->
      exists stamp : Z, to_host_time s d = Some stamp /\ t1 <= stamp <= t2).
Proof.
  split; [|split].
  - intros d stamp. pose proof (to_host_time_spec s d stamp) as H.
    unfold elapsed_camera_ns in H. cbn [sc_trunc sc_mul sc_sub double] in H.
    rewrite million_double in H. exact H.
  - intros d1 d2 t1 t2 Hle H1 H2.
    apply to_host_time_spec in H1. apply to_host_time_spec in H2.
    destruct H1 as (n1 & E1 & _ & _ & ->). destruct H2 as (n2 & E2 & _ & _ & ->).
    pose proof (@elapsed_ns_monotone s d1 d2 n1 n2 Hle E1 E2). lia.
  - intros d1 d d2 t1 t2 Hle1 Hle2 H1 H2.
    apply to_host_time_spec in H1. apply to_host_time_spec in H2.
    destruct H1 as (n1 & E1 & I1 & J1 & ->).
    destruct H2 as (n2 & E2 & I2 & J2 & ->).
    destruct (@elapsed_ns_between s d1 d d2 n1 n2 Hle1 Hle2 E1 E2)
      as (n & En & Hn).
    exists (_ros_time_base s + n). split; [|lia].
    apply to_host_time_spec. exists n. repeat split; try assumption.
    + exact (@in_int64_between n1 n n2 I1 I2 Hn).
    + apply (@in_int64_between (_ros_time_base s + n1) (_ros_time_base s + n)
               (_ros_time_base s + n2) J1 J2). lia.
Qed.

(** The time base of the examples: host clock at 1 000 000 ns when the first
    frame, stamped 100 ms by the device, arrives. *)
Definition anchored_double : @t float :=
  anchor 1000000 100%float (mk false 0 0%float).

(** The rational number a finite [double] stands for. *)
Definition Q_of_double (x : float) : Q :=
  match Prim2SF x with
  | S754_finite s m e =>
      let v := (inject_Z (Zpos m) * Qpower 2 e)%Q in
      if s then Qopp v else v
  | _ => 0%Q
  end.

(** The time base of the second example: the first frame is stamped with the
    [double] nearest to 285.281 ms by the device. *)
Definition anchored_double' : @t float :=
  anchor 1000000 0x1.1d47ef9db22d1p+8%float (mk false 0 0%float).

(** C4 as stated fails, in double precision.
    - [d1] and [d2] are the [double]s nearest to 100.0001005 ms and
      100.001 ms, both after the anchor at 100 ms.  They are stamped 100 ns
      and 1000 ns after the host anchor, 900 ns apart, while [d2 - d1] scaled
      to nanoseconds is 899.5000000027...: the exact product lies strictly
      between 899 and 900, and the [double] product is below 900 as well.
    - With the anchor [c] at 285.281 ms, the frame [d] at 797.34 ms is
      stamped 512 058 999 ns after the frame at the anchor, while [d - c]
      scaled to nanoseconds lies between 512 059 000 and 512 059 001: no
      rounding of it to an integer is the difference of the stamps.
    - 100 ms and 100 + 2^-21 ms are different device times with the same
      stamp, so the mapping is not strictly monotone. *)
Lemma to_host_time_difference_not_exact :
  let d1 := 0x1.90001a5870da6p+6%float in
  let d2 := 0x1.90010624dd2f2p+6%float in
  let c := 0x1.1d47ef9db22d1p+8%float in
  let d := 0x1.8eab851eb851fp+9%float in
  ((d1 <? d2)%float = true /\
   to_host_time anchored_double d1 = Some 1000100 /\
   to_host_time anchored_double d2 = Some 1001000 /\
   ~ (inject_Z (1001000 - 1000100)
      == (Q_of_double d2 - Q_of_double d1) * 1000000)%Q /\
   (899 < (Q_of_double d2 - Q_of_double d1) * 1000000)%Q /\
   ((Q_of_double d2 - Q_of_double d1) * 1000000 < 900)%Q /\
   ((d2 - d1) * 1000000 <? 900)%float = true)
  /\
  ((c <? d)%float = true /\
   to_host_time anchored_double' c = Some 1000000 /\
   to_host_time anchored_double' d = Some 513058999 /\
   513058999 - 1000000 = 512058999 /\
   (512059000 <= (Q_of_double d - Q_of_double c) * 1000000)%Q /\
   ((Q_of_double d - Q_of_double c) * 1000000 < 512059001)%Q)
  /\
  ((100 <? 100 + 0x1p-21)%float = true /\
   to_host_time anchored_double 100%float = Some 1000000 /\
   to_host_time anchored_double (100 + 0x1p-21)%float = Some 1000000).
Proof.
  cbv zeta. repeat split; try (vm_compute; reflexivity);
    vm_compute; discriminate.
Qed.

Lemma to_host_time_monotone_witness :
  (to_host_time anchored_double 0x1.90001a5870da6p+6%float = Some 1000100 /\
   to_host_time anchored_double 0x1.90010624dd2f2p+6%float = Some 1001000 /\
   1000100 <= 1001000) /\
  (exists stamp : Z,
      to_host_time anchored_double 0x1.90001a5870da6p+6%float = Some stamp /\
      1000000 <= stamp <= 1001000).
Proof.
  split.
  - split; [reflexivity|]. split; [reflexivity|].
    exact (proj1 (proj2 (to_host_time_monotone anchored_double))
             0x1.90001a5870da6p+6%float 0x1.90010624dd2f2p+6%float
             1000100 1001000 eq_refl eq_refl eq_refl).
  - exact (proj2 (proj2 (to_host_time_monotone anchored_double))
             100%float 0x1.90001a5870da6p+6%float 0x1.90010624dd2f2p+6%float
             1000000 1001000 eq_refl eq_refl eq_refl eq_refl).
Defined.

Close Scope Z_scope.

End TimeBase.

(** ** DepthPostProcessor: [clip_depth] (lines 262-285, 592-597) *)

Module Depth.

(** [static_cast<uint16_t>] of a floating-point value: the fraction is
    discarded, and the conversion is defined only when what is left fits in
    16 bits. *)
Definition static_cast_uint16 {F : Type} {scalar : Scalar F} (x : F)
  : option Z :=
  match sc_trunc x with
  | Some z => if ((0 <=? z) && (z <=? 65535))%Z then Some z else None
  | None => None
  end.

Fixpoint set_nth {A : Type} (i : nat) (v : A) (l : list A) : list A :=
  match i, l with
  | _, [] => []
  | O, _ :: tl => v :: tl
  | S i', hd :: tl => hd :: set_nth i' v tl
  end.

(** A depth frame: its 16-bit samples, row after row. *)
Record depth_frame : Type := mk_frame {
  get_data : list Z;
  get_width : nat;
  get_height : nat
}.

(** The body of the inner loop (lines 278-282). *)
Definition clip_pixel (clipping_value : Z) (depth_pixel_index : nat)
  (p_depth_frame : list Z) : list Z :=
  match nth_error p_depth_frame depth_pixel_index with
  | Some v =>
      if (clipping_value <? v)%Z then set_nth depth_pixel_index 0%Z p_depth_frame
      else p_depth_frame
  | None => p_depth_frame
  end.

(** [for (int x = 0; x < width; x++, ++depth_pixel_index)], [todo] turns
    left. *)
Fixpoint clip_row (clipping_value : Z) (todo depth_pixel_index : nat)
  (p_depth_frame : list Z) : list Z :=
  match todo with
  | O => p_depth_frame
  | S todo' =>
      clip_row clipping_value todo' (S depth_pixel_index)
        (clip_pixel clipping_value depth_pixel_index p_depth_frame)
  end.

(** [for (int y = 0; y < height; y++)], [todo] turns left. *)
Fixpoint clip_rows (clipping_value : Z) (width todo y : nat)
  (p_depth_frame : list Z) : list Z :=
  match todo with
  | O => p_depth_frame
  | S todo' =>
      clip_rows clipping_value width todo' (S y)
        (clip_row clipping_value width (y * width) p_depth_frame)
  end.

Section Clip.
Context {F : Type} {scalar : Scalar F}.

Definition clip_depth (_depth_scale_meters : F) (frame : depth_frame)
  (clipping_dist : F) : option depth_frame :=
  match static_cast_uint16 (clipping_dist / _depth_scale_meters)%sc with
  | Some clipping_value =>
      Some (mk_frame
              (clip_rows clipping_value (get_width frame) (get_height frame) 0
                 (get_data frame))
              (get_width frame) (get_height frame))
  | None => None
  end.

(** The guard of lines 594-597 and 702-705. *)
Definition clip_if_enabled (_depth_scale_meters _clipping_distance : F)
  (frame : depth_frame) : option depth_frame :=
  if (sc_zero <? _clipping_distance)%sc then
    clip_depth _depth_scale_meters frame _clipping_distance
  else Some frame.

End Clip.

(** *** The clipping rule *)

Definition clipped (clipping_value v : Z) : Z :=
  if (clipping_value <? v)%Z then 0%Z else v.

Lemma set_nth_middle {A : Type} (pre post : list A) (x v : A) :
  set_nth (length pre) v (pre ++ x :: post) = pre ++ v :: post.
Proof. induction pre as [|a pre IH]; simpl; [reflexivity | now rewrite IH]. Qed.

Lemma nth_error_middle {A : Type} (pre post : list A) (x : A) :
  nth_error (pre ++ x :: post) (length pre) = Some x.
Proof. induction pre as [|a pre IH]; simpl; [reflexivity | exact IH]. Qed.

Lemma clip_pixel_middle (cv : Z) (pre post : list Z) (x : Z) :
  clip_pixel cv (length pre) (pre ++ x :: post) = pre ++ clipped cv x :: post.
Proof.
  unfold clip_pixel, clipped. rewrite nth_error_middle.
  destruct (cv <? x)%Z; [apply set_nth_middle | reflexivity].
Qed.

Lemma clip_row_segment (cv : Z) (seg : list Z) :
  forall pre post,
    clip_row cv (length seg) (length pre) (pre ++ seg ++ post) =
    pre ++ map (clipped cv) seg ++ post.
Proof.
  induction seg as [|x seg IH]; intros pre post; simpl; [reflexivity|].
  rewrite clip_pixel_middle.
  replace (S (length pre)) with (length (pre ++ [clipped cv x]))
    by (rewrite length_app; simpl; lia).
  replace (pre ++ clipped cv x :: seg ++ post)
    with ((pre ++ [clipped cv x]) ++ seg ++ post)
    by (rewrite <- app_assoc; reflexivity).
  rewrite IH, <- app_assoc. reflexivity.
Qed.

Lemma clip_rows_rest (cv : Z) (width : nat) :
  forall todo y done rest,
    length done = y * width ->
    length rest = todo * width ->
    clip_rows cv width todo y (done ++ rest) = done ++ map (clipped cv) rest.
Proof.
  induction todo as [|todo IH]; intros y done rest Hdone Hrest; simpl.
  - destruct rest; [reflexivity | discriminate].
  - simpl in Hrest.
    rewrite <- (firstn_skipn width rest) at 1.
    assert (Hseg : length (firstn width rest) = width)
      by (rewrite length_firstn; lia).
    rewrite <- Hdone, <- Hseg at 1.
    rewrite Hseg at 1.
    rewrite <- Hseg at 2.
    rewrite clip_row_segment.
    rewrite app_assoc, IH.
    + rewrite <- app_assoc, <- map_app, firstn_skipn. reflexivity.
    + rewrite length_app, length_map, Hdone, Hseg. simpl. lia.
    + rewrite length_skipn. lia.
Qed.

(** Every sample of a full frame is visited once; a sample above the
    threshold becomes 0, any other keeps its value. *)
Lemma clip_rows_map (cv : Z) (width height : nat) (data : list Z) :
  length data = height * width ->
  clip_rows cv width height 0 data = map (clipped cv) data.
Proof. intro H. exact (@clip_rows_rest cv width height 0 [] data eq_refl H). Qed.

(** What holds of C6 for every scalar type: with a defined threshold
    [clipping_value], the integer part of [clipping_dist / depth_scale],
    [clip_depth] zeroes exactly the samples above it; and a clipping distance
    that is not positive leaves the frame alone. *)
Lemma clip_depth_rule {F : Type} {scalar : Scalar F}
  (scale dist : F) (frame : depth_frame) (clipping_value : Z) :
  length (get_data frame) = get_height frame * get_width frame ->
  static_cast_uint16 (dist / scale)%sc = Some clipping_value ->
  clip_depth scale frame dist =
  Some (mk_frame (map (clipped clipping_value) (get_data frame))
          (get_width frame) (get_height frame)).
Proof.
  intros Hlen Hcast. unfold clip_depth. rewrite Hcast.
  now rewrite clip_rows_map.
Qed.

Lemma clip_if_enabled_off {F : Type} {scalar : Scalar F}
  (scale dist : F) (frame : depth_frame) :
  (sc_zero <? dist)%sc = false ->
  clip_if_enabled scale dist frame = Some frame.
Proof. intro H. unfold clip_if_enabled. now rewrite H. Qed.

(** *** Depth scale 0.001 and clipping distance 1.0 *)

(** The [float] nearest to 0.001, which is what a depth scale of one
    millimetre is in single precision, and the value of [meter_to_mm = 0.001f]
    that line 225 compares the depth scale with: 8589935 * 2^-33. *)
Definition milli_single : spec_float := S754_finite false 8589935 (-33).

Lemma milli_single_is_nearest :
  milli_single = @sc_div _ single (sc_of_Z 1) (sc_of_Z 1000) /\
  (Qabs ((8589935 # 1) / inject_Z (2 ^ 33) - (1 # 1000))
   < (1 # 2) / inject_Z (2 ^ 33))%Q.
Proof. split; [reflexivity|]. vm_compute. reflexivity. Qed.

(** The executable specification used for [float] is the one the primitive
    [double] operations are specified by; at 53 bits it computes what the
    hardware computes. *)
Lemma SFdiv_agrees_with_primitive_division :
  Prim2SF (1 / SF2Prim milli_single)%float =
  SFdiv 53 1024 (Prim2SF 1%float) (Prim2SF (SF2Prim milli_single)) /\
  Prim2SF (1 / SF2Prim milli_single)%float =
  S754_finite false 8796092604416020 (-43).
Proof. split; vm_compute; reflexivity. Qed.

Definition three_samples : depth_frame := mk_frame [999; 1000; 1001]%Z 3 1.

(** C6 at depth scale 0.001 and clipping distance 1.0, in the arithmetic of
    the code.  [clipping_dist] is a [float]; the quotient 1.0f / 0.001f is
    16383999 * 2^-14 = 999.99993896..., below 1000, and the cast discards the
    fraction: the threshold is 999, and a sample of raw value 1000 is zeroed.
    The outcome is the same when the scale is the same single-precision value
    held in a [double].  In exact arithmetic the threshold would be 1000. *)
Theorem clip_depth_threshold_at_one_metre :
  @sc_div _ single sc_one milli_single = S754_finite false 16383999 (-14) /\
  static_cast_uint16 (@sc_div _ single sc_one milli_single) = Some 999%Z /\
  clip_if_enabled milli_single (@sc_one _ single) three_samples =
  Some (mk_frame [999; 0; 0]%Z 3 1) /\
  clip_if_enabled (SF2Prim milli_single) (@sc_one _ double) three_samples =
  Some (mk_frame [999; 0; 0]%Z 3 1) /\
  clip_if_enabled (@sc_div _ exact (sc_of_Z 1) (sc_of_Z 1000)) (@sc_one _ exact)
    three_samples =
  Some (mk_frame [999; 1000; 0]%Z 3 1).
Proof. repeat split; vm_compute; reflexivity. Qed.

End Depth.

(** ** Frame callback (lines 559-719) *)

Module FrameCallback.

(** What the callback reads of an [rs2::frame]: whether it is a point cloud
    ([is<rs2::points>]), a depth frame, and its profile. *)
Record frame : Type := mk_frame {
  is_points : bool;
  is_depth_frame : bool;
  stream_type : rs2_stream;
  stream_index : Z;
  stream_format : rs2_format;
  unique_id : nat
}.

Definition sip_of (f : frame) : stream_index_pair :=
  (stream_type f, stream_index f).

(** *** The loop of lines 630-658 *)

Record dedup_locals : Type := mk_dedup {
  points_in_set : bool;
  frames_to_publish : list frame;
  is_in_set : list stream_index_pair;
  is_depth_arrived : bool
}.

Definition dedup_init : dedup_locals := mk_dedup false [] [] false.

(** [std::find(is_in_set.begin(), is_in_set.end(), sip) == is_in_set.end()] *)
Definition not_found (sip : stream_index_pair) (v : list stream_index_pair)
  : bool :=
  negb (existsb (sip_eqb sip) v).

Definition dedup_step (_align_depth : bool) (l : dedup_locals) (f : frame)
  : dedup_locals :=
  if is_points f then
    if negb (points_in_set l) then
      mk_dedup true (frames_to_publish l ++ [f]) (is_in_set l)
               (is_depth_arrived l)
    else l
  else
    let sip := sip_of f in
    let l' :=
      if not_found sip (is_in_set l) then
        mk_dedup (points_in_set l) (frames_to_publish l ++ [f])
                 (is_in_set l ++ [sip]) (is_depth_arrived l)
      else l in
    if _align_depth
       && rs2_stream_eqb (stream_type f) RS2_STREAM_DEPTH
       && rs2_format_eqb (stream_format f) RS2_FORMAT_Z16 then
      mk_dedup (points_in_set l') (frames_to_publish l') (is_in_set l') true
    else l'.

Definition dedup (_align_depth : bool) (frameset : list frame) : dedup_locals :=
  fold_left (dedup_step _align_depth) frameset dedup_init.

(** A frame that is not a point cloud and has stream identity [sip]. *)
Definition has_identity (sip : stream_index_pair) (f : frame) : bool :=
  negb (is_points f) && sip_eqb (sip_of f) sip.

(** *** Properties of the loop *)

Lemma sip_eqb_sym (a b : stream_index_pair) : sip_eqb a b = sip_eqb b a.
Proof.
  destruct (sip_eqb_spec a b) as [H|H], (sip_eqb_spec b a) as [H'|H'];
    congruence.
Qed.

Lemma filter_none {A : Type} (p : A -> bool) (l : list A) :
  existsb p l = false -> filter p l = [].
Proof.
  induction l as [|a l IH]; simpl; [reflexivity|].
  destruct (p a); simpl; [discriminate | exact IH].
Qed.

Lemma filter_some {A : Type} (p : A -> bool) (l : list A) :
  existsb p l = true -> filter p l <> [].
Proof.
  induction l as [|a l IH]; simpl; [discriminate|].
  destruct (p a); simpl; [discriminate | exact IH].
Qed.

Lemma firstn_1_app {A : Type} (l l' : list A) :
  l <> [] -> firstn 1 (l ++ l') = firstn 1 l.
Proof. destruct l; [congruence | reflexivity]. Qed.

(** What the locals hold once the frames [seen] have been visited. *)
Record dedup_inv (seen : list frame) (l : dedup_locals) : Prop := {
  inv_points : points_in_set l = existsb is_points seen;
  inv_sips : forall sip,
    existsb (sip_eqb sip) (is_in_set l) = existsb (has_identity sip) seen;
  inv_kept_points :
    filter is_points (frames_to_publish l) = firstn 1 (filter is_points seen);
  inv_kept_identity : forall sip,
    filter (has_identity sip) (frames_to_publish l) =
    firstn 1 (filter (has_identity sip) seen);
  inv_incl : incl (frames_to_publish l) seen
}.

Lemma dedup_inv_init : dedup_inv [] dedup_init.
Proof. constructor; try reflexivity. intros f []. Qed.

Lemma has_identity_points (sip : stream_index_pair) (f : frame) :
  is_points f = true -> has_identity sip f = false.
Proof. intro H. unfold has_identity. now rewrite H. Qed.

Lemma has_identity_other (sip : stream_index_pair) (f : frame) :
  is_points f = false -> sip_eqb (sip_of f) sip = has_identity sip f.
Proof. intro H. unfold has_identity. now rewrite H. Qed.

Lemma dedup_flag_irrelevant (l : dedup_locals) (seen : list frame) (b : bool) :
  dedup_inv seen l ->
  dedup_inv seen
    (mk_dedup (points_in_set l) (frames_to_publish l) (is_in_set l) b).
Proof. intros [H1 H2 H3 H4 H5]. constructor; assumption. Qed.

Lemma dedup_step_inv (_align_depth : bool) (seen : list frame)
  (l : dedup_locals) (f : frame) :
  dedup_inv seen l -> dedup_inv (seen ++ [f]) (dedup_step _align_depth l f).
Proof.
  intros [Hp Hs Hkp Hki Hincl]. unfold dedup_step.
  destruct (is_points f) eqn:Hf.
  - (* a point cloud *)
    assert (Hid : forall sip, filter (has_identity sip) (seen ++ [f])
                              = filter (has_identity sip) seen).
    { intro sip. rewrite filter_app. cbn [filter].
      rewrite (has_identity_points sip f Hf). apply app_nil_r. }
    destruct (points_in_set l) eqn:Hin; simpl.
    + constructor; simpl.
      * rewrite existsb_app, <- Hp, Hin. reflexivity.
      * intro sip. rewrite existsb_app. simpl.
        rewrite (has_identity_points sip f Hf), !orb_false_r. apply Hs.
      * rewrite filter_app. cbn [filter]. rewrite Hf, Hkp.
        symmetry. apply firstn_1_app, filter_some. congruence.
      * intro sip. rewrite Hid. apply Hki.
      * intros x Hx. apply in_or_app. left. now apply Hincl.
    + constructor; simpl.
      * rewrite existsb_app. simpl. now rewrite Hf, orb_true_r.
      * intro sip. rewrite existsb_app. simpl.
        rewrite (has_identity_points sip f Hf), !orb_false_r. apply Hs.
      * rewrite !filter_app. cbn [filter]. rewrite Hf, Hkp.
        rewrite (filter_none is_points seen) by congruence. reflexivity.
      * intro sip. rewrite Hid, filter_app. simpl.
        rewrite (has_identity_points sip f Hf), app_nil_r. apply Hki.
      * intros x Hx. apply in_app_or in Hx. apply in_or_app.
        destruct Hx as [Hx|Hx]; [left; now apply Hincl | now right].
  - (* any other frame *)
    match goal with
    | |- dedup_inv _ (if ?c then _ else ?l') =>
        cut (dedup_inv (seen ++ [f]) l');
        [ intro H; destruct c; [apply dedup_flag_irrelevant|]; exact H |]
    end.
    assert (Hpts : filter is_points (seen ++ [f]) = filter is_points seen).
    { rewrite filter_app. cbn [filter]. rewrite Hf. apply app_nil_r. }
    unfold not_found. rewrite (Hs (sip_of f)).
    destruct (existsb (has_identity (sip_of f)) seen) eqn:Hseen; simpl.
    + (* its identity is already in the set *)
      constructor.
      * rewrite existsb_app. simpl. now rewrite Hf, !orb_false_r.
      * intro sip. rewrite existsb_app. simpl. rewrite orb_false_r, Hs.
        destruct (has_identity sip f) eqn:Hsf; [|now rewrite orb_false_r].
        rewrite orb_true_r. rewrite <- Hseen.
        unfold has_identity in Hsf. rewrite Hf in Hsf. simpl in Hsf.
        apply sip_eqb_eq in Hsf. now subst sip.
      * now rewrite Hpts.
      * intro sip. rewrite filter_app. cbn [filter].
        destruct (has_identity sip f) eqn:Hsf.
        -- unfold has_identity in Hsf. rewrite Hf in Hsf. simpl in Hsf.
           apply sip_eqb_eq in Hsf. subst sip.
           rewrite firstn_1_app by (apply filter_some; exact Hseen).
           apply Hki.
        -- rewrite app_nil_r. apply Hki.
      * intros x Hx. apply in_or_app. left. now apply Hincl.
    + (* first frame of its identity *)
      constructor; simpl.
      * rewrite existsb_app. simpl. now rewrite Hf, !orb_false_r.
      * intro sip. rewrite !existsb_app. simpl. rewrite !orb_false_r, Hs.
        now rewrite sip_eqb_sym, (has_identity_other sip f Hf).
      * rewrite filter_app. cbn [filter]. rewrite Hf, app_nil_r, Hpts. apply Hkp.
      * intro sip. rewrite !filter_app. cbn [filter]. rewrite Hki.
        destruct (has_identity sip f) eqn:Hsf.
        -- unfold has_identity in Hsf. rewrite Hf in Hsf. simpl in Hsf.
           apply sip_eqb_eq in Hsf. subst sip.
           now rewrite (filter_none _ seen Hseen).
        -- now rewrite !app_nil_r.
      * intros x Hx. apply in_app_or in Hx. apply in_or_app.
        destruct Hx as [Hx|Hx]; [left; now apply Hincl | now right].
Qed.

Lemma dedup_fold_inv (_align_depth : bool) (frameset : list frame) :
  forall seen l,
    dedup_inv seen l ->
    dedup_inv (seen ++ frameset) (fold_left (dedup_step _align_depth) frameset l).
Proof.
  induction frameset as [|f frameset IH]; intros seen l Hl; simpl.
  - now rewrite app_nil_r.
  - replace (seen ++ f :: frameset) with ((seen ++ [f]) ++ frameset)
      by (rewrite <- app_assoc; reflexivity).
    apply IH, dedup_step_inv, Hl.
Qed.

Lemma firstn_1_length {A : Type} (l : list A) :
  l <> [] -> length (firstn 1 l) = 1.
Proof. destruct l; [congruence | reflexivity]. Qed.

Lemma filter_inhabited {A : Type} (p : A -> bool) (l : list A) (x : A) :
  In x l -> p x = true -> filter p l <> [].
Proof.
  intros Hin Hp Hnil.
  assert (H : In x (filter p l)) by (apply filter_In; now split).
  rewrite Hnil in H. exact H.
Qed.

(** C5.  De-duplication for publish.  Walking the frame-set in iteration
    order, the frames kept for publishing contain, of the point-cloud frames,
    the first one met and no other, whatever its stream identity; and of the
    other frames with a given (kind, index) identity, the first one met and no
    other.  Every kept frame is a frame of the set.  So a frame-set with point
    clouds yields exactly one of them, and a frame-set with frames of one
    identity yields exactly one of them. *)
Theorem dedup_keeps_first_of_each (_align_depth : bool) (frameset : list frame) :
  let kept := frames_to_publish (dedup _align_depth frameset) in
  filter is_points kept = firstn 1 (filter is_points frameset) /\
  (forall sip,
      filter (has_identity sip) kept =
      firstn 1 (filter (has_identity sip) frameset)) /\
  incl kept frameset /\
  (forall p,
      In p frameset -> is_points p = true ->
      length (filter is_points kept) = 1) /\
  (forall f,
      In f frameset -> is_points f = false ->
      length (filter (has_identity (sip_of f)) kept) = 1).
Proof.
  intro kept.
  destruct (@dedup_fold_inv _align_depth frameset [] dedup_init dedup_inv_init)
    as [_ _ Hkp Hki Hincl].
  simpl app in *. fold (dedup _align_depth frameset) in Hkp, Hki, Hincl.
  fold kept in Hkp, Hki, Hincl.
  repeat split; try assumption.
  - intros p Hin Hp. rewrite Hkp.
    apply firstn_1_length, (filter_inhabited is_points frameset p Hin Hp).
  - intros f Hin Hf. rewrite Hki.
    apply firstn_1_length, (filter_inhabited _ frameset f Hin).
    unfold has_identity. now rewrite Hf, sip_eqb_refl.
Qed.

(** *** The callback *)

Section Callback.
Variables ImuMsg World Time : Type.

(** The node, as far as the callback is concerned: the gated inertial
    publisher, the error log, and everything else. *)
Record node : Type := mk_node {
  _synced_imu_publisher : SyncedImuPublisher.t ImuMsg;
  ros_error_log : list string;
  world : World
}.

Definition on_publisher
  (f : SyncedImuPublisher.t ImuMsg -> SyncedImuPublisher.t ImuMsg) (n : node)
  : node :=
  mk_node (f (_synced_imu_publisher n)) (ros_error_log n) (world n).

Definition ROS_ERROR_STREAM (text : string) : M node unit :=
  modify (fun n =>
            mk_node (_synced_imu_publisher n) (ros_error_log n ++ [text])
                    (world n)).

(** The frame handed to the callback: a frame-set, a single video frame, or
    anything else. *)
Inductive incoming : Type :=
| Frameset (frameset : list frame)
| VideoFrame (f : frame)
| OtherFrame.

Record NamedFilter : Type := mk_filter {
  _name : string;
  _is_enabled : bool;
  process : list frame -> M node (list frame)
}.

(** Configuration, and the operations of the device interface and of the
    transport that the callback calls.  Each of them is an arbitrary
    computation on the node: it may throw, and it may find the inertial
    publisher changed by the inertial callback, which runs beside this one. *)
Variable _filters : list NamedFilter.
Variable _align_depth : bool.
Variable clipping_enabled : bool.
Variable initialize_time_base : incoming -> M node unit.
Variable node_now : M node Time.
Variable elapsed_camera_time : frame -> M node Time.
Variable get_depth_frame : list frame -> option frame.
Variable clip_depth : frame -> M node unit.
Variable publishPointCloud : frame -> Time -> list frame -> M node unit.
Variable publishFrame : frame -> Time -> stream_index_pair -> M node unit.
Variable publishAlignedDepthToOthers : list frame -> Time -> M node unit.

(** Lines 600-607. *)
Fixpoint apply_filters (filters : list NamedFilter) (frameset : list frame)
  : M node (list frame) :=
  match filters with
  | [] => ret frameset
  | filter_it :: rest =>
      if _is_enabled filter_it then
        (frameset' <- process filter_it frameset ;;
         apply_filters rest frameset')%monad
      else apply_filters rest frameset
  end.

(** Lines 660-681. *)
Fixpoint publish_frames (t : Time) (frameset : list frame)
  (to_publish : list frame) : M node unit :=
  match to_publish with
  | [] => ret tt
  | f :: rest =>
      ((if is_points f then publishPointCloud f t frameset
        else publishFrame f t (sip_of f)) ;;
       publish_frames t frameset rest)%monad
  end.

(** The [try] block, lines 563-712. *)
Definition frame_callback_body (fr : incoming) : M node unit :=
  (initialize_time_base fr ;;
   match fr with
   | Frameset frameset =>
       t <- node_now ;;
       match get_depth_frame frameset with
       | Some depth_frame =>
           if clipping_enabled then clip_depth depth_frame else ret tt
       | None => ret tt
       end ;;
       frameset' <- apply_filters _filters frameset ;;
       let l := dedup _align_depth frameset' in
       publish_frames t frameset' (frames_to_publish l) ;;
       if _align_depth && is_depth_arrived l then
         publishAlignedDepthToOthers frameset' t
       else ret tt
   | VideoFrame f =>
       t <- elapsed_camera_time f ;;
       (if is_depth_frame f then
          if clipping_enabled then clip_depth f else ret tt
        else ret tt) ;;
       publishFrame f t (sip_of f)
   | OtherFrame => ret tt
   end)%monad.

Definition on_exception (what : string) : M node unit :=
  ROS_ERROR_STREAM ("An error has occurred during frame callback: " ++ what).

Definition frame_callback (fr : incoming) : M node unit :=
  (modify (on_publisher (@SyncedImuPublisher.Pause ImuMsg)) ;;
   try_catch (frame_callback_body fr) on_exception ;;
   modify (on_publisher (@SyncedImuPublisher.Resume ImuMsg)))%monad.

Lemma try_catch_on_exception_returns (body : M node unit) (n : node) :
  exists n', try_catch body on_exception n = (Ok tt, n').
Proof.
  unfold try_catch. destruct (body n) as [[[]|what] n1].
  - now exists n1.
  - unfold on_exception, ROS_ERROR_STREAM, modify. eexists; reflexivity.
Qed.

(** C8.  Exception containment.  Whatever the frame and whatever the
    operations called in the [try] block do, throwing included, the
    callback returns normally.  The exception is caught at the boundary and
    logged, and [Resume] runs on the state the block left, on the path
    without an exception and on the path with one: at the end the gate is
    flowing, its queue is empty, and the messages that were deferred have been
    handed to the publisher in order. *)
Theorem frame_callback_contains_exceptions (fr : incoming) (n : node) :
  exists n_end,
    try_catch (frame_callback_body fr) on_exception
      (on_publisher (@SyncedImuPublisher.Pause ImuMsg) n) = (Ok tt, n_end) /\
    (forall what n_thrown,
        frame_callback_body fr
          (on_publisher (@SyncedImuPublisher.Pause ImuMsg) n)
        = (Throw what, n_thrown) ->
        n_end =
        mk_node (_synced_imu_publisher n_thrown)
          (ros_error_log n_thrown
             ++ [("An error has occurred during frame callback: " ++ what)%string])
          (world n_thrown)) /\
    frame_callback fr n =
    (Ok tt, on_publisher (@SyncedImuPublisher.Resume ImuMsg) n_end) /\
    let gate := _synced_imu_publisher (snd (frame_callback fr n)) in
    SyncedImuPublisher._pause_mode gate = false /\
    SyncedImuPublisher._pending_messages gate = [] /\
    SyncedImuPublisher._publisher gate =
    SyncedImuPublisher._publisher (_synced_imu_publisher n_end)
      ++ SyncedImuPublisher._pending_messages (_synced_imu_publisher n_end).
Proof.
  destruct (try_catch_on_exception_returns (frame_callback_body fr)
              (on_publisher (@SyncedImuPublisher.Pause ImuMsg) n))
    as [n_end Htry].
  exists n_end. split; [exact Htry|]. split.
  - intros what n_thrown Hthrow.
    unfold try_catch in Htry. rewrite Hthrow in Htry.
    unfold on_exception, ROS_ERROR_STREAM, modify in Htry.
    now inversion Htry.
  - assert (Hrun : frame_callback fr n =
                   (Ok tt, on_publisher (@SyncedImuPublisher.Resume ImuMsg) n_end)).
    { unfold frame_callback, bind, modify. now rewrite Htry. }
    split; [exact Hrun|].
    rewrite Hrun. cbn [snd on_publisher _synced_imu_publisher].
    rewrite SyncedImuPublisher.Resume_eq. repeat split.
Qed.

End Callback.

Lemma dedup_keeps_first_of_each_witness :
  let cloud1 := mk_frame true false RS2_STREAM_DEPTH 0 RS2_FORMAT_XYZ32F 1 in
  let cloud2 := mk_frame true false RS2_STREAM_COLOR 0 RS2_FORMAT_XYZ32F 2 in
  let depth_rgb := mk_frame false true RS2_STREAM_DEPTH 0 RS2_FORMAT_RGB8 3 in
  let depth_z16 := mk_frame false true RS2_STREAM_DEPTH 0 RS2_FORMAT_Z16 4 in
  frames_to_publish (dedup true [cloud1; depth_rgb; cloud2; depth_z16]) =
  [cloud1; depth_rgb] /\
  length (filter is_points
            (frames_to_publish
               (dedup true [cloud1; depth_rgb; cloud2; depth_z16]))) = 1.
Proof.
  cbv zeta. split; [reflexivity|].
  apply (proj1 (proj2 (proj2 (proj2
           (dedup_keeps_first_of_each true
              [mk_frame true false RS2_STREAM_DEPTH 0 RS2_FORMAT_XYZ32F 1;
               mk_frame false true RS2_STREAM_DEPTH 0 RS2_FORMAT_RGB8 3;
               mk_frame true false RS2_STREAM_COLOR 0 RS2_FORMAT_XYZ32F 2;
               mk_frame false true RS2_STREAM_DEPTH 0 RS2_FORMAT_Z16 4]))))
           (mk_frame true false RS2_STREAM_COLOR 0 RS2_FORMAT_XYZ32F 2)).
  - simpl. tauto.
  - reflexivity.
Defined.

End FrameCallback.

(** ** Base stream selection: [SetBaseStream] (lines 956-984) *)

Module BaseStream.

(** [rs2::stream_profile], as far as the selection reads it. *)
Record stream_profile : Type := mk_profile {
  stream_type : rs2_stream;
  stream_index : Z;
  unique_id : nat
}.

Definition sip_of (p : stream_profile) : stream_index_pair :=
  (stream_type p, stream_index p).

(** The default-constructed profile, what [operator[]] of the map would
    insert for a missing key. *)
Definition default_profile : stream_profile := mk_profile RS2_STREAM_ANY 0 0.

(** [std::map<stream_index_pair, rs2::stream_profile>]: pairs with distinct
    keys; only [find] and insertion of a new key are used. *)
Definition profile_map : Type := list (stream_index_pair * stream_profile).

Fixpoint map_find (sip : stream_index_pair) (m : profile_map)
  : option stream_profile :=
  match m with
  | [] => None
  | (k, p) :: rest => if sip_eqb k sip then Some p else map_find sip rest
  end.

(** The body of the loop of lines 963-969. *)
Definition add_profile (available_profiles : profile_map)
  (profile : stream_profile) : profile_map :=
  match map_find (sip_of profile) available_profiles with
  | Some _ => available_profiles
  | None => available_profiles ++ [(sip_of profile, profile)]
  end.

(** Lines 961-970; a sensor is the list [get_stream_profiles()] returns. *)
Definition collect_profiles (_available_ros_sensors : list (list stream_profile))
  : profile_map :=
  fold_left (fun m sensor => fold_left add_profile sensor m)
            _available_ros_sensors [].

Definition base_stream_priority : list stream_index_pair := [DEPTH; POSE].

Section Select.

(** The condition of the [while] of line 973 dereferences the iterator
    before it compares it with [end()]; on the turn where the iterator is
    [end()] it reads whatever lies behind the vector.  [past_the_end] is that
    value, and nothing is assumed about it. *)
Variable past_the_end : stream_index_pair.

(** The iterator [base_stream] is its distance from [begin()]. *)
Definition deref (base_stream : nat) : stream_index_pair :=
  nth base_stream base_stream_priority past_the_end.

Definition is_end (base_stream : nat) : bool :=
  base_stream =? length base_stream_priority.

Definition loop_condition (available_profiles : profile_map)
  (base_stream : nat) : bool :=
  match map_find (deref base_stream) available_profiles with
  | None => true
  | Some _ => false
  end
  && negb (is_end base_stream).

(** The [while] loop with a bound on its turns. *)
Fixpoint advance (fuel : nat) (available_profiles : profile_map)
  (base_stream : nat) : nat :=
  match fuel with
  | O => base_stream
  | S fuel' =>
      if loop_condition available_profiles base_stream then
        advance fuel' available_profiles (S base_stream)
      else base_stream
  end.

(** The result is the new value of [_base_profile]. *)
Definition SetBaseStream (_available_ros_sensors : list (list stream_profile))
  : outcome stream_profile :=
  let available_profiles := collect_profiles _available_ros_sensors in
  let base_stream :=
    advance (S (length base_stream_priority)) available_profiles 0 in
  if is_end base_stream then
    Throw "No known base_stream found for transformations."
  else
    match map_find (deref base_stream) available_profiles with
    | Some p => Ok p
    | None => Ok default_profile
    end.

End Select.

(** *** Properties *)

Lemma map_find_app (sip : stream_index_pair) (m m' : profile_map) :
  map_find sip (m ++ m') =
  match map_find sip m with
  | Some p => Some p
  | None => map_find sip m'
  end.
Proof.
  induction m as [|[k p] m IH]; simpl; [reflexivity|].
  destruct (sip_eqb k sip); [reflexivity | exact IH].
Qed.

(** The first profile with identity [sip] in a list of profiles. *)
Definition first_with (sip : stream_index_pair) (profiles : list stream_profile)
  : option stream_profile :=
  find (fun p => sip_eqb (sip_of p) sip) profiles.

Lemma first_with_app {A : Type} (p : A -> bool) (l l' : list A) :
  find p (l ++ l') =
  match find p l with
  | Some x => Some x
  | None => find p l'
  end.
Proof.
  induction l as [|a l IH]; simpl; [reflexivity|].
  destruct (p a); [reflexivity | exact IH].
Qed.

Lemma map_find_add (sip : stream_index_pair) (m : profile_map)
  (p : stream_profile) :
  map_find sip (add_profile m p) =
  match map_find sip m with
  | Some q => Some q
  | None => if sip_eqb (sip_of p) sip then Some p else None
  end.
Proof.
  unfold add_profile.
  destruct (map_find (sip_of p) m) as [q|] eqn:Hp.
  - destruct (map_find sip m) as [q'|] eqn:Hs; [reflexivity|].
    destruct (sip_eqb_spec (sip_of p) sip) as [E|_]; [|reflexivity].
    rewrite E in Hp. congruence.
  - rewrite map_find_app. simpl. reflexivity.
Qed.

Lemma map_find_sensor (sip : stream_index_pair) (sensor : list stream_profile) :
  forall m,
    map_find sip (fold_left add_profile sensor m) =
    match map_find sip m with
    | Some q => Some q
    | None => first_with sip sensor
    end.
Proof.
  induction sensor as [|p sensor IH]; intro m; simpl.
  - now destruct (map_find sip m).
  - rewrite IH, map_find_add.
    destruct (map_find sip m); [reflexivity|].
    now destruct (sip_eqb (sip_of p) sip).
Qed.

Lemma map_find_sensors (sip : stream_index_pair)
  (sensors : list (list stream_profile)) :
  forall m,
    map_find sip
      (fold_left (fun m sensor => fold_left add_profile sensor m) sensors m) =
    match map_find sip m with
    | Some q => Some q
    | None => first_with sip (List.concat sensors)
    end.
Proof.
  induction sensors as [|sensor sensors IH]; intro m; simpl.
  - now destruct (map_find sip m).
  - rewrite IH, map_find_sensor.
    destruct (map_find sip m); [reflexivity|].
    unfold first_with. rewrite first_with_app.
    now destruct (find _ sensor).
Qed.

(** A stream identity is available when some sensor has a profile with it;
    the map keeps the first such profile. *)
Lemma map_find_collect (sip : stream_index_pair)
  (sensors : list (list stream_profile)) :
  map_find sip (collect_profiles sensors) = first_with sip (List.concat sensors).
Proof. unfold collect_profiles. now rewrite map_find_sensors. Qed.

(** Where the loop stops: at the first priority entry that is available, or
    at [end()] after one turn per entry and one more evaluation of the
    condition. *)
Lemma advance_stops (past_the_end : stream_index_pair) (available : profile_map) :
  advance past_the_end (S (length base_stream_priority)) available 0 =
  match map_find DEPTH available, map_find POSE available with
  | Some _, _ => 0
  | None, Some _ => 1
  | None, None => 2
  end.
Proof.
  cbn [advance length base_stream_priority]. unfold loop_condition, is_end.
  cbn [deref nth base_stream_priority length Nat.eqb negb].
  destruct (map_find DEPTH available); cbn [andb]; [reflexivity|].
  destruct (map_find POSE available); cbn [andb]; [reflexivity|].
  now rewrite andb_false_r.
Qed.

(** C3.  Base-stream selection.  With a depth profile among the sensors'
    profiles the base is the first of them; without one but with a pose
    profile it is the first pose profile; with neither the call throws and
    selects nothing, whatever the loop condition reads behind the priority
    vector.  The bound on the loop is never what ends it. *)
Theorem SetBaseStream_priority
  (past_the_end : stream_index_pair) (sensors : list (list stream_profile)) :
  (forall p,
      first_with DEPTH (List.concat sensors) = Some p ->
      SetBaseStream past_the_end sensors = Ok p) /\
  (forall p,
      first_with DEPTH (List.concat sensors) = None ->
      first_with POSE (List.concat sensors) = Some p ->
      SetBaseStream past_the_end sensors = Ok p) /\
  (first_with DEPTH (List.concat sensors) = None ->
   first_with POSE (List.concat sensors) = None ->
   SetBaseStream past_the_end sensors =
   Throw "No known base_stream found for transformations.") /\
  loop_condition past_the_end (collect_profiles sensors)
    (advance past_the_end (S (length base_stream_priority))
       (collect_profiles sensors) 0) = false.
Proof.
  unfold SetBaseStream. rewrite advance_stops.
  rewrite <- (map_find_collect DEPTH sensors).
  rewrite <- (map_find_collect POSE sensors).
  set (available := collect_profiles sensors).
  repeat split.
  - intros p Hd. rewrite Hd. cbn. now rewrite Hd.
  - intros p Hd Hp. rewrite Hd, Hp. cbn. now rewrite Hp.
  - intros Hd Hp. rewrite Hd, Hp. reflexivity.
  - unfold loop_condition, is_end.
    destruct (map_find DEPTH available) eqn:Hd.
    + cbn. now rewrite Hd.
    + destruct (map_find POSE available) eqn:Hp.
      * cbn. now rewrite Hp.
      * cbn. apply andb_false_r.
Qed.

Lemma SetBaseStream_priority_witness :
  let depth := mk_profile RS2_STREAM_DEPTH 0 1 in
  let color := mk_profile RS2_STREAM_COLOR 0 2 in
  let pose := mk_profile RS2_STREAM_POSE 0 3 in
  SetBaseStream COLOR [[pose]] = Ok pose /\
  SetBaseStream COLOR [[color; depth]; [pose]] = Ok depth /\
  SetBaseStream COLOR [[color]] =
  Throw "No known base_stream found for transformations.".
Proof.
  cbv zeta. split; [|split].
  - apply (proj1 (proj2 (SetBaseStream_priority COLOR
                           [[mk_profile RS2_STREAM_POSE 0 3]])));
      reflexivity.
  - apply (proj1 (SetBaseStream_priority COLOR
                    [[mk_profile RS2_STREAM_COLOR 0 2;
                      mk_profile RS2_STREAM_DEPTH 0 1];
                     [mk_profile RS2_STREAM_POSE 0 3]])).
    reflexivity.
  - apply (proj1 (proj2 (proj2 (SetBaseStream_priority COLOR
                                  [[mk_profile RS2_STREAM_COLOR 0 2]]))));
      reflexivity.
Defined.

End BaseStream.

(** ** CalibrationResolver (lines 747-876)

    The intrinsics and extrinsics are [float]s of the device interface and
    the camera-info arrays are [double]s that hold such values; the
    conversions between them are exact on these values and are not spelled
    out.  The product of line 847 is a product of [float] matrices: its
    arithmetic is the one of the [single] instance.  A [std::array] is a
    function of the index; every [.at(i)] of the source has a constant index
    within the bounds. *)

Module Calibration.

Inductive rs2_distortion : Type :=
| RS2_DISTORTION_NONE
| RS2_DISTORTION_MODIFIED_BROWN_CONRADY
| RS2_DISTORTION_INVERSE_BROWN_CONRADY
| RS2_DISTORTION_FTHETA
| RS2_DISTORTION_BROWN_CONRADY
| RS2_DISTORTION_KANNALA_BRANDT4.

Definition array (A : Type) : Type := nat -> A.

Definition set_at {A : Type} (a : array A) (i : nat) (v : A) : array A :=
  fun j => if j =? i then v else a j.

(** The first [n] entries, in order. *)
Definition to_list {A : Type} (n : nat) (a : array A) : list A :=
  map a (seq 0 n).

Lemma to_list_9_inv {A : Type} (a : array A) (x0 x1 x2 x3 x4 x5 x6 x7 x8 : A) :
  to_list 9 a = [x0; x1; x2; x3; x4; x5; x6; x7; x8] ->
  a 0 = x0 /\ a 1 = x1 /\ a 2 = x2 /\ a 3 = x3 /\ a 4 = x4 /\
  a 5 = x5 /\ a 6 = x6 /\ a 7 = x7 /\ a 8 = x8.
Proof.
  unfold to_list. cbn [map seq]. intro H.
  injection H as H0 H1 H2 H3 H4 H5 H6 H7 H8.
  repeat split; assumption.
Qed.

Section Calib.
Context {F : Type} {scalar : Scalar F}.

Record rs2_intrinsics : Type := mk_intrinsics {
  width : Z;
  height : Z;
  ppx : F;
  ppy : F;
  fx : F;
  fy : F;
  model : rs2_distortion;
  coeffs : array F
}.

Record rs2_extrinsics : Type := mk_extrinsics {
  rotation : array F;
  translation : array F
}.

(** [rs2::stream_profile]; [is_video] is [is<rs2::video_stream_profile>()]. *)
Record stream_profile : Type := mk_profile {
  is_video : bool;
  stream_type : rs2_stream;
  stream_index : Z;
  get_intrinsics : rs2_intrinsics
}.

Definition sip_of (profile : stream_profile) : stream_index_pair :=
  (stream_type profile, stream_index profile).

(** [sensor_msgs::msg::CameraInfo] *)
Record CameraInfo : Type := mk_info {
  ci_width : Z;
  ci_height : Z;
  frame_id : string;
  distortion_model : string;
  d : list F;
  k : array F;
  r : array F;
  p : array F
}.

Definition CameraInfo_default : CameraInfo :=
  mk_info 0 0 "" "" [] (fun _ => sc_zero) (fun _ => sc_zero) (fun _ => sc_zero).

(** [std::map<stream_index_pair, CameraInfo>] read and written through
    [operator[]]: a missing key reads as the default record. *)
Definition camera_info_map : Type := stream_index_pair -> CameraInfo.

Definition camera_info_empty : camera_info_map := fun _ => CameraInfo_default.

Definition upd (m : camera_info_map) (key : stream_index_pair) (v : CameraInfo)
  : camera_info_map :=
  fun key' => if sip_eqb key' key then v else m key'.

Definition set_k (c : CameraInfo) (i : nat) (v : F) : CameraInfo :=
  mk_info (ci_width c) (ci_height c) (frame_id c) (distortion_model c) (d c)
          (set_at (k c) i v) (r c) (p c).

Definition set_r (c : CameraInfo) (i : nat) (v : F) : CameraInfo :=
  mk_info (ci_width c) (ci_height c) (frame_id c) (distortion_model c) (d c)
          (k c) (set_at (r c) i v) (p c).

Definition set_p (c : CameraInfo) (i : nat) (v : F) : CameraInfo :=
  mk_info (ci_width c) (ci_height c) (frame_id c) (distortion_model c) (d c)
          (k c) (r c) (set_at (p c) i v).

(** The macro of the header that names a stream's optical frame, and the
    [_enable] flags. *)
Variable OPTICAL_FRAME_ID : stream_index_pair -> string.
Variable _enable : stream_index_pair -> bool.

(** The device's answer to [from.get_extrinsics_to(to)]. *)
Variable get_extrinsics_to : stream_profile -> stream_profile -> rs2_extrinsics.

(** Lines 767-824, on the record of the profile's stream. *)
Definition calibrate (stream_index : stream_index_pair)
  (intrinsic : rs2_intrinsics) (c : CameraInfo) : CameraInfo :=
  let c := mk_info (width intrinsic) (height intrinsic)
             (OPTICAL_FRAME_ID stream_index) (distortion_model c) (d c)
             (k c) (r c) (p c) in
  let c := set_k c 0 (fx intrinsic) in
  let c := set_k c 2 (ppx intrinsic) in
  let c := set_k c 4 (fy intrinsic) in
  let c := set_k c 5 (ppy intrinsic) in
  let c := set_k c 8 sc_one in
  let c := set_p c 0 (k c 0) in
  let c := set_p c 1 sc_zero in
  let c := set_p c 2 (k c 2) in
  let c := set_p c 3 sc_zero in
  let c := set_p c 4 sc_zero in
  let c := set_p c 5 (k c 4) in
  let c := set_p c 6 (k c 5) in
  let c := set_p c 7 sc_zero in
  let c := set_p c 8 sc_zero in
  let c := set_p c 9 sc_zero in
  let c := set_p c 10 sc_one in
  let c := set_p c 11 sc_zero in
  let c := mk_info (ci_width c) (ci_height c) (frame_id c)
             (match model intrinsic with
              | RS2_DISTORTION_KANNALA_BRANDT4 => "equidistant"
              | _ => "plumb_bob"
              end)
             (d c) (k c) (r c) (p c) in
  let c := set_r c 0 sc_one in
  let c := set_r c 1 sc_zero in
  let c := set_r c 2 sc_zero in
  let c := set_r c 3 sc_zero in
  let c := set_r c 4 sc_one in
  let c := set_r c 5 sc_zero in
  let c := set_r c 6 sc_zero in
  let c := set_r c 7 sc_zero in
  let c := set_r c 8 sc_one in
  let c := mk_info (ci_width c) (ci_height c) (frame_id c) (distortion_model c)
             (to_list 5 (coeffs intrinsic)) (k c) (r c) (p c) in
  if sip_eqb stream_index DEPTH && _enable DEPTH && _enable COLOR then
    set_p (set_p c 3 sc_zero) 7 sc_zero
  else c.

Definition updateStreamCalibData (video_profile : stream_profile)
  (_camera_info : camera_info_map) : camera_info_map :=
  let stream_index := sip_of video_profile in
  upd _camera_info stream_index
      (calibrate stream_index (get_intrinsics video_profile)
         (_camera_info stream_index)).

(** [K_right.cast<float>() * RT], one coefficient: row [i] of the row-major
    3x3 [K] times column [j] of the 3x4 [RT]. *)
Definition P_coeff (K : array F) (RT : nat -> nat -> F) (i j : nat) : F :=
  (K (3 * i)%nat * RT 0%nat j
   + K (3 * i + 1)%nat * RT 1%nat j
   + K (3 * i + 2)%nat * RT 2%nat j)%sc.

(** [RT << R, T]: the row-major rotation, then the translation as the fourth
    column. *)
Definition RT_of (R T : array F) (i j : nat) : F :=
  if j <? 3 then R (3 * i + j) else T i.

(** Lines 826-876. *)
Definition updateExtrinsicsCalibData
  (left_video_profile right_video_profile : stream_profile)
  (_camera_info : camera_info_map) : camera_info_map :=
  let right := sip_of right_video_profile in
  let LEFT_T_RIGHT :=
    get_extrinsics_to right_video_profile left_video_profile in
  let R := rotation LEFT_T_RIGHT in
  let T := set_at (set_at (translation LEFT_T_RIGHT) 1 sc_zero) 2 sc_zero in
  let RT := RT_of R T in
  let K_right := k (_camera_info right) in
  let P_right := P_coeff K_right RT in
  let c := _camera_info right in
  let c := set_r c 0 (R 0) in
  let c := set_r c 1 (R 1) in
  let c := set_r c 2 (R 2) in
  let c := set_r c 3 (R 3) in
  let c := set_r c 4 (R 4) in
  let c := set_r c 5 (R 5) in
  let c := set_r c 6 (R 6) in
  let c := set_r c 7 (R 7) in
  let c := set_r c 8 (R 8) in
  let c := set_p c 0 (P_right 0 0) in
  let c := set_p c 1 (P_right 0 1) in
  let c := set_p c 2 (P_right 0 2) in
  let c := set_p c 3 (P_right 0 3) in
  let c := set_p c 4 (P_right 1 0) in
  let c := set_p c 5 (P_right 1 1) in
  let c := set_p c 6 (P_right 1 2) in
  let c := set_p c 7 (P_right 1 3) in
  let c := set_p c 8 (P_right 2 0) in
  let c := set_p c 9 (P_right 2 1) in
  let c := set_p c 10 (P_right 2 2) in
  let c := set_p c 11 (P_right 2 3) in
  upd _camera_info right c.

(** The locals of [updateProfilesStreamCalibData] (lines 747-765). *)
Record scan : Type := mk_scan {
  left_profile : option stream_profile;
  right_profile : option stream_profile;
  info : camera_info_map
}.

Definition scan_step (s : scan) (profile : stream_profile) : scan :=
  if is_video profile then
    mk_scan
      (if (stream_index profile =? 1)%Z then Some profile else left_profile s)
      (if (stream_index profile =? 2)%Z then Some profile else right_profile s)
      (updateStreamCalibData profile (info s))
  else s.

Definition scan_profiles (profiles : list stream_profile)
  (_camera_info : camera_info_map) : scan :=
  fold_left scan_step profiles (mk_scan None None _camera_info).

Definition updateProfilesStreamCalibData (profiles : list stream_profile)
  (_camera_info : camera_info_map) : camera_info_map :=
  let s := scan_profiles profiles _camera_info in
  match left_profile s, right_profile s with
  | Some lp, Some rp => updateExtrinsicsCalibData lp rp (info s)
  | _, _ => info s
  end.

(** *** Properties *)

Lemma upd_same (m : camera_info_map) (key : stream_index_pair) (v : CameraInfo) :
  upd m key v key = v.
Proof. unfold upd. now rewrite sip_eqb_refl. Qed.

Lemma upd_other (m : camera_info_map) (key key' : stream_index_pair)
  (v : CameraInfo) :
  key' <> key -> upd m key v key' = m key'.
Proof.
  intro H. unfold upd.
  destruct (sip_eqb_spec key' key) as [E|_]; [contradiction | reflexivity].
Qed.

Definition identity_rotation : list F :=
  [sc_one; sc_zero; sc_zero;
   sc_zero; sc_one; sc_zero;
   sc_zero; sc_zero; sc_one].

(** The projection [updateStreamCalibData] writes: the intrinsic matrix with
    a zero fourth column. *)
Definition projection_of (intrinsic : rs2_intrinsics) : list F :=
  [fx intrinsic; sc_zero; ppx intrinsic; sc_zero;
   sc_zero; fy intrinsic; ppy intrinsic; sc_zero;
   sc_zero; sc_zero; sc_one; sc_zero].

(** The entries of the intrinsic matrix [updateStreamCalibData] writes. *)
Definition intrinsic_entries (intrinsic : rs2_intrinsics) (K : array F) : Prop :=
  K 0 = fx intrinsic /\ K 2 = ppx intrinsic /\ K 4 = fy intrinsic /\
  K 5 = ppy intrinsic /\ K 8 = sc_one.

Definition calibrated_from (profile : stream_profile) (c : CameraInfo) : Prop :=
  to_list 9 (r c) = identity_rotation /\
  to_list 12 (p c) = projection_of (get_intrinsics profile) /\
  intrinsic_entries (get_intrinsics profile) (k c).

Lemma calibrate_k (stream_index : stream_index_pair)
  (intrinsic : rs2_intrinsics) (c : CameraInfo) :
  k (calibrate stream_index intrinsic c) =
  set_at (set_at (set_at (set_at (set_at (k c) 0 (fx intrinsic))
                                 2 (ppx intrinsic))
                         4 (fy intrinsic))
                 5 (ppy intrinsic))
         8 sc_one.
Proof.
  unfold calibrate.
  destruct (sip_eqb stream_index DEPTH && _enable DEPTH && _enable COLOR);
    reflexivity.
Qed.

Lemma calibrate_calibrated (profile : stream_profile) (c : CameraInfo) :
  calibrated_from profile
    (calibrate (sip_of profile) (get_intrinsics profile) c).
Proof.
  unfold calibrated_from, intrinsic_entries. rewrite calibrate_k.
  split; [|split; [|repeat split]]; unfold calibrate;
    destruct (sip_eqb (sip_of profile) DEPTH && _enable DEPTH && _enable COLOR);
    reflexivity.
Qed.

(** On a record that nothing has written yet, the intrinsic matrix is the one
    of the profile. *)
Lemma calibrate_default_k (profile : stream_profile) :
  to_list 9
    (k (calibrate (sip_of profile) (get_intrinsics profile) CameraInfo_default))
  = [fx (get_intrinsics profile); sc_zero; ppx (get_intrinsics profile);
     sc_zero; fy (get_intrinsics profile); ppy (get_intrinsics profile);
     sc_zero; sc_zero; sc_one].
Proof.
  unfold calibrate.
  destruct (sip_eqb (sip_of profile) DEPTH && _enable DEPTH && _enable COLOR);
    reflexivity.
Qed.

(** What the scan knows of the last profile of index 1 and of the last
    profile of index 2: its index, and that its record is as the per-stream
    update left it. *)
Definition scan_inv (s : scan) : Prop :=
  (forall lp, left_profile s = Some lp ->
              stream_index lp = 1%Z /\ calibrated_from lp (info s (sip_of lp)))
  /\
  (forall rp, right_profile s = Some rp ->
              stream_index rp = 2%Z /\ calibrated_from rp (info s (sip_of rp))).

Lemma sip_of_index_neq (a b : stream_profile) :
  stream_index a <> stream_index b -> sip_of a <> sip_of b.
Proof. unfold sip_of. intros H E. apply H. now inversion E. Qed.

Lemma scan_step_inv (s : scan) (profile : stream_profile) :
  scan_inv s -> scan_inv (scan_step s profile).
Proof.
  intros [HL HR]. unfold scan_step.
  destruct (is_video profile); [|split; assumption].
  unfold updateStreamCalibData. split; cbn [left_profile right_profile info].
  - intros lp Hlp.
    destruct (Z.eqb_spec (stream_index profile) 1) as [E|E].
    + inversion Hlp; subst lp. split; [exact E|].
      rewrite upd_same. apply calibrate_calibrated.
    + destruct (HL lp Hlp) as [Hi Hc]. split; [exact Hi|].
      rewrite upd_other; [exact Hc|].
      apply sip_of_index_neq. congruence.
  - intros rp Hrp.
    destruct (Z.eqb_spec (stream_index profile) 2) as [E|E].
    + inversion Hrp; subst rp. split; [exact E|].
      rewrite upd_same. apply calibrate_calibrated.
    + destruct (HR rp Hrp) as [Hi Hc]. split; [exact Hi|].
      rewrite upd_other; [exact Hc|].
      apply sip_of_index_neq. congruence.
Qed.

Lemma scan_fold_inv (profiles : list stream_profile) :
  forall s, scan_inv s -> scan_inv (fold_left scan_step profiles s).
Proof.
  induction profiles as [|q profiles IH]; intros s Hs; simpl; [exact Hs|].
  apply IH, scan_step_inv, Hs.
Qed.

Lemma scan_profiles_inv (profiles : list stream_profile)
  (_camera_info : camera_info_map) :
  scan_inv (scan_profiles profiles _camera_info).
Proof.
  apply scan_fold_inv. split; intros q Hq; discriminate.
Qed.

(** *** Which profiles the scan retains *)

Definition has_index (i : Z) (profile : stream_profile) : bool :=
  (stream_index profile =? i)%Z.

(** The per-stream updates of a list of video profiles, in order. *)
Definition update_each (profiles : list stream_profile)
  (_camera_info : camera_info_map) : camera_info_map :=
  fold_left (fun m profile => updateStreamCalibData profile m)
            profiles _camera_info.

Lemma find_rev_snoc {A : Type} (f : A -> bool) (l : list A) (x : A) :
  find f (rev (l ++ [x])) = if f x then Some x else find f (rev l).
Proof. rewrite rev_app_distr. reflexivity. Qed.

Lemma scan_fold (profiles : list stream_profile) :
  forall seen s,
    left_profile s = find (has_index 1) (rev (filter is_video seen)) ->
    right_profile s = find (has_index 2) (rev (filter is_video seen)) ->
    let s' := fold_left scan_step profiles s in
    left_profile s' =
    find (has_index 1) (rev (filter is_video (seen ++ profiles))) /\
    right_profile s' =
    find (has_index 2) (rev (filter is_video (seen ++ profiles))) /\
    info s' = update_each (filter is_video profiles) (info s).
Proof.
  induction profiles as [|q profiles IH]; intros seen s HL HR; simpl.
  - rewrite app_nil_r. repeat split; assumption.
  - replace (seen ++ q :: profiles) with ((seen ++ [q]) ++ profiles)
      by (rewrite <- app_assoc; reflexivity).
    assert (Hstep :
              left_profile (scan_step s q) =
              find (has_index 1) (rev (filter is_video (seen ++ [q]))) /\
              right_profile (scan_step s q) =
              find (has_index 2) (rev (filter is_video (seen ++ [q]))) /\
              info (scan_step s q) =
              update_each (filter is_video [q]) (info s)).
    { unfold scan_step. rewrite filter_app. cbn [filter].
      destruct (is_video q).
      - rewrite !find_rev_snoc. unfold has_index at 1 3.
        cbn [left_profile right_profile info].
        rewrite HL, HR. repeat split.
      - rewrite app_nil_r. repeat split; assumption. }
    destruct Hstep as (HL1 & HR1 & HI1).
    destruct (IH (seen ++ [q]) _ HL1 HR1) as (HL2 & HR2 & HI2).
    repeat split; [exact HL2 | exact HR2 |].
    rewrite HI2, HI1. cbn [filter]. now destruct (is_video q).
Qed.

(** The scan retains the last video profile of index 1 and the last video
    profile of index 2, and runs the per-stream update on every video
    profile, in order. *)
Lemma scan_profiles_spec (profiles : list stream_profile)
  (_camera_info : camera_info_map) :
  let s := scan_profiles profiles _camera_info in
  let video := filter is_video profiles in
  left_profile s = find (has_index 1) (rev video) /\
  right_profile s = find (has_index 2) (rev video) /\
  info s = update_each video _camera_info.
Proof.
  cbv zeta. unfold scan_profiles.
  exact (@scan_fold profiles [] (mk_scan None None _camera_info)
           eq_refl eq_refl).
Qed.

(** A video profile of index [i] in the list makes the scan retain one. *)
Lemma retained_profile (i : Z) (profiles : list stream_profile)
  (a : stream_profile) :
  In a profiles -> is_video a = true -> stream_index a = i ->
  exists q,
    find (has_index i) (rev (filter is_video profiles)) = Some q /\
    In q profiles /\ is_video q = true /\ stream_index q = i.
Proof.
  intros Hin Hv Hi.
  destruct (find (has_index i) (rev (filter is_video profiles))) as [q|] eqn:E.
  - exists q. split; [reflexivity|].
    apply find_some in E. destruct E as [Hq Hidx].
    apply in_rev, filter_In in Hq. destruct Hq as [Hq Hvq].
    repeat split; try assumption. now apply Z.eqb_eq.
  - exfalso.
    assert (Ha : In a (rev (filter is_video profiles)))
      by (apply -> in_rev; apply filter_In; now split).
    pose proof (find_none _ _ E a Ha) as Hn.
    unfold has_index in Hn. rewrite Hi, Z.eqb_refl in Hn. discriminate.
Qed.

(** Entries 1, 3, 6 and 7 of the intrinsic matrix are written by nothing. *)
Definition unwritten_entry (i : nat) : Prop :=
  i = 1 \/ i = 3 \/ i = 6 \/ i = 7.

Lemma calibrate_unwritten (sip : stream_index_pair)
  (intrinsic : rs2_intrinsics) (c : CameraInfo) (i : nat) :
  unwritten_entry i -> k (calibrate sip intrinsic c) i = k c i.
Proof.
  rewrite calibrate_k. intros [->|[->|[->| ->]]]; reflexivity.
Qed.

Lemma update_each_unwritten (profiles : list stream_profile) (i : nat) :
  unwritten_entry i ->
  forall (ci : camera_info_map) (sip : stream_index_pair),
    k (update_each profiles ci sip) i = k (ci sip) i.
Proof.
  intro Hi. unfold update_each.
  induction profiles as [|q profiles IH]; intros ci sip; simpl; [reflexivity|].
  rewrite IH. unfold updateStreamCalibData, upd.
  destruct (sip_eqb_spec sip (sip_of q)) as [E|_]; [|reflexivity].
  rewrite (calibrate_unwritten _ _ _ Hi), E. reflexivity.
Qed.

(** What [updateExtrinsicsCalibData] writes into the projection. *)
Lemma updateExtrinsicsCalibData_projection (lp rp : stream_profile)
  (ci : camera_info_map) :
  to_list 12 (p (updateExtrinsicsCalibData lp rp ci (sip_of rp))) =
  let ext := get_extrinsics_to rp lp in
  let R := rotation ext in
  let t0 := translation ext 0 in
  let K := k (ci (sip_of rp)) in
  [ (K 0 * R 0 + K 1 * R 3 + K 2 * R 6)%sc;
    (K 0 * R 1 + K 1 * R 4 + K 2 * R 7)%sc;
    (K 0 * R 2 + K 1 * R 5 + K 2 * R 8)%sc;
    (K 0 * t0 + K 1 * sc_zero + K 2 * sc_zero)%sc;
    (K 3 * R 0 + K 4 * R 3 + K 5 * R 6)%sc;
    (K 3 * R 1 + K 4 * R 4 + K 5 * R 7)%sc;
    (K 3 * R 2 + K 4 * R 5 + K 5 * R 8)%sc;
    (K 3 * t0 + K 4 * sc_zero + K 5 * sc_zero)%sc;
    (K 6 * R 0 + K 7 * R 3 + K 8 * R 6)%sc;
    (K 6 * R 1 + K 7 * R 4 + K 8 * R 7)%sc;
    (K 6 * R 2 + K 7 * R 5 + K 8 * R 8)%sc;
    (K 6 * t0 + K 7 * sc_zero + K 8 * sc_zero)%sc ].
Proof.
  unfold updateExtrinsicsCalibData. rewrite upd_same. reflexivity.
Qed.

End Calib.

(** *** Single precision

    The arithmetic of the product of line 847.  Two [float]s are the same
    number when they are the same datum, or both a zero: IEEE-754 has a zero
    of each sign, and a sum of zeros is +0 unless every term is -0. *)

Definition same_number (a b : spec_float) : bool :=
  match a, b with
  | S754_zero _, S754_zero _ => true
  | S754_infinity s, S754_infinity s' => Bool.eqb s s'
  | S754_finite s m e, S754_finite s' m' e' =>
      Bool.eqb s s' && Pos.eqb m m' && Z.eqb e e'
  | _, _ => false
  end.

Definition is_zero (f : spec_float) : bool :=
  match f with S754_zero _ => true | _ => false end.

(** A zero or a finite number of the single-precision format. *)
Definition is_single (x : spec_float) : bool :=
  Rounding.is_fin x && SpecFloat.valid_binary 24 128 x.

Lemma same_number_refl (x : spec_float) :
  Rounding.is_nan x = false -> same_number x x = true.
Proof.
  destruct x as [s|s| |s m e]; cbn; intro H; try reflexivity;
    try discriminate.
  - now destruct s.
  - rewrite Pos.eqb_refl, Z.eqb_refl. now destruct s.
Qed.

Lemma single_mul_one_r (x : spec_float) :
  is_single x = true -> SFmul 24 128 x (@sc_one _ single) = x.
Proof.
  unfold is_single. intro H. apply andb_true_iff in H. destruct H as [Hf Hv].
  destruct x as [s|s| |s m e]; try discriminate.
  - cbn. now rewrite xorb_false_r.
  - exact (@Rounding.SFmul_one_r 24 128 ltac:(lia) s m e Hv).
Qed.

Lemma single_mul_zero_r (x : spec_float) :
  is_single x = true -> is_zero (SFmul 24 128 x (@sc_zero _ single)) = true.
Proof.
  unfold is_single. intro H. apply andb_true_iff in H. destruct H as [Hf _].
  destruct x; try discriminate; reflexivity.
Qed.

Lemma single_add_zero_r (a z x : spec_float) :
  same_number a x = true -> is_zero z = true ->
  same_number (SFadd 24 128 a z) x = true.
Proof.
  destruct z as [sz| | |]; try discriminate. intros H _.
  destruct a as [sa|sa| |sa ma ea]; try discriminate; cbn [SFadd];
    try exact H.
  destruct x; try discriminate. now destruct sa, sz.
Qed.

Lemma single_add_zero_l (z a x : spec_float) :
  is_zero z = true -> same_number a x = true ->
  same_number (SFadd 24 128 z a) x = true.
Proof.
  destruct z as [sz| | |]; try discriminate. intros _ H.
  destruct a as [sa|sa| |sa ma ea]; try discriminate; cbn [SFadd];
    try exact H.
  destruct x; try discriminate. now destruct sz, sa.
Qed.

Lemma single_add_zeros (a b : spec_float) :
  is_zero a = true -> is_zero b = true ->
  is_zero (SFadd 24 128 a b) = true.
Proof.
  destruct a as [sa| | |], b as [sb| | |]; try discriminate. intros _ _.
  now destruct sa, sb.
Qed.

Lemma single_zero_mul (z x : spec_float) :
  is_zero z = true -> Rounding.is_fin x = true ->
  is_zero (SFmul 24 128 z x) = true.
Proof.
  destruct z as [sz| | |]; try discriminate.
  destruct x; try discriminate; reflexivity.
Qed.

Lemma zeros_same_number (a x : spec_float) :
  is_zero a = true -> is_zero x = true -> same_number a x = true.
Proof. destruct a, x; try discriminate; reflexivity. Qed.

Lemma is_single_number (x : spec_float) :
  is_single x = true -> Rounding.is_nan x = false.
Proof. destruct x; try discriminate; reflexivity. Qed.

Lemma is_single_fin (x : spec_float) :
  is_single x = true -> Rounding.is_fin x = true.
Proof. unfold is_single. intro H. now apply andb_true_iff in H. Qed.

(** A sum of products in which every term but one is a product by zero. *)
Ltac single_zero :=
  solve [ reflexivity
        | apply single_mul_zero_r; assumption
        | apply single_zero_mul; [reflexivity | assumption]
        | apply single_add_zeros; single_zero ].

Ltac single_number :=
  solve [ rewrite single_mul_one_r by assumption;
          apply same_number_refl, is_single_number; assumption
        | apply same_number_refl, Rounding.SFmul_number;
          [apply is_single_fin; assumption | assumption]
        | apply zeros_same_number; single_zero
        | apply single_add_zero_r; [single_number | single_zero]
        | apply single_add_zero_l; [single_zero | single_number] ].

(** C7.  Stereo calibration update.  [updateExtrinsicsCalibData] takes the
    right-from-left extrinsics, forces the y and z components of the
    translation to 0, writes the rotation into the right record and the
    product K_right * [R | T] into its projection, and writes nothing else:
    the other fields of the right record and every other record, the left one
    included, are as before.  When the profiles hold a video profile of index
    1 and a video profile of index 2, [updateProfilesStreamCalibData] takes
    the last of each as left and right, after the per-stream update of every
    video profile; the left record then has the identity rotation and the
    projection of its own intrinsics, the right record has the rotation of
    the extrinsics, and its intrinsic matrix holds fx, ppx, fy, ppy and 1 of
    the right profile.  In single precision, for the identity rotation and a
    translation whose first component is a finite [B], the right projection
    is, number by number, [K | K e1 * B]; with the intrinsic matrix of a
    freshly calibrated stream that is [fx 0 ppx fx*B; 0 fy ppy 0; 0 0 1 0]. *)
Theorem stereo_calibration_update :
  (forall (F : Type) (scalar : Scalar F)
          (get_extrinsics_to : stream_profile -> stream_profile -> rs2_extrinsics)
          (lp rp : stream_profile) (ci : camera_info_map),
      let ext := get_extrinsics_to rp lp in
      let R := rotation ext in
      let t0 := translation ext 0 in
      let K := k (ci (sip_of rp)) in
      let ci' := updateExtrinsicsCalibData get_extrinsics_to lp rp ci in
      to_list 9 (r (ci' (sip_of rp))) = to_list 9 R /\
      to_list 12 (p (ci' (sip_of rp))) =
      [ (K 0 * R 0 + K 1 * R 3 + K 2 * R 6)%sc;
        (K 0 * R 1 + K 1 * R 4 + K 2 * R 7)%sc;
        (K 0 * R 2 + K 1 * R 5 + K 2 * R 8)%sc;
        (K 0 * t0 + K 1 * sc_zero + K 2 * sc_zero)%sc;
        (K 3 * R 0 + K 4 * R 3 + K 5 * R 6)%sc;
        (K 3 * R 1 + K 4 * R 4 + K 5 * R 7)%sc;
        (K 3 * R 2 + K 4 * R 5 + K 5 * R 8)%sc;
        (K 3 * t0 + K 4 * sc_zero + K 5 * sc_zero)%sc;
        (K 6 * R 0 + K 7 * R 3 + K 8 * R 6)%sc;
        (K 6 * R 1 + K 7 * R 4 + K 8 * R 7)%sc;
        (K 6 * R 2 + K 7 * R 5 + K 8 * R 8)%sc;
        (K 6 * t0 + K 7 * sc_zero + K 8 * sc_zero)%sc ] /\
      k (ci' (sip_of rp)) = k (ci (sip_of rp)) /\
      d (ci' (sip_of rp)) = d (ci (sip_of rp)) /\
      ci_width (ci' (sip_of rp)) = ci_width (ci (sip_of rp)) /\
      ci_height (ci' (sip_of rp)) = ci_height (ci (sip_of rp)) /\
      frame_id (ci' (sip_of rp)) = frame_id (ci (sip_of rp)) /\
      distortion_model (ci' (sip_of rp)) = distortion_model (ci (sip_of rp)) /\
      (forall sip, sip <> sip_of rp -> ci' sip = ci sip))
  /\
  (forall (F : Type) (scalar : Scalar F)
          (OPTICAL_FRAME_ID : stream_index_pair -> string)
          (_enable : stream_index_pair -> bool)
          (get_extrinsics_to : stream_profile -> stream_profile -> rs2_extrinsics)
          (profiles : list stream_profile) (ci : camera_info_map)
          (a b : stream_profile),
      In a profiles -> is_video a = true -> stream_index a = 1%Z ->
      In b profiles -> is_video b = true -> stream_index b = 2%Z ->
      let video := filter is_video profiles in
      let each := update_each OPTICAL_FRAME_ID _enable video ci in
      let ci' :=
        updateProfilesStreamCalibData OPTICAL_FRAME_ID _enable
          get_extrinsics_to profiles ci in
      exists lp rp : stream_profile,
        find (has_index 1) (rev video) = Some lp /\
        find (has_index 2) (rev video) = Some rp /\
        In lp profiles /\ is_video lp = true /\ stream_index lp = 1%Z /\
        In rp profiles /\ is_video rp = true /\ stream_index rp = 2%Z /\
        ci' = updateExtrinsicsCalibData get_extrinsics_to lp rp each /\
        (forall sip, sip <> sip_of rp -> ci' sip = each sip) /\
        to_list 9 (r (ci' (sip_of lp))) = identity_rotation /\
        to_list 12 (p (ci' (sip_of lp))) = projection_of (get_intrinsics lp) /\
        to_list 9 (r (ci' (sip_of rp))) =
        to_list 9 (rotation (get_extrinsics_to rp lp)) /\
        to_list 9 (k (ci' (sip_of rp))) =
        [ fx (get_intrinsics rp); k (ci (sip_of rp)) 1; ppx (get_intrinsics rp);
          k (ci (sip_of rp)) 3; fy (get_intrinsics rp); ppy (get_intrinsics rp);
          k (ci (sip_of rp)) 6; k (ci (sip_of rp)) 7; sc_one ])
  /\
  (forall (get_extrinsics_to :
             @stream_profile spec_float -> @stream_profile spec_float ->
             @rs2_extrinsics spec_float)
          (lp rp : @stream_profile spec_float)
          (ci : @camera_info_map spec_float) (B : spec_float),
      let ext := get_extrinsics_to rp lp in
      let K := k (ci (sip_of rp)) in
      let ci' := updateExtrinsicsCalibData get_extrinsics_to lp rp ci in
      to_list 9 (rotation ext) = identity_rotation ->
      translation ext 0 = B ->
      Rounding.is_fin B = true ->
      forallb is_single (to_list 9 K) = true ->
      Forall2 (fun x y => same_number x y = true)
        (to_list 12 (p (ci' (sip_of rp))))
        [ K 0; K 1; K 2; SFmul 24 128 (K 0) B;
          K 3; K 4; K 5; SFmul 24 128 (K 3) B;
          K 6; K 7; K 8; SFmul 24 128 (K 6) B ] /\
      (to_list 9 K =
       [fx (get_intrinsics rp); sc_zero; ppx (get_intrinsics rp);
        sc_zero; fy (get_intrinsics rp); ppy (get_intrinsics rp);
        sc_zero; sc_zero; sc_one] ->
       Forall2 (fun x y => same_number x y = true)
         (to_list 12 (p (ci' (sip_of rp))))
         [ fx (get_intrinsics rp); sc_zero; ppx (get_intrinsics rp);
           SFmul 24 128 (fx (get_intrinsics rp)) B;
           sc_zero; fy (get_intrinsics rp); ppy (get_intrinsics rp); sc_zero;
           sc_zero; sc_zero; sc_one; sc_zero ])).
Proof.
  split; [|split].
  - intros F scalar get_extrinsics_to lp rp ci ext R t0 K ci'. split; [|split].
    + unfold ci', updateExtrinsicsCalibData. rewrite upd_same. reflexivity.
    + apply updateExtrinsicsCalibData_projection.
    + unfold ci', updateExtrinsicsCalibData.
      repeat split; try (rewrite upd_same; reflexivity).
      intros sip Hsip. now apply upd_other.
  - intros F scalar OPTICAL_FRAME_ID _enable get_extrinsics_to profiles ci a b
           Ha Hva Hia Hb Hvb Hib video each ci'.
    destruct (@retained_profile F 1%Z profiles a Ha Hva Hia) as (lp & Fl & Hlp & Hvl & Hil).
    destruct (@retained_profile F 2%Z profiles b Hb Hvb Hib) as (rp & Fr & Hrp & Hvr & Hir).
    exists lp, rp.
    destruct (scan_profiles_spec OPTICAL_FRAME_ID _enable profiles ci)
      as (SL & SR & SI).
    destruct (scan_profiles_inv OPTICAL_FRAME_ID _enable profiles ci)
      as [HL HR].
    fold video in Fl, Fr, SL, SR, SI. rewrite Fl in SL. rewrite Fr in SR.
    fold each in SI.
    destruct (HL lp SL) as [_ (Hrl & Hpl & _)].
    destruct (HR rp SR) as [_ (_ & _ & Hk0 & Hk2 & Hk4 & Hk5 & Hk8)].
    rewrite SI in Hrl, Hpl, Hk0, Hk2, Hk4, Hk5, Hk8.
    assert (Hci : ci' = updateExtrinsicsCalibData get_extrinsics_to lp rp each).
    { unfold ci', updateProfilesStreamCalibData. now rewrite SL, SR, SI. }
    assert (Hneq : sip_of lp <> sip_of rp)
      by (apply sip_of_index_neq; congruence).
    assert (Hother : forall sip, sip <> sip_of rp -> ci' sip = each sip).
    { intros sip Hsip. rewrite Hci. unfold updateExtrinsicsCalibData.
      now apply upd_other. }
    assert (Hkr : k (ci' (sip_of rp)) = k (each (sip_of rp))).
    { rewrite Hci. unfold updateExtrinsicsCalibData. rewrite upd_same.
      reflexivity. }
    repeat split; try assumption.
    + rewrite (Hother _ Hneq). exact Hrl.
    + rewrite (Hother _ Hneq). exact Hpl.
    + rewrite Hci. unfold updateExtrinsicsCalibData. rewrite upd_same.
      reflexivity.
    + rewrite Hkr. unfold to_list. cbn [map seq].
      rewrite Hk0, Hk2, Hk4, Hk5, Hk8. unfold each.
      rewrite !update_each_unwritten by (unfold unwritten_entry; auto).
      reflexivity.
  - intros get_extrinsics_to lp rp ci B ext K ci' HR HB HfB HK.
    unfold ci'. rewrite updateExtrinsicsCalibData_projection.
    fold ext K. cbv zeta.
    destruct (to_list_9_inv HR)
      as (H0 & H1 & H2 & H3 & H4 & H5 & H6 & H7 & H8).
    rewrite H0, H1, H2, H3, H4, H5, H6, H7, H8, HB.
    unfold to_list in HK. cbn [map seq forallb] in HK.
    repeat (apply andb_true_iff in HK; destruct HK as [?HK0 HK]).
    cbn [sc_mul sc_add single]. split.
    + repeat (apply Forall2_cons; [single_number|]). apply Forall2_nil.
    + intro HKl.
      destruct (to_list_9_inv HKl)
        as (K0 & K1 & K2 & K3 & K4 & K5 & K6 & K7 & K8).
      rewrite K0, K1, K2, K3, K4, K5, K6, K7, K8 in *.
      repeat (apply Forall2_cons; [single_number|]). apply Forall2_nil.
Qed.

(** A left/right infrared pair 50 mm apart, in single precision.  The device
    reports a stray y component of the translation, which the update
    discards. *)
Definition pair_intrinsics : @rs2_intrinsics spec_float :=
  mk_intrinsics 640 480 (sc_of_Z 320) (sc_of_Z 240) (sc_of_Z 600) (sc_of_Z 600)
                RS2_DISTORTION_BROWN_CONRADY (fun _ => sc_zero).

Definition pair_left : @stream_profile spec_float :=
  mk_profile true RS2_STREAM_INFRARED 1 pair_intrinsics.

Definition pair_right : @stream_profile spec_float :=
  mk_profile true RS2_STREAM_INFRARED 2 pair_intrinsics.

(** -0.05f *)
Definition pair_baseline : spec_float :=
  SFdiv 24 128 (sc_of_Z (-1)) (sc_of_Z 20).

Definition pair_extrinsics (from to : @stream_profile spec_float)
  : @rs2_extrinsics spec_float :=
  mk_extrinsics
    (fun i => match i with 0 | 4 | 8 => sc_one | _ => sc_zero end)
    (fun i => match i with
              | 0 => pair_baseline
              | 1 => sc_of_Z 3
              | _ => sc_zero
              end).

Definition pair_camera_info : @camera_info_map spec_float :=
  updateStreamCalibData (fun _ => "optical_frame") (fun _ => true) pair_right
    (updateStreamCalibData (fun _ => "optical_frame") (fun _ => true) pair_left
       camera_info_empty).

Lemma stereo_calibration_update_witness :
  Forall2 (fun x y => same_number x y = true)
    (to_list 12
       (p (updateExtrinsicsCalibData pair_extrinsics pair_left pair_right
             pair_camera_info (sip_of pair_right))))
    [ sc_of_Z 600; sc_zero; sc_of_Z 320; SFmul 24 128 (sc_of_Z 600) pair_baseline;
      sc_zero; sc_of_Z 600; sc_of_Z 240; sc_zero;
      sc_zero; sc_zero; sc_one; sc_zero ].
Proof.
  exact (proj2
           (proj2 (proj2 stereo_calibration_update)
              pair_extrinsics pair_left pair_right pair_camera_info
              pair_baseline eq_refl eq_refl eq_refl eq_refl)
           eq_refl).
Defined.

(** The same pair through [updateProfilesStreamCalibData], datum by datum:
    every zero of the right projection is +0, and fx * B is the [float] -30,
    the rounded product of 600 and the [float] nearest to -0.05. *)
Lemma stereo_pair_projection :
  let ci' :=
    updateProfilesStreamCalibData (fun _ => "optical_frame") (fun _ => true)
      pair_extrinsics [pair_left; pair_right] camera_info_empty in
  to_list 12 (p (ci' (sip_of pair_right))) =
  [ sc_of_Z 600; S754_zero false; sc_of_Z 320;
    SFopp (sc_of_Z 30);
    S754_zero false; sc_of_Z 600; sc_of_Z 240; S754_zero false;
    S754_zero false; S754_zero false; sc_one; S754_zero false ] /\
  to_list 12 (p (ci' (sip_of pair_left))) = projection_of pair_intrinsics /\
  to_list 9 (r (ci' (sip_of pair_left))) = identity_rotation.
Proof. cbv zeta. repeat split; vm_compute; reflexivity. Qed.

End Calibration.

(** * Further properties of the code *)

(** ** Subsequences *)

Module Sublist.

(** [a] is a subsequence of [b]: [b] with some elements left out. *)
Inductive subsequence {A : Type} : list A -> list A -> Prop :=
| sub_nil : subsequence [] []
| sub_skip (x : A) (a b : list A) : subsequence a b -> subsequence a (x :: b)
| sub_take (x : A) (a b : list A) :
    subsequence a b -> subsequence (x :: a) (x :: b).

Lemma subsequence_refl {A : Type} (l : list A) : subsequence l l.
Proof. induction l; constructor; assumption. Qed.

Lemma subsequence_nil {A : Type} (l : list A) : subsequence [] l.
Proof. induction l; constructor; assumption. Qed.

Lemma subsequence_app {A : Type} (a b a' b' : list A) :
  subsequence a b -> subsequence a' b' -> subsequence (a ++ a') (b ++ b').
Proof.
  intros H H'. induction H; simpl; try (constructor; assumption). exact H'.
Qed.

Lemma subsequence_length {A : Type} (a b : list A) :
  subsequence a b -> length a <= length b.
Proof. induction 1; simpl; lia. Qed.

Lemma subsequence_snoc_right {A : Type} (a b : list A) (x : A) :
  subsequence a b -> subsequence a (b ++ [x]).
Proof.
  intro H. rewrite <- (app_nil_r a).
  apply subsequence_app; [exact H | repeat constructor].
Qed.

Lemma subsequence_app_left {A : Type} (a a' b : list A) :
  subsequence (a ++ a') b -> subsequence a b.
Proof.
  remember (a ++ a') as c eqn:E. intro H. revert a a' E.
  induction H as [|x c b H IH|x c b H IH]; intros a a' E.
  - destruct a; [constructor | discriminate].
  - apply sub_skip. now apply (IH a a').
  - destruct a as [|y a].
    + apply subsequence_nil.
    + simpl in E. inversion E; subst. apply sub_take. now apply (IH a a').
Qed.

End Sublist.

(** ** Double precision: values that are not finite *)

Module Binary64.

Definition SF_not_finite (f : spec_float) : bool :=
  match f with
  | S754_nan | S754_infinity _ => true
  | _ => false
  end.

(** Neither a number nor finite: an infinity or a NaN. *)
Definition not_finite (x : float) : bool := SF_not_finite (Prim2SF x).

Lemma SFdiv_by_zero (prec emax : Z) (x : spec_float) (s : bool) :
  SF_not_finite (SFdiv prec emax x (S754_zero s)) = true.
Proof. destruct x; reflexivity. Qed.

Lemma SFsub_not_finite (prec emax : Z) (x y : spec_float) :
  SF_not_finite y = true -> SF_not_finite (SFsub prec emax x y) = true.
Proof.
  destruct y as [| sy | |]; try discriminate; intros _.
  - destruct x as [| sx | |]; try reflexivity.
    simpl. now destruct sx, sy.
  - now destruct x.
Qed.

Lemma SFmul_not_finite (prec emax : Z) (x y : spec_float) :
  SF_not_finite y = true -> SF_not_finite (SFmul prec emax x y) = true.
Proof.
  destruct y as [| sy | |]; try discriminate; intros _; now destruct x.
Qed.

Lemma SFadd_not_finite (prec emax : Z) (x y : spec_float) :
  SF_not_finite x = true -> SF_not_finite y = true ->
  SF_not_finite (SFadd prec emax x y) = true.
Proof.
  destruct x as [| sx | |]; try discriminate; intros _;
    destruct y as [| sy | |]; try discriminate; intros _; try reflexivity.
  simpl. now destruct sx, sy.
Qed.

(** A finite [double] minus itself is zero. *)
Lemma sub_diag_finite (t : float) :
  not_finite t = false -> Prim2SF (t - t)%float = S754_zero false.
Proof.
  unfold not_finite. rewrite sub_spec. unfold SF64sub.
  destruct (Prim2SF t) as [s | s | | s m e]; try discriminate; intros _.
  - now destruct s.
  - unfold SFsub. rewrite Z.sub_diag. reflexivity.
Qed.

End Binary64.

(** ** The gated publisher under any sequence of calls (lines 11-62) *)

Module GateLaws.
Import SyncedImuPublisher.
Section Calls.
Variable Imu : Type.

(** A call on the publisher, as its two users make them: the inertial
    callback publishes, the frame callback pauses and resumes. *)
Inductive call : Type :=
| CallPublish (imu_msg : Imu)
| CallPause
| CallResume.

(** The state after a call, and the message it accepted, if any: a [Publish]
    that throws accepts nothing. *)
Definition run_call (c : call) (s : t Imu) : t Imu * list Imu :=
  match c with
  | CallPublish imu_msg =>
      match Publish imu_msg s with
      | (Ok _, s') => (s', [imu_msg])
      | (Throw _, s') => (s', [])
      end
  | CallPause => (Pause s, [])
  | CallResume => (Resume s, [])
  end.

Fixpoint run_calls (cs : list call) (s : t Imu) : t Imu * list Imu :=
  match cs with
  | [] => (s, [])
  | c :: rest =>
      let (s1, accepted1) := run_call c s in
      let (s2, accepted2) := run_calls rest s1 in
      (s2, accepted1 ++ accepted2)
  end.

(** Everything handed over so far, delivered or still queued. *)
Definition handed_over (s : t Imu) : list Imu :=
  _publisher s ++ _pending_messages s.

(** The messages of the [Publish] calls of a sequence. *)
Fixpoint submitted (cs : list call) : list Imu :=
  match cs with
  | [] => []
  | CallPublish imu_msg :: rest => imu_msg :: submitted rest
  | _ :: rest => submitted rest
  end.

(** A flowing publisher has nothing queued.  The constructor establishes
    this and every call keeps it. *)
Definition settled (s : t Imu) : Prop :=
  _pause_mode s = false -> _pending_messages s = [].

Lemma run_call_settled (c : call) (s : t Imu) :
  settled s -> settled (fst (run_call c s)).
Proof.
  unfold settled. intro Hs. destruct c as [m| |]; cbn [run_call fst snd].
  - unfold Publish, throw. destruct (_pause_mode s) eqn:Hp.
    + destruct (_waiting_list_size s <=? length (_pending_messages s));
        simpl; congruence.
    + simpl. intros _. exact (Hs eq_refl).
  - unfold Pause. destruct (negb (_is_enabled s)); simpl;
      [exact Hs | discriminate].
  - rewrite Resume_eq. reflexivity.
Qed.

Lemma run_call_fields (c : call) (s : t Imu) :
  _waiting_list_size (fst (run_call c s)) = _waiting_list_size s /\
  _is_enabled (fst (run_call c s)) = _is_enabled s.
Proof.
  destruct c as [m| |]; cbn [run_call fst snd].
  - unfold Publish, throw.
    destruct (_pause_mode s);
      [destruct (_waiting_list_size s <=? length (_pending_messages s))|];
      simpl; split; reflexivity.
  - unfold Pause. destruct (negb (_is_enabled s)); simpl; split; reflexivity.
  - rewrite Resume_eq. split; reflexivity.
Qed.

Lemma run_call_handed_over (c : call) (s : t Imu) :
  settled s ->
  handed_over (fst (run_call c s)) = handed_over s ++ snd (run_call c s).
Proof.
  unfold handed_over, settled. intro Hs. destruct c as [m| |]; cbn [run_call fst snd].
  - unfold Publish, throw. destruct (_pause_mode s) eqn:Hp.
    + destruct (_waiting_list_size s <=? length (_pending_messages s));
        simpl; now rewrite ?app_nil_r, ?app_assoc.
    + simpl. rewrite (Hs eq_refl), !app_nil_r. reflexivity.
  - unfold Pause.
    destruct (negb (_is_enabled s)); simpl; now rewrite app_nil_r.
  - rewrite Resume_eq. simpl. now rewrite !app_nil_r.
Qed.

(** X1.  No loss, no reordering, no duplication.  Start from a publisher
    with nothing queued while flowing, as the constructor builds it.  After
    any sequence of [Publish], [Pause] and [Resume] calls, the messages
    delivered followed by the messages still queued are those that were
    there before followed by the accepted ones, in the order of their
    submission; a [Publish] that threw is the only way a message is not
    accepted. *)
Theorem calls_keep_every_accepted_message (cs : list call) :
  forall s : t Imu,
    settled s ->
    handed_over (fst (run_calls cs s)) = handed_over s ++ snd (run_calls cs s).
Proof.
  induction cs as [|c cs IH]; intros s Hs; simpl.
  - now rewrite app_nil_r.
  - pose proof (run_call_handed_over c Hs) as Hc.
    pose proof (run_call_settled c Hs) as Hs1.
    destruct (run_call c s) as [s1 a1]. simpl in Hc, Hs1.
    specialize (IH s1 Hs1). destruct (run_calls cs s1) as [s2 a2]. simpl in *.
    now rewrite IH, Hc, app_assoc.
Qed.

(** What every state reachable from the constructor satisfies. *)
Record reachable_inv (s : t Imu) : Prop := {
  flowing_queue_empty : _pause_mode s = false -> _pending_messages s = [];
  queue_within_capacity :
    length (_pending_messages s) <= _waiting_list_size s;
  paused_only_if_enabled : _pause_mode s = true -> _is_enabled s = true
}.

Lemma run_call_inv (c : call) (s : t Imu) :
  reachable_inv s -> reachable_inv (fst (run_call c s)).
Proof.
  intros [Hq Hcap Hen]. destruct c as [m| |]; cbn [run_call fst snd].
  - unfold Publish, throw. destruct (_pause_mode s) eqn:Hp.
    + destruct (Nat.leb_spec (_waiting_list_size s)
                  (length (_pending_messages s))) as [Hfull|Hroom];
        simpl; constructor; simpl; rewrite ?Hp, ?length_app; simpl;
        try discriminate; try lia; intros _; now apply Hen.
    + simpl. constructor; simpl; rewrite ?Hp; try discriminate; try lia.
      intros _. now apply Hq.
  - unfold Pause. destruct (_is_enabled s) eqn:He; simpl.
    + constructor; simpl; [discriminate | exact Hcap | now intros _].
    + constructor; [exact Hq | exact Hcap | rewrite He; exact Hen].
  - rewrite Resume_eq. constructor; simpl; [reflexivity | lia | discriminate].
Qed.

Lemma run_calls_inv (cs : list call) :
  forall s, reachable_inv s -> reachable_inv (fst (run_calls cs s)).
Proof.
  induction cs as [|c cs IH]; intros s Hs; simpl; [exact Hs|].
  pose proof (run_call_inv c Hs) as H1.
  destruct (run_call c s) as [s1 a1]. simpl in H1.
  specialize (IH s1 H1). destruct (run_calls cs s1) as [s2 a2]. exact IH.
Qed.

(** X2.  The queue of a publisher built by the constructor never exceeds its
    capacity, is empty whenever the publisher is flowing, and the publisher
    is never paused unless it was enabled: this holds after any sequence of
    calls. *)
Theorem constructed_publisher_invariant
  (waiting_list_size : nat) (is_enabled : bool) (cs : list call) :
  let s := fst (run_calls cs (create Imu waiting_list_size is_enabled)) in
  length (_pending_messages s) <= waiting_list_size /\
  (_pause_mode s = false -> _pending_messages s = []) /\
  (_pause_mode s = true -> is_enabled = true).
Proof.
  intro s.
  assert (Hinv : reachable_inv s).
  { apply run_calls_inv. constructor; simpl; [reflexivity | lia | discriminate]. }
  assert (Hconst : forall cs' s0,
             _waiting_list_size (fst (run_calls cs' s0)) = _waiting_list_size s0
             /\ _is_enabled (fst (run_calls cs' s0)) = _is_enabled s0).
  { induction cs' as [|c cs' IH]; intro s0; simpl; [split; reflexivity|].
    destruct (run_call_fields c s0) as (Hw & He).
    destruct (run_call c s0) as [s1 a1]. simpl in Hw, He.
    specialize (IH s1). destruct (run_calls cs' s1) as [s2 a2]. simpl in *.
    destruct IH as [IHw IHe]. split; congruence. }
  destruct (Hconst cs (create Imu waiting_list_size is_enabled)) as [Hw He].
  fold s in Hw, He. simpl in Hw, He.
  destruct Hinv as [Hq Hcap Hen]. rewrite Hw in Hcap.
  repeat split; [exact Hcap | exact Hq |].
  intro Hp. rewrite <- He. now apply Hen.
Qed.

(** X3.  A publisher that was not enabled never defers: [Pause] has no
    effect on it, so every [Publish] is accepted and delivered at once,
    whatever the capacity, and the queue stays empty. *)
Theorem disabled_publisher_never_defers
  (waiting_list_size : nat) (cs : list call) :
  let r := run_calls cs (create Imu waiting_list_size false) in
  snd r = submitted cs /\
  _publisher (fst r) = submitted cs /\
  _pending_messages (fst r) = [] /\
  _pause_mode (fst r) = false.
Proof.
  cbv zeta.
  assert (H : forall cs' s,
             _is_enabled s = false -> _pause_mode s = false ->
             _pending_messages s = [] ->
             let r := run_calls cs' s in
             snd r = submitted cs' /\
             _publisher (fst r) = _publisher s ++ submitted cs' /\
             _pending_messages (fst r) = [] /\
             _pause_mode (fst r) = false).
  { induction cs' as [|c cs' IH]; intros s He Hp Hq; simpl.
    - rewrite app_nil_r. repeat split; assumption.
    - destruct c as [m| |]; cbn [run_call fst snd].
      + rewrite (Publish_flowing s m Hp).
        specialize (IH (publish m s) He Hp Hq).
        destruct (run_calls cs' (publish m s)) as [s2 a2]. simpl in *.
        destruct IH as (Ha & Hpub & Hq2 & Hp2).
        rewrite Ha, Hpub, <- app_assoc. repeat split; assumption.
      + unfold Pause. rewrite He. simpl.
        specialize (IH s He Hp Hq).
        destruct (run_calls cs' s) as [s2 a2]. exact IH.
      + assert (HR : Resume s = s).
        { rewrite Resume_eq, Hq, app_nil_r. destruct s; simpl in *; congruence. }
        rewrite HR. specialize (IH s He Hp Hq).
        destruct (run_calls cs' s) as [s2 a2]. exact IH. }
  apply (H cs (create Imu waiting_list_size false)); reflexivity.
Qed.

End Calls.

Lemma calls_keep_every_accepted_message_witness :
  let cs := [CallPublish 1; CallPause nat; CallPublish 2; CallPublish 3;
             CallResume nat; CallPublish 4] in
  handed_over (fst (run_calls cs (create nat 1 true))) = [1; 2; 4] /\
  snd (run_calls cs (create nat 1 true)) = [1; 2; 4].
Proof.
  cbv zeta. split; [|reflexivity].
  rewrite (@calls_keep_every_accepted_message nat
             [CallPublish 1; CallPause nat; CallPublish 2; CallPublish 3;
              CallResume nat; CallPublish 4]
             (create nat 1 true) (fun _ => eq_refl)).
  reflexivity.
Defined.

End GateLaws.

(** ** The two synchronisation policies over runs of samples (lines 307-366) *)

Module ImuPolicies.
Import ImuSync Sublist Binary64.

Section Policies.
Context {F : Type} {scalar : Scalar F}.
Variable is_set : CimuData F -> bool.

(** *** Copy policy *)

(** A run of calls of [FillImuData_Copy], one per sample, each with a fresh
    output list as [imu_callback_sync] gives it: the readings of the run and
    the cached accelerometer sample it leaves. *)
Fixpoint run_copy (samples : list (CimuData F)) (_accel_data : CimuData F)
  : list (Imu F) * CimuData F :=
  match samples with
  | [] => ([], _accel_data)
  | imu_data :: rest =>
      let (msgs, cache) := FillImuData_Copy is_set imu_data _accel_data in
      let (msgs', cache') := run_copy rest cache in
      (msgs ++ msgs', cache')
  end.

Lemma run_copy_gyros (gs : list (CimuData F)) (cache : CimuData F) :
  Forall (fun g => m_type g <> ACCEL) gs ->
  run_copy gs cache =
  (if is_set cache then map (CreateUnitedMessage cache) gs else [], cache).
Proof.
  induction gs as [|g gs IH]; intro Hgs; simpl.
  - now destruct (is_set cache).
  - inversion Hgs as [|? ? Hg Hgs']; subst.
    unfold FillImuData_Copy.
    destruct (sip_eqb_spec ACCEL (m_type g)) as [E|_]; [congruence|].
    destruct (is_set cache) eqn:Hc; cbn [negb];
      rewrite (IH Hgs'); reflexivity.
Qed.

(** X4.  Copy policy, last value held.  An accelerometer sample emits
    nothing and replaces the cache.  When it counts as set, each sample of
    another stream that follows gives exactly one reading, in order: its
    stamp is that sample's time converted to a 64-bit count of nanoseconds
    (the fraction of the [double] is discarded), its angular velocity is that
    sample's vector, and its linear acceleration is the cached accelerometer
    vector, unchanged; the cache is still the accelerometer sample
    afterwards.  While the cache does not count as set, such samples give
    nothing. *)
Theorem copy_policy_holds_last_accel
  (a cache : CimuData F) (gs : list (CimuData F)) :
  m_type a = ACCEL ->
  Forall (fun g => m_type g <> ACCEL) gs ->
  (is_set a = true ->
   run_copy (a :: gs) cache =
   (map (fun g => mkImu (to_int64 (m_time_ns g)) (m_data g) (m_data a)) gs,
    a)) /\
  (is_set cache = false -> run_copy gs cache = ([], cache)).
Proof.
  intros Ha Hgs. split.
  - intro Hset. simpl. unfold FillImuData_Copy at 1.
    rewrite Ha, sip_eqb_refl. rewrite (run_copy_gyros a Hgs), Hset.
    reflexivity.
  - intro Hunset. now rewrite (run_copy_gyros cache Hgs), Hunset.
Qed.

(** *** Linear-interpolation policy *)

Definition is_gyro (d : CimuData F) : bool := sip_eqb (m_type d) GYRO.

(** What a reading shows of the gyro sample behind it: the stamp, a count
    of nanoseconds, and the angular velocity.  And the same of a sample: its
    time converted as [CreateUnitedMessage] converts it, and its vector. *)
Definition reading_key (m : Imu F) : option Z * Vector3 F :=
  (stamp m, angular_velocity m).

Definition sample_key (d : CimuData F) : option Z * Vector3 F :=
  (to_int64 (m_time_ns d), m_data d).

(** The readings emitted and the gyro samples queued so far come from the
    gyro samples seen so far, each used once, in order. *)
Definition emitted_from (seen : list (CimuData F)) (l : @locals F) : Prop :=
  subsequence
    (map reading_key (imu_msgs l) ++ map sample_key (gyros_data l))
    (map sample_key (filter is_gyro seen)).

Lemma emitted_from_seen (seen : list (CimuData F)) (l l' : @locals F)
  (front : CimuData F) :
  imu_msgs l' = imu_msgs l -> gyros_data l' = gyros_data l ->
  emitted_from seen l -> emitted_from (seen ++ [front]) l'.
Proof.
  unfold emitted_from. intros Hm Hg H. rewrite Hm, Hg, filter_app. simpl.
  destruct (is_gyro front); simpl.
  - rewrite map_app. now apply subsequence_snoc_right.
  - now rewrite app_nil_r.
Qed.

Lemma interpolated_key (a0 a1 g : CimuData F) :
  reading_key (interpolated a0 a1 g) = sample_key g.
Proof. reflexivity. Qed.

Lemma step_emitted_from (seen : list (CimuData F)) (l : @locals F)
  (front : CimuData F) :
  emitted_from seen l -> emitted_from (seen ++ [front]) (step is_set l front).
Proof.
  intro H. unfold step.
  destruct (negb (is_set (accel0 l)) && sip_eqb (m_type front) ACCEL);
    [eapply emitted_from_seen; [| |exact H]; reflexivity|].
  destruct (is_set (accel0 l) && sip_eqb (m_type front) ACCEL) eqn:Hacc.
  - (* the queue is flushed: the same keys, now as readings *)
    apply andb_true_iff in Hacc. destruct Hacc as [_ Hacc].
    apply sip_eqb_eq in Hacc.
    unfold emitted_from in *. cbn [imu_msgs gyros_data].
    rewrite flush_gyros_eq, map_app, map_map, app_nil_r, filter_app.
    cbn [filter]. unfold is_gyro at 2. rewrite Hacc. cbn. rewrite app_nil_r.
    erewrite (map_ext (fun x => reading_key (interpolated (accel0 l) front x)));
      [exact H | reflexivity].
  - destruct (is_set (accel0 l)
              && (m_time_ns (accel0 l) <=? m_time_ns front)%sc
              && sip_eqb (m_type front) GYRO) eqn:Hgy.
    + (* a gyro sample is queued *)
      apply andb_true_iff in Hgy. destruct Hgy as [_ Hgy].
      unfold emitted_from in *. cbn [imu_msgs gyros_data].
      rewrite filter_app. cbn [filter]. unfold is_gyro at 2. rewrite Hgy.
      rewrite !map_app, app_assoc. cbn [map].
      apply subsequence_app; [exact H | apply subsequence_refl].
    + eapply emitted_from_seen; [| |exact H]; reflexivity.
Qed.

Lemma fold_emitted_from (xs : list (CimuData F)) :
  forall seen l,
    emitted_from seen l ->
    emitted_from (seen ++ xs) (fold_left (step is_set) xs l).
Proof.
  induction xs as [|x xs IH]; intros seen l H; simpl.
  - now rewrite app_nil_r.
  - replace (seen ++ x :: xs) with ((seen ++ [x]) ++ xs)
      by (rewrite <- app_assoc; reflexivity).
    apply IH, step_emitted_from, H.
Qed.

(** X5.  Linear-interpolation policy, one reading per gyro sample at most.
    Whatever the history and the sample, the readings returned, taken by
    stamp (a count of nanoseconds) and angular velocity, are a subsequence of
    the gyro samples of the history, taken by time converted to a count of
    nanoseconds and vector: every reading comes from a gyro sample of the
    history, no gyro sample gives two readings, the order of arrival is kept,
    and no accelerometer sample is ever emitted as a reading.  In particular
    there are never more readings than gyro samples. *)
Theorem linear_interpolation_readings_are_gyro_samples
  (imu_data : CimuData F) (history : list (CimuData F)) :
  let msgs := fst (FillImuData_LinearInterpolation is_set imu_data history) in
  subsequence (map reading_key msgs)
    (map sample_key (filter is_gyro (history ++ [imu_data]))) /\
  length msgs <= length (filter is_gyro (history ++ [imu_data])).
Proof.
  cbv zeta.
  assert (H : subsequence
                (map reading_key
                   (fst (FillImuData_LinearInterpolation is_set imu_data history)))
                (map sample_key (filter is_gyro (history ++ [imu_data])))).
  { unfold FillImuData_LinearInterpolation.
    destruct (negb (sip_eqb (m_type imu_data) ACCEL)
              || (length (history ++ [imu_data]) <? 3)).
    - apply subsequence_nil.
    - cbn [fst]. unfold drain_history.
      assert (H0 : emitted_from [] (locals_init (F:=F)))
        by (unfold emitted_from; constructor).
      pose proof (fold_emitted_from (history ++ [imu_data]) H0) as H.
      unfold emitted_from in H. cbn [app] in H.
      exact (subsequence_app_left _ _ H). }
  split; [exact H|].
  apply subsequence_length in H. now rewrite !length_map in H.
Qed.

(** A run of gyro samples while no accelerometer sample is set changes
    nothing but [crnt_imu]. *)
Lemma fold_gyros_unset (gs : list (CimuData F)) :
  forall l,
    is_set (accel0 l) = false ->
    Forall (fun g => m_type g = GYRO) gs ->
    let l' := fold_left (step is_set) gs l in
    accel0 l' = accel0 l /\ gyros_data l' = gyros_data l /\
    imu_msgs l' = imu_msgs l.
Proof.
  induction gs as [|g gs IH]; intros l Hun Hgs; simpl; [repeat split|].
  inversion Hgs as [|? ? Hg Hgs']; subst.
  assert (Hstep : step is_set l g =
                  mkLocals (gyros_data l) (accel0 l) (accel1 l) g (imu_msgs l)).
  { unfold step. rewrite Hun, Hg. reflexivity. }
  rewrite Hstep.
  destruct (IH (mkLocals (gyros_data l) (accel0 l) (accel1 l) g (imu_msgs l))
              Hun Hgs') as (H0 & H1 & H2).
  repeat split; assumption.
Qed.

(** X6.  Gyro samples that arrive before the first accelerometer sample are
    discarded.  With a default-constructed sample that does not count as set,
    an accelerometer arrival on a history of two or more gyro samples returns
    no reading and leaves only the accelerometer sample in the history: those
    gyro samples are not kept for a later interpolation. *)
Theorem gyros_before_first_accel_are_dropped
  (a : CimuData F) (gs : list (CimuData F)) :
  is_set CimuData_default = false ->
  m_type a = ACCEL ->
  Forall (fun g => m_type g = GYRO) gs ->
  2 <= length gs ->
  FillImuData_LinearInterpolation is_set a gs = ([], [a]).
Proof.
  intros Hdef Ha Hgs Hlen. unfold FillImuData_LinearInterpolation.
  rewrite Ha, sip_eqb_refl. cbn [negb orb].
  destruct (Nat.ltb_spec (length (gs ++ [a])) 3) as [Hlt|_];
    [rewrite length_app in Hlt; simpl in Hlt; lia|].
  unfold drain_history. rewrite fold_left_app. cbn [fold_left].
  destruct (@fold_gyros_unset gs locals_init Hdef Hgs) as (H0 & H1 & H2).
  set (l := fold_left (step is_set) gs locals_init) in *.
  unfold step. rewrite H0. cbn [accel0 locals_init]. rewrite Hdef, Ha.
  cbn. now rewrite H2.
Qed.

(** *** Cycles of the linear-interpolation policy *)

(** A run of calls of [FillImuData_LinearInterpolation], one per sample: the
    readings of the run and the history it leaves. *)
Fixpoint run_interpolation (samples _imu_history : list (CimuData F))
  : list (Imu F) * list (CimuData F) :=
  match samples with
  | [] => ([], _imu_history)
  | imu_data :: rest =>
      let (msgs, history) :=
        FillImuData_LinearInterpolation is_set imu_data _imu_history in
      let (msgs', history') := run_interpolation rest history in
      (msgs ++ msgs', history')
  end.

Lemma run_interpolation_gyros (gs rest : list (CimuData F)) :
  forall history,
    Forall (fun g => m_type g = GYRO) gs ->
    run_interpolation (gs ++ rest) history =
    run_interpolation rest (history ++ gs).
Proof.
  induction gs as [|g gs IH]; intros history Hgs; simpl.
  - now rewrite app_nil_r.
  - inversion Hgs as [|? ? Hg Hgs']; subst.
    unfold FillImuData_LinearInterpolation. rewrite Hg. cbn [sip_eqb fst snd GYRO ACCEL rs2_stream_eqb andb negb orb].
    rewrite (IH (history ++ [g]) Hgs'), <- app_assoc. cbn [app].
    now destruct (run_interpolation rest (history ++ g :: gs)).
Qed.

(** The first accelerometer sample of a drain becomes [accel0], whether or
    not a default-constructed sample counts as set. *)
Lemma step_first_accel (a0 : CimuData F) :
  m_type a0 = ACCEL ->
  let l := step is_set locals_init a0 in
  accel0 l = a0 /\ gyros_data l = [] /\ imu_msgs l = [].
Proof.
  intro Ha. unfold step. rewrite Ha, sip_eqb_refl, !andb_true_r.
  cbn [accel0 locals_init gyros_data imu_msgs].
  destruct (is_set CimuData_default); cbn; repeat split.
Qed.

(** The call for [a1] after a run of gyro samples behind [a0]. *)
Lemma run_interpolation_segment (a0 a1 : CimuData F) (gs : list (CimuData F)) :
  m_type a0 = ACCEL -> m_type a1 = ACCEL -> is_set a0 = true ->
  Forall (fun g => m_type g = GYRO) gs ->
  1 <= length gs ->
  run_interpolation (gs ++ [a1]) [a0] =
  (map (fun g =>
          mkImu (to_int64 (m_time_ns g)) (m_data g)
            (lerp (m_data a0) (m_data a1)
               ((m_time_ns g - m_time_ns a0)
                / (m_time_ns a1 - m_time_ns a0))%sc))
     (filter (fun g => (m_time_ns a0 <=? m_time_ns g)%sc) gs),
   [a1]).
Proof.
  intros Ha0 Ha1 Hset Hgs Hlen.
  rewrite (run_interpolation_gyros [a1] [a0] Hgs).
  cbn [run_interpolation]. unfold FillImuData_LinearInterpolation.
  rewrite Ha1, sip_eqb_refl. cbn [negb orb].
  destruct (Nat.ltb_spec (length (([a0] ++ gs) ++ [a1])) 3) as [Hlt|_];
    [rewrite !length_app in Hlt; simpl in Hlt; lia|].
  unfold drain_history. rewrite fold_left_app, fold_left_app.
  cbn [fold_left].
  destruct (@step_first_accel a0 Ha0) as (H0 & Hq & Hm).
  set (l1 := step is_set locals_init a0) in *.
  assert (Hset1 : is_set (accel0 l1) = true) by now rewrite H0.
  destruct (@fold_gyros F scalar is_set gs l1 Hset1 Hgs) as (H0' & Hm' & Hq').
  set (l2 := fold_left (step is_set) gs l1) in *.
  assert (Hset2 : is_set (accel0 l2) = true) by now rewrite H0', H0.
  rewrite (@step_accel_flush F scalar is_set l2 a1 Hset2 Ha1).
  rewrite step_crnt_imu, Hm', Hm, Hq', Hq, H0', H0. cbn [app].
  rewrite app_nil_r. reflexivity.
Qed.

(** X7.  One cycle of the linear-interpolation policy in steady state.  The
    history holds one accelerometer sample [a0] that counts as set, which is
    what a draining call leaves.  One or more gyro samples arrive, then the
    accelerometer sample [a1].  The gyro calls return nothing; the call for
    [a1] returns exactly one reading per gyro sample stamped at or after
    [a0], in arrival order and nothing else, each with the gyro sample's time
    as a count of nanoseconds, its vector, and the acceleration interpolated
    between [a0] and [a1] at the gyro sample's time; gyro samples stamped
    before [a0] give no reading.  The history is then [a1] alone, ready for
    the next cycle. *)
Theorem interpolation_cycle (a0 a1 : CimuData F) (gs : list (CimuData F)) :
  m_type a0 = ACCEL -> m_type a1 = ACCEL -> is_set a0 = true ->
  Forall (fun g => m_type g = GYRO) gs ->
  1 <= length gs ->
  run_interpolation (gs ++ [a1]) [a0] =
  (map (fun g =>
          mkImu (to_int64 (m_time_ns g)) (m_data g)
            (lerp (m_data a0) (m_data a1)
               ((m_time_ns g - m_time_ns a0)
                / (m_time_ns a1 - m_time_ns a0))%sc))
     (filter (fun g => (m_time_ns a0 <=? m_time_ns g)%sc) gs),
   [a1]).
Proof.
  intros Ha0 Ha1 Hset Hgs Hlen.
  exact (@run_interpolation_segment a0 a1 gs Ha0 Ha1 Hset Hgs Hlen).
Qed.

(** X9.  Interpolation between two consecutive accelerometer samples of any
    history.  On an accelerometer arrival that brings the history to three
    samples or more, take two accelerometer samples [a0], [a1] of the history
    with only gyro samples [gs] between them, [a0] counting as set.  The
    readings returned contain, as one contiguous run and in arrival order,
    one reading per gyro sample of [gs] stamped at or after [a0]: its stamp
    is the gyro sample's time as a count of nanoseconds, its angular velocity
    the gyro sample's vector, and its linear acceleration
    [a0 * (1 - alpha) + a1 * alpha], component by component, with
    [alpha = (gyro_time - a0_time) / (a1_time - a0_time)]. *)
Theorem interpolation_between_consecutive_accels
  (imu_data : CimuData F) (history front_part gs back_part : list (CimuData F))
  (a0 a1 : CimuData F) :
  m_type imu_data = ACCEL ->
  3 <= length (history ++ [imu_data]) ->
  history ++ [imu_data] = front_part ++ a0 :: gs ++ a1 :: back_part ->
  m_type a0 = ACCEL ->
  m_type a1 = ACCEL ->
  Forall (fun g => m_type g = GYRO) gs ->
  is_set a0 = true ->
  exists before after,
    fst (FillImuData_LinearInterpolation is_set imu_data history) =
    before
      ++ map (fun g =>
                let alpha :=
                  ((m_time_ns g - m_time_ns a0)
                   / (m_time_ns a1 - m_time_ns a0))%sc in
                mkImu (to_int64 (m_time_ns g)) (m_data g)
                  (vec3
                     (vx (m_data a0) * (sc_one - alpha)
                      + vx (m_data a1) * alpha)%sc
                     (vy (m_data a0) * (sc_one - alpha)
                      + vy (m_data a1) * alpha)%sc
                     (vz (m_data a0) * (sc_one - alpha)
                      + vz (m_data a1) * alpha)%sc))
           (filter (fun g => (m_time_ns a0 <=? m_time_ns g)%sc) gs)
      ++ after.
Proof.
  intros Htype Hlen Hsplit Ha0 Ha1 Hgs Hset.
  unfold FillImuData_LinearInterpolation.
  rewrite Htype, sip_eqb_refl. simpl negb. rewrite orb_false_l.
  destruct (Nat.ltb_spec (length (history ++ [imu_data])) 3) as [Hlt|_];
    [lia|].
  simpl fst. rewrite Hsplit.
  exact (@drain_segment F scalar is_set front_part gs back_part a0 a1
           Ha0 Ha1 Hgs Hset).
Qed.

End Policies.

(** *** Two accelerometer samples with the same time, in double precision *)

Lemma lerp_component_not_finite (a b t0 t1 tg : float) :
  Prim2SF (t1 - t0)%float = S754_zero false ->
  not_finite (a * (1 - (tg - t0) / (t1 - t0)) + b * ((tg - t0) / (t1 - t0)))%float
  = true.
Proof.
  intro Hdt. unfold not_finite.
  assert (Halpha : SF_not_finite (Prim2SF ((tg - t0) / (t1 - t0))%float) = true).
  { rewrite div_spec, Hdt. apply SFdiv_by_zero. }
  rewrite add_spec, !mul_spec, sub_spec.
  apply SFadd_not_finite; apply SFmul_not_finite;
    [apply SFsub_not_finite|]; exact Halpha.
Qed.

(** X8.  Division by a zero time difference, in double precision.  If two
    consecutive accelerometer samples carry the same finite time, the
    interpolation weight is a quotient by zero: every reading the cycle
    returns for the gyro samples between them has a linear acceleration whose
    three components are infinities or NaNs, whatever the accelerometer
    vectors are.  The readings are emitted all the same, one per gyro sample
    stamped at or after that time. *)
Theorem equal_accel_times_give_no_finite_acceleration
  (is_set : CimuData float -> bool) (a0 a1 : CimuData float)
  (gs : list (CimuData float)) :
  m_type a0 = ACCEL -> m_type a1 = ACCEL -> is_set a0 = true ->
  Forall (fun g => m_type g = GYRO) gs ->
  1 <= length gs ->
  m_time_ns a1 = m_time_ns a0 ->
  not_finite (m_time_ns a0) = false ->
  let readings := fst (run_interpolation is_set (gs ++ [a1]) [a0]) in
  length readings =
  length (filter (fun g => (m_time_ns a0 <=? m_time_ns g)%float) gs) /\
  Forall (fun m =>
            not_finite (vx (linear_acceleration m)) = true /\
            not_finite (vy (linear_acceleration m)) = true /\
            not_finite (vz (linear_acceleration m)) = true)
         readings.
Proof.
  intros Ha0 Ha1 Hset Hgs Hlen Heq Hfin. cbv zeta.
  rewrite (run_interpolation_segment is_set a0 a1 Ha0 Ha1 Hset Hgs Hlen).
  cbn [fst]. split; [apply length_map|].
  apply Forall_map, Forall_forall. intros g _.
  cbn [linear_acceleration lerp vadd vscale vx vy vz sc_add sc_mul sc_sub
       sc_div sc_one double].
  pose proof (sub_diag_finite _ Hfin) as Hdt. rewrite <- Heq in Hdt at 1.
  repeat split; apply lerp_component_not_finite; exact Hdt.
Qed.

Lemma copy_policy_holds_last_accel_witness :
  run_copy is_set_positive
    [mkCimuData ACCEL (vec3 0 0 9)%float 1%float;
     mkCimuData GYRO (vec3 1 2 3)%float 2.5%float;
     mkCimuData GYRO (vec3 4 5 6)%float 3%float]
    CimuData_default =
  ([mkImu (Some 2%Z) (vec3 1 2 3)%float (vec3 0 0 9)%float;
    mkImu (Some 3%Z) (vec3 4 5 6)%float (vec3 0 0 9)%float],
   mkCimuData ACCEL (vec3 0 0 9)%float 1%float).
Proof.
  apply (proj1 (@copy_policy_holds_last_accel float double is_set_positive
                  (mkCimuData ACCEL (vec3 0 0 9)%float 1%float)
                  CimuData_default
                  [mkCimuData GYRO (vec3 1 2 3)%float 2.5%float;
                   mkCimuData GYRO (vec3 4 5 6)%float 3%float]
                  eq_refl
                  ltac:(repeat constructor; discriminate))).
  reflexivity.
Defined.

Lemma gyros_before_first_accel_are_dropped_witness :
  FillImuData_LinearInterpolation is_set_positive
    (mkCimuData ACCEL (vec3 0 0 9)%float 3%float)
    [mkCimuData GYRO (vec3 1 2 3)%float 1%float;
     mkCimuData GYRO (vec3 4 5 6)%float 2%float] =
  ([], [mkCimuData ACCEL (vec3 0 0 9)%float 3%float]).
Proof.
  apply (@gyros_before_first_accel_are_dropped float double is_set_positive).
  - reflexivity.
  - reflexivity.
  - repeat constructor.
  - simpl. lia.
Defined.

Lemma interpolation_cycle_witness :
  run_interpolation is_set_positive
    [mkCimuData GYRO (vec3 1 2 3)%float 2%float;
     mkCimuData GYRO (vec3 4 5 6)%float 4%float;
     mkCimuData ACCEL (vec3 10 10 10)%float 11%float]
    [mkCimuData ACCEL (vec3 0 0 0)%float 3%float] =
  ([mkImu (Some 4%Z) (vec3 4 5 6)%float (vec3 1.25 1.25 1.25)%float],
   [mkCimuData ACCEL (vec3 10 10 10)%float 11%float]).
Proof.
  exact (@interpolation_cycle float double is_set_positive
           (mkCimuData ACCEL (vec3 0 0 0)%float 3%float)
           (mkCimuData ACCEL (vec3 10 10 10)%float 11%float)
           [mkCimuData GYRO (vec3 1 2 3)%float 2%float;
            mkCimuData GYRO (vec3 4 5 6)%float 4%float]
           eq_refl eq_refl eq_refl
           ltac:(repeat constructor)
           (le_S 1 1 (le_n 1))).
Defined.

Lemma equal_accel_times_give_no_finite_acceleration_witness :
  let a := mkCimuData ACCEL (vec3 0 0 9)%float 5%float in
  let g := mkCimuData GYRO (vec3 1 2 3)%float 7%float in
  let readings := fst (run_interpolation is_set_positive [g; a] [a]) in
  length readings = 1 /\
  Forall (fun m =>
            not_finite (vx (linear_acceleration m)) = true /\
            not_finite (vy (linear_acceleration m)) = true /\
            not_finite (vz (linear_acceleration m)) = true)
         readings.
Proof.
  cbv zeta.
  exact (@equal_accel_times_give_no_finite_acceleration is_set_positive
           (mkCimuData ACCEL (vec3 0 0 9)%float 5%float)
           (mkCimuData ACCEL (vec3 0 0 9)%float 5%float)
           [mkCimuData GYRO (vec3 1 2 3)%float 7%float]
           eq_refl eq_refl eq_refl
           ltac:(repeat constructor)
           (le_n 1) eq_refl eq_refl).
Defined.

Lemma interpolation_between_consecutive_accels_witness :
  exists before after,
    fst (FillImuData_LinearInterpolation is_set_positive
           (mkCimuData ACCEL (vec3 10 10 10)%float 11%float)
           [mkCimuData ACCEL (vec3 0 0 0)%float 1%float;
            mkCimuData GYRO (vec3 1 2 3)%float 6.5%float]) =
    before
      ++ [mkImu (Some 6%Z) (vec3 1 2 3)%float (vec3 5.5 5.5 5.5)%float]
      ++ after.
Proof.
  exact (@interpolation_between_consecutive_accels float double
           is_set_positive
           (mkCimuData ACCEL (vec3 10 10 10)%float 11%float)
           [mkCimuData ACCEL (vec3 0 0 0)%float 1%float;
            mkCimuData GYRO (vec3 1 2 3)%float 6.5%float]
           []
           [mkCimuData GYRO (vec3 1 2 3)%float 6.5%float]
           []
           (mkCimuData ACCEL (vec3 0 0 0)%float 1%float)
           (mkCimuData ACCEL (vec3 10 10 10)%float 11%float)
           eq_refl (le_n 3) eq_refl eq_refl eq_refl
           ltac:(repeat constructor) eq_refl).
Defined.

End ImuPolicies.

(** ** The time base over the callbacks (lines 389-398, 432-448, 475-488, 563-572, 691-692, 739-745) *)

Module TimeBaseLaws.
Import TimeBase Binary64.

Section Arrivals.
Context {F : Type} {scalar : Scalar F}.

(** The frames of all streams in their order of arrival, each with the value
    of [_node.now()] at its arrival and its device time: every callback
    starts with the same compare-and-exchange and [setBaseTime]. *)
Definition anchor_all (arrivals : list (Z * F)) (s : t) : t :=
  fold_left (fun s a => anchor (fst a) (snd a) s) arrivals s.

Lemma anchor_all_initialized (arrivals : list (Z * F)) (ros_base : Z)
  (camera_base : F) :
  anchor_all arrivals (mk true ros_base camera_base) =
  mk true ros_base camera_base.
Proof.
  unfold anchor_all.
  induction arrivals as [|a arrivals IH]; simpl; [reflexivity | exact IH].
Qed.

(** X10.  The time base is set once.  Whatever frames arrive afterwards, on
    whatever stream, the time base is the host time and the device time of
    the first arrival; a time base that is initialised is never moved. *)
Theorem time_base_is_set_once
  (arrivals : list (Z * F)) (ros_base now : Z) (camera_base frame_time : F) :
  anchor_all ((now, frame_time) :: arrivals) (mk false ros_base camera_base) =
  mk true now frame_time /\
  anchor_all arrivals (mk true ros_base camera_base) =
  mk true ros_base camera_base.
Proof.
  split; [|apply anchor_all_initialized].
  unfold anchor_all. cbn [fold_left]. unfold anchor, setBaseTime.
  cbn [_is_initialized_time_base fst snd].
  apply anchor_all_initialized.
Qed.

End Arrivals.

(** *** Stamps in double precision *)

Lemma SFsub_not_finite_l (prec emax : Z) (x y : spec_float) :
  SF_not_finite x = true -> SF_not_finite y = false ->
  SF_not_finite (SFsub prec emax x y) = true.
Proof.
  destruct x as [| sx | |]; try discriminate; intros _;
    destruct y; try discriminate; reflexivity.
Qed.

Lemma SFmul_not_finite_l (prec emax : Z) (x : spec_float) (s : bool)
  (m : positive) (e : Z) :
  SF_not_finite x = true ->
  SF_not_finite (SFmul prec emax x (S754_finite s m e)) = true.
Proof. destruct x; try discriminate; reflexivity. Qed.

Lemma SFtrunc_not_finite (x : spec_float) :
  SF_not_finite x = true -> SFtrunc x = None.
Proof. destruct x; try discriminate; reflexivity. Qed.

(** X11.  The frame that sets the time base is stamped with the host time of
    its arrival, exactly, in double precision: its elapsed device time is
    zero.  The device time has to be finite and the host time a 64-bit count
    of nanoseconds. *)
Theorem anchor_frame_is_stamped_with_host_anchor
  (now ros_base : Z) (frame_time camera_base : float) :
  not_finite frame_time = false ->
  in_int64 now = true ->
  to_host_time (anchor now frame_time (mk false ros_base camera_base))
    frame_time = Some now.
Proof.
  intros Hfin Hnow. unfold to_host_time, anchor, setBaseTime, elapsed_camera_ns.
  cbn [_is_initialized_time_base _ros_time_base _camera_time_base
       sc_trunc sc_mul sc_sub double].
  rewrite mul_spec, (sub_diag_finite _ Hfin), million_finite.
  cbn [SF64mul SFmul SFtrunc xorb].
  rewrite Z.add_0_r, Hnow. reflexivity.
Qed.

(** X12.  A frame whose device time is an infinity or a NaN gets no stamp:
    its elapsed time is not finite either, and the conversion to a count of
    nanoseconds is not defined.  This holds for every time base whose device
    anchor is finite. *)
Theorem no_stamp_for_a_time_that_is_not_finite
  (s : @t float) (frame_time : float) :
  not_finite frame_time = true ->
  not_finite (_camera_time_base s) = false ->
  to_host_time s frame_time = None.
Proof.
  intros Hnf Hfin. unfold to_host_time, elapsed_camera_ns.
  cbn [sc_trunc sc_mul sc_sub double].
  rewrite SFtrunc_not_finite; [reflexivity|].
  rewrite mul_spec, million_finite, sub_spec.
  apply SFmul_not_finite_l, SFsub_not_finite_l; assumption.
Qed.

Lemma anchor_frame_is_stamped_with_host_anchor_witness :
  to_host_time (anchor 1000000 100%float (mk false 0 0%float)) 100%float =
  Some 1000000%Z.
Proof.
  exact (@anchor_frame_is_stamped_with_host_anchor 1000000 0 100%float 0%float
           eq_refl eq_refl).
Defined.

Lemma no_stamp_for_a_time_that_is_not_finite_witness :
  to_host_time anchored_double nan = None /\
  to_host_time anchored_double infinity = None.
Proof.
  split.
  - exact (@no_stamp_for_a_time_that_is_not_finite anchored_double nan
             eq_refl eq_refl).
  - exact (@no_stamp_for_a_time_that_is_not_finite anchored_double infinity
             eq_refl eq_refl).
Defined.

End TimeBaseLaws.

(** ** Clipping a frame that was clipped (lines 262-285) *)

Module DepthLaws.
Import Depth.

Lemma static_cast_uint16_range {F : Type} {scalar : Scalar F} (x : F) (z : Z) :
  static_cast_uint16 x = Some z -> (0 <= z <= 65535)%Z.
Proof.
  unfold static_cast_uint16. destruct (sc_trunc x) as [v|]; [|discriminate].
  destruct (Z.leb_spec 0 v) as [H0|H0]; [|discriminate].
  destruct (Z.leb_spec v 65535) as [H1|H1]; [|discriminate].
  simpl. intro E. inversion E; subst. lia.
Qed.

Lemma clipped_idempotent (cv v : Z) :
  (0 <= cv)%Z -> clipped cv (clipped cv v) = clipped cv v.
Proof.
  intro Hcv. unfold clipped.
  destruct (Z.ltb_spec cv v) as [Hlt|Hge].
  - destruct (Z.ltb_spec cv 0); [lia | reflexivity].
  - destruct (Z.ltb_spec cv v); [lia | reflexivity].
Qed.

Lemma clipped_below (cv v : Z) : (0 <= cv)%Z -> (clipped cv v <= cv)%Z.
Proof. intro Hcv. unfold clipped. destruct (Z.ltb_spec cv v); lia. Qed.

Lemma clipped_zero (cv : Z) : (0 <= cv)%Z -> clipped cv 0 = 0%Z.
Proof. intro Hcv. unfold clipped. destruct (Z.ltb_spec cv 0); lia. Qed.

(** X13.  [clip_depth] on a full frame with a defined threshold keeps the
    dimensions and the number of samples, leaves no sample above the
    threshold, keeps every zero (invalid) sample zero, and is idempotent:
    clipping the clipped frame again at the same distance changes nothing. *)
Theorem clip_depth_idempotent {F : Type} {scalar : Scalar F}
  (scale dist : F) (frame frame' : depth_frame) (clipping_value : Z) :
  length (get_data frame) = get_height frame * get_width frame ->
  static_cast_uint16 (dist / scale)%sc = Some clipping_value ->
  clip_depth scale frame dist = Some frame' ->
  get_width frame' = get_width frame /\
  get_height frame' = get_height frame /\
  length (get_data frame') = length (get_data frame) /\
  Forall (fun v => (v <= clipping_value)%Z) (get_data frame') /\
  (forall i, nth i (get_data frame) 0%Z = 0%Z ->
             nth i (get_data frame') 0%Z = 0%Z) /\
  clip_depth scale frame' dist = Some frame'.
Proof.
  intros Hlen Hcast Hclip.
  pose proof (static_cast_uint16_range _ Hcast) as Hcv.
  rewrite (clip_depth_rule scale dist frame Hlen Hcast) in Hclip.
  inversion Hclip; subst frame'; clear Hclip. cbn [get_width get_height get_data].
  repeat split.
  - apply length_map.
  - apply Forall_map, Forall_forall. intros v _. apply clipped_below. lia.
  - intros i Hi.
    pose proof (map_nth (clipped clipping_value) (get_data frame) 0%Z i) as E.
    rewrite clipped_zero in E by lia. rewrite E, Hi. apply clipped_zero. lia.
  - rewrite (@clip_depth_rule F scalar scale dist _ clipping_value);
      cbn [get_width get_height get_data].
    + rewrite map_map. f_equal. f_equal.
      apply map_ext. intro v. apply clipped_idempotent. lia.
    + now rewrite length_map.
    + exact Hcast.
Qed.

Lemma clip_depth_idempotent_witness :
  let frame' := mk_frame [999; 0; 0]%Z 3 1 in
  clip_depth milli_single three_samples (@sc_one _ single) = Some frame' /\
  clip_depth milli_single frame' (@sc_one _ single) = Some frame'.
Proof.
  cbv zeta. split; [reflexivity|].
  apply (@clip_depth_idempotent spec_float single milli_single
           (@sc_one _ single) three_samples (mk_frame [999; 0; 0]%Z 3 1)
           999%Z);
    reflexivity.
Defined.

End DepthLaws.

(** ** The frame-set loops of the frame callback (lines 600-607, 630-658) *)

Module FrameSetLaws.
Import FrameCallback Sublist.

(** A frame that makes the loop of lines 633-658 raise [is_depth_arrived],
    when depth alignment is on. *)
Definition is_z16_depth (f : frame) : bool :=
  negb (is_points f)
  && rs2_stream_eqb (stream_type f) RS2_STREAM_DEPTH
  && rs2_format_eqb (stream_format f) RS2_FORMAT_Z16.

Lemma dedup_step_flag (_align_depth : bool) (l : dedup_locals) (f : frame) :
  is_depth_arrived (dedup_step _align_depth l f) =
  is_depth_arrived l || (_align_depth && is_z16_depth f).
Proof.
  unfold dedup_step, is_z16_depth.
  destruct (is_points f); cbn [negb andb].
  - rewrite andb_false_r, orb_false_r.
    now destruct (negb (points_in_set l)).
  - destruct _align_depth; cbn [andb].
    + destruct (rs2_stream_eqb (stream_type f) RS2_STREAM_DEPTH
                && rs2_format_eqb (stream_format f) RS2_FORMAT_Z16);
        cbn [is_depth_arrived].
      * now rewrite orb_true_r.
      * rewrite orb_false_r.
        now destruct (not_found (sip_of f) (is_in_set l)).
    + rewrite orb_false_r.
      now destruct (not_found (sip_of f) (is_in_set l)).
Qed.

Lemma dedup_fold_flag (_align_depth : bool) (frameset : list frame) :
  forall l,
    is_depth_arrived (fold_left (dedup_step _align_depth) frameset l) =
    is_depth_arrived l || (_align_depth && existsb is_z16_depth frameset).
Proof.
  induction frameset as [|f frameset IH]; intro l; simpl.
  - now rewrite andb_false_r, orb_false_r.
  - rewrite IH, dedup_step_flag.
    destruct (is_depth_arrived l), _align_depth, (is_z16_depth f);
      reflexivity.
Qed.

(** X14.  When aligned depth is published.  [is_depth_arrived] ends up true
    exactly when depth alignment is on and the frame-set holds a frame that is
    not a point cloud, of stream DEPTH and format Z16.  The frame need not be
    one of those kept for publishing: a Z16 depth frame that follows another
    frame of stream (DEPTH, 0) is dropped as a duplicate and still raises the
    flag. *)
Theorem depth_arrival_flag (_align_depth : bool) (frameset : list frame) :
  is_depth_arrived (dedup _align_depth frameset) =
  _align_depth && existsb is_z16_depth frameset.
Proof. unfold dedup. now rewrite dedup_fold_flag. Qed.

(** The frames kept so far are a subsequence of the frames visited, and the
    identities recorded are those of the kept frames that are not point
    clouds, none twice. *)
Record order_inv (seen : list frame) (l : dedup_locals) : Prop := {
  kept_in_order : subsequence (frames_to_publish l) seen;
  identities_of_kept :
    is_in_set l =
    map sip_of (filter (fun f => negb (is_points f)) (frames_to_publish l));
  identities_distinct : NoDup (is_in_set l)
}.

Lemma order_inv_flag (seen : list frame) (l : dedup_locals) (b : bool) :
  order_inv seen l ->
  order_inv seen
    (mk_dedup (points_in_set l) (frames_to_publish l) (is_in_set l) b).
Proof. intros [H1 H2 H3]. constructor; assumption. Qed.

Lemma not_found_not_in (sip : stream_index_pair) (v : list stream_index_pair) :
  not_found sip v = true -> ~ In sip v.
Proof.
  unfold not_found. intros H Hin.
  apply negb_true_iff in H.
  assert (Hex : existsb (sip_eqb sip) v = true).
  { apply existsb_exists. exists sip. split; [exact Hin | apply sip_eqb_refl]. }
  congruence.
Qed.

Lemma NoDup_snoc {A : Type} (l : list A) (x : A) :
  NoDup l -> ~ In x l -> NoDup (l ++ [x]).
Proof.
  intros Hl Hx. induction Hl as [|y l Hy Hl IH]; simpl.
  - constructor; [intros [] | constructor].
  - constructor.
    + intro Hin. apply in_app_or in Hin. destruct Hin as [Hin|[E|[]]].
      * now apply Hy.
      * subst. apply Hx. now left.
    + apply IH. intro Hin. apply Hx. now right.
Qed.

Lemma order_step_inv (_align_depth : bool) (seen : list frame)
  (l : dedup_locals) (f : frame) :
  order_inv seen l -> order_inv (seen ++ [f]) (dedup_step _align_depth l f).
Proof.
  intros [Hsub Hids Hnd]. unfold dedup_step.
  destruct (is_points f) eqn:Hf.
  - destruct (negb (points_in_set l)).
    + constructor; cbn [frames_to_publish is_in_set].
      * apply subsequence_app; [exact Hsub | apply subsequence_refl].
      * rewrite filter_app. cbn [filter]. rewrite Hf. cbn [negb].
        now rewrite app_nil_r.
      * exact Hnd.
    + constructor; [now apply subsequence_snoc_right | exact Hids | exact Hnd].
  - match goal with
    | |- order_inv _ (if ?c then _ else ?l') =>
        cut (order_inv (seen ++ [f]) l');
        [ intro H; destruct c; [apply order_inv_flag|]; exact H |]
    end.
    destruct (not_found (sip_of f) (is_in_set l)) eqn:Hnf.
    + constructor; cbn [frames_to_publish is_in_set].
      * apply subsequence_app; [exact Hsub | apply subsequence_refl].
      * rewrite filter_app, map_app. cbn [filter]. rewrite Hf. cbn [negb map].
        now rewrite Hids.
      * apply NoDup_snoc; [exact Hnd | now apply not_found_not_in].
    + constructor; [now apply subsequence_snoc_right | exact Hids | exact Hnd].
Qed.

Lemma order_fold_inv (_align_depth : bool) (frameset : list frame) :
  forall seen l,
    order_inv seen l ->
    order_inv (seen ++ frameset)
      (fold_left (dedup_step _align_depth) frameset l).
Proof.
  induction frameset as [|f frameset IH]; intros seen l Hl; simpl.
  - now rewrite app_nil_r.
  - replace (seen ++ f :: frameset) with ((seen ++ [f]) ++ frameset)
      by (rewrite <- app_assoc; reflexivity).
    apply IH, order_step_inv, Hl.
Qed.

(** X15.  Frames are published in frame-set order.  The frames kept for
    publishing are a subsequence of the frame-set: the loop never reorders
    frames.  The identities it records are those of the kept frames that are
    not point clouds, in the same order, and no identity is recorded twice:
    each publisher is used at most once per frame-set. *)
Theorem kept_frames_keep_their_order
  (_align_depth : bool) (frameset : list frame) :
  let l := dedup _align_depth frameset in
  subsequence (frames_to_publish l) frameset /\
  is_in_set l =
  map sip_of (filter (fun f => negb (is_points f)) (frames_to_publish l)) /\
  NoDup (is_in_set l).
Proof.
  cbv zeta.
  assert (H0 : order_inv [] dedup_init).
  { constructor; cbn; constructor. }
  destruct (order_fold_inv _align_depth frameset H0) as [H1 H2 H3].
  repeat split; assumption.
Qed.

(** *** The filter chain *)

Section Filters.
Variables ImuMsg World : Type.

(** X16.  The filter chain.  A filter that is not enabled is never run: the
    chain does what the chain of its enabled filters does, on every frame-set
    and node state.  The enabled filters run in list order, each on the
    frame-set the one before it returned; and when one of them throws, the
    filters after it are not run and the exception leaves the chain with the
    state that filter left. *)
Theorem disabled_filters_are_never_run
  (filters : list (NamedFilter ImuMsg World)) (frameset : list frame)
  (n : node ImuMsg World) :
  apply_filters filters frameset n =
  apply_filters (filter (@_is_enabled ImuMsg World) filters) frameset n /\
  (forall (first : NamedFilter ImuMsg World) rest,
      filter (@_is_enabled ImuMsg World) filters = first :: rest ->
      apply_filters filters frameset n =
      match process first frameset n with
      | (Ok frameset', n') => apply_filters rest frameset' n'
      | (Throw what, n') => (Throw what, n')
      end).
Proof.
  assert (H : forall fs n0,
             apply_filters filters fs n0 =
             apply_filters (filter (@_is_enabled ImuMsg World) filters) fs n0).
  { induction filters as [|filter_it filters' IH]; intros fs n0;
      cbn [filter apply_filters]; [reflexivity|].
    destruct (_is_enabled filter_it) eqn:He; [|apply IH].
    cbn [apply_filters]. rewrite He. unfold bind.
    destruct (process filter_it fs n0) as [[fs'|what] n']; [apply IH | reflexivity]. }
  split; [apply H|].
  intros first rest Hf. rewrite H, Hf. cbn [apply_filters].
  assert (He : _is_enabled first = true).
  { assert (Hin : In first (filter (@_is_enabled ImuMsg World) filters))
      by (rewrite Hf; now left).
    apply filter_In in Hin. apply Hin. }
  rewrite He. unfold bind.
  destruct (process first frameset n) as [[fs'|what] n']; [|reflexivity].
  clear. revert fs' n'. 
  induction rest; reflexivity.
Qed.

End Filters.
End FrameSetLaws.

(** ** The base profile (lines 956-984) *)

Module BaseStreamLaws.
Import BaseStream.

Lemma first_with_sound (sip : stream_index_pair)
  (profiles : list stream_profile) (p : stream_profile) :
  first_with sip profiles = Some p -> In p profiles /\ sip_of p = sip.
Proof.
  unfold first_with. intro H. apply find_some in H.
  destruct H as [Hin Hsip]. split; [exact Hin | now apply sip_eqb_eq].
Qed.

(** X17.  What [SetBaseStream] selects.  When it returns, the base profile is
    a profile of one of the sensors and its stream identity is (DEPTH, 0) or
    (POSE, 0): the default-constructed profile that [operator[]] would insert
    for a missing key is never selected, whatever the loop condition reads
    behind the priority vector. *)
Theorem base_profile_is_a_depth_or_pose_profile
  (past_the_end : stream_index_pair) (sensors : list (list stream_profile))
  (p : stream_profile) :
  SetBaseStream past_the_end sensors = Ok p ->
  In p (List.concat sensors) /\ (sip_of p = DEPTH \/ sip_of p = POSE).
Proof.
  unfold SetBaseStream. rewrite advance_stops.
  pose proof (map_find_collect DEPTH sensors) as ED.
  pose proof (map_find_collect POSE sensors) as EP.
  set (available := collect_profiles sensors) in *.
  destruct (map_find DEPTH available) as [d|] eqn:Hd.
  - cbn. rewrite Hd. intro H. inversion H; subst p. symmetry in ED.
    destruct (first_with_sound _ _ ED) as [Hin Hsip]. now split; [|left].
  - destruct (map_find POSE available) as [q|] eqn:Hp.
    + cbn. rewrite Hp. intro H. inversion H; subst p. symmetry in EP.
      destruct (first_with_sound _ _ EP) as [Hin Hsip]. now split; [|right].
    + cbn. discriminate.
Qed.

Lemma base_profile_is_a_depth_or_pose_profile_witness :
  let pose := mk_profile RS2_STREAM_POSE 0 3 in
  let color := mk_profile RS2_STREAM_COLOR 0 2 in
  In pose (List.concat [[color]; [pose]]) /\
  (sip_of pose = DEPTH \/ sip_of pose = POSE).
Proof.
  cbv zeta.
  apply (@base_profile_is_a_depth_or_pose_profile COLOR
           [[mk_profile RS2_STREAM_COLOR 0 2]; [mk_profile RS2_STREAM_POSE 0 3]]
           (mk_profile RS2_STREAM_POSE 0 3)).
  reflexivity.
Defined.

End BaseStreamLaws.

(** ** Calibration records (lines 747-824) *)

Module CalibrationLaws.
Import Calibration.

Section Calib.
Context {F : Type} {scalar : Scalar F}.
Variable OPTICAL_FRAME_ID : stream_index_pair -> string.

(** The projection and the rotation [calibrate] leaves, entry by entry. *)
Lemma calibrate_p (_enable : stream_index_pair -> bool)
  (sip : stream_index_pair) (intrinsic : rs2_intrinsics) (c : CameraInfo)
  (i : nat) :
  p (calibrate OPTICAL_FRAME_ID _enable sip intrinsic c) i =
  nth i (projection_of intrinsic) (p c i).
Proof.
  unfold calibrate.
  destruct (sip_eqb sip DEPTH && _enable DEPTH && _enable COLOR);
    do 12 (destruct i as [|i]; [reflexivity|]); destruct i; reflexivity.
Qed.

Lemma calibrate_r (_enable : stream_index_pair -> bool)
  (sip : stream_index_pair) (intrinsic : rs2_intrinsics) (c : CameraInfo)
  (i : nat) :
  r (calibrate OPTICAL_FRAME_ID _enable sip intrinsic c) i =
  nth i identity_rotation (r c i).
Proof.
  unfold calibrate.
  destruct (sip_eqb sip DEPTH && _enable DEPTH && _enable COLOR);
    do 9 (destruct i as [|i]; [reflexivity|]); destruct i; reflexivity.
Qed.

Lemma calibrate_d (_enable : stream_index_pair -> bool)
  (sip : stream_index_pair) (intrinsic : rs2_intrinsics) (c : CameraInfo) :
  d (calibrate OPTICAL_FRAME_ID _enable sip intrinsic c) =
  to_list 5 (coeffs intrinsic).
Proof.
  unfold calibrate.
  destruct (sip_eqb sip DEPTH && _enable DEPTH && _enable COLOR); reflexivity.
Qed.

(** X18.  What the per-stream update writes.  [updateStreamCalibData] touches
    the record of its own stream only.  In that record the first twelve
    entries of the projection are the intrinsic matrix with a zero fourth
    column and the first nine of the rotation are the identity, whatever
    [_enable] holds: the block of lines 819-823 writes two zeros over two
    zeros.  The distortion coefficients are the five of the intrinsics.  Of
    the intrinsic matrix it writes entries 0, 2, 4, 5 and 8; entries 1, 3, 6
    and 7 keep whatever the record held before. *)
Theorem stream_calibration_writes
  (_enable _enable' : stream_index_pair -> bool)
  (video_profile : stream_profile) (ci : camera_info_map) :
  let sip := sip_of video_profile in
  let intrinsic := get_intrinsics video_profile in
  let ci1 := updateStreamCalibData OPTICAL_FRAME_ID _enable video_profile ci in
  let ci2 := updateStreamCalibData OPTICAL_FRAME_ID _enable' video_profile ci in
  (forall other, other <> sip -> ci1 other = ci other) /\
  to_list 12 (p (ci1 sip)) = projection_of intrinsic /\
  to_list 9 (r (ci1 sip)) = identity_rotation /\
  (forall i, p (ci1 sip) i = p (ci2 sip) i) /\
  (forall i, r (ci1 sip) i = r (ci2 sip) i) /\
  k (ci1 sip) = k (ci2 sip) /\
  d (ci1 sip) = to_list 5 (coeffs intrinsic) /\
  to_list 9 (k (ci1 sip)) =
  [fx intrinsic; k (ci sip) 1; ppx intrinsic;
   k (ci sip) 3; fy intrinsic; ppy intrinsic;
   k (ci sip) 6; k (ci sip) 7; sc_one].
Proof.
  cbv zeta. unfold updateStreamCalibData. rewrite !upd_same.
  split; [intros other Hother; now apply upd_other|].
  split; [unfold to_list; cbn [map seq]; now rewrite !calibrate_p|].
  split; [unfold to_list; cbn [map seq]; now rewrite !calibrate_r|].
  split; [intro i; now rewrite !calibrate_p|].
  split; [intro i; now rewrite !calibrate_r|].
  split; [now rewrite !calibrate_k|].
  split; [apply calibrate_d|].
  rewrite calibrate_k. reflexivity.
Qed.

Variable _enable : stream_index_pair -> bool.
Variable get_extrinsics_to :
  @stream_profile F -> @stream_profile F -> @rs2_extrinsics F.

(** X19.  Which profiles form the stereo pair.  [updateProfilesStreamCalibData]
    ignores the profiles that are not video profiles and runs the per-stream
    update on every video profile, in order.  The left profile is the last
    video profile of index 1 and the right one the last of index 2, of any
    stream type.  When either is missing the extrinsic update is not run, and
    the records are those the per-stream updates leave. *)
Theorem stereo_pair_selection
  (profiles : list stream_profile) (ci : camera_info_map) :
  let s := scan_profiles OPTICAL_FRAME_ID _enable profiles ci in
  let video := filter is_video profiles in
  let each := update_each OPTICAL_FRAME_ID _enable video ci in
  let ci' :=
    updateProfilesStreamCalibData OPTICAL_FRAME_ID _enable get_extrinsics_to
      profiles ci in
  left_profile s = find (has_index 1) (rev video) /\
  right_profile s = find (has_index 2) (rev video) /\
  info s = each /\
  ci' =
  match find (has_index 1) (rev video), find (has_index 2) (rev video) with
  | Some lp, Some rp => updateExtrinsicsCalibData get_extrinsics_to lp rp each
  | _, _ => each
  end.
Proof.
  cbv zeta. unfold updateProfilesStreamCalibData.
  destruct (scan_profiles_spec OPTICAL_FRAME_ID _enable profiles ci)
    as (HL & HR & HI).
  rewrite HL, HR, HI. repeat split.
Qed.

End Calib.

(** A depth stream and an infrared pair, with a gyro profile between them:
    the depth record is calibrated on its own and no extrinsic update runs
    when the right profile is missing. *)
Lemma stereo_pair_selection_example :
  let depth := mk_profile true RS2_STREAM_DEPTH 0 pair_intrinsics in
  let gyro := mk_profile false RS2_STREAM_GYRO 2 pair_intrinsics in
  updateProfilesStreamCalibData (fun _ => "optical_frame") (fun _ => true)
    pair_extrinsics [depth; gyro; pair_left] camera_info_empty =
  update_each (fun _ => "optical_frame") (fun _ => true) [depth; pair_left]
    camera_info_empty.
Proof. reflexivity. Qed.

End CalibrationLaws.

